(** * Py-Algo: linked binary tree, traversals, the array queue, the Caesar
      cipher and two maps

    A shallow embedding of [trees/linked_binary_tree.py], [trees/tree.py],
    [queue/queue.py], [array_types_goodrich/caesar_cipher.py],
    [maps/unsorted_table_map.py] and [maps/probe_hash_map.py].

    Python objects have identity and are mutated in place.  Nodes and tree
    objects therefore live in a store (an arena per kind of object, indexed
    by the object's identity); a method is a function from the store to the
    store and an outcome.  An exception leaves the store as the statements
    before it made it. *)

From Stdlib Require Import ZArith Lia.
From stdpp Require Import base list strings pretty.

(** ** Outcomes and exceptions *)

Inductive exn : Type :=
| TypeError (msg : string)
| ValueError (msg : string)
| AttributeError (attr : string)   (* attribute access on [None] *)
| IndexError (msg : string)
| ZeroDivisionError
| Empty (msg : string)             (* queue.Empty *)
| BadReference.                    (* an identity that names no object:
                                      cannot happen in Python *)

Inductive result (A : Type) : Type :=
| Ok (a : A)
| Raise (e : exn).
Arguments Ok {A} a.
Arguments Raise {A} e.

(** A state monad whose exceptions keep the state. *)
Definition M (S A : Type) : Type := S -> S * result A.

Definition ret {S A} (a : A) : M S A := fun s => (s, Ok a).
Definition raise {S A} (e : exn) : M S A := fun s => (s, Raise e).
Definition bind {S A B} (m : M S A) (k : A -> M S B) : M S B :=
  fun s => match m s with
           | (s', Ok a) => k a s'
           | (s', Raise e) => (s', Raise e)
           end.

#[global] Instance M_ret {S} : MRet (M S) := fun A a => ret a.
#[global] Instance M_bind {S} : MBind (M S) := fun A B k m => bind m k.

(** Python's [if x:] on a reference that is an object or [None]: objects of
    classes with neither [__bool__] nor [__len__] are true. *)
Definition truthy {A} (o : option A) : bool :=
  match o with Some _ => true | None => false end.

(** [x is not None]. *)
Definition is_not_None {A} (o : option A) : bool :=
  match o with Some _ => true | None => false end.

(** ** Generators

    A generator body run to its end: the values it yields, in order, and how
    it ends.  A generator that raises has yielded what it yielded before.
    Recursion and loops over the store are bounded by a fuel; [None] is a
    fuel that was too small. *)
Definition Gen (S Y A : Type) : Type := S -> option (S * list Y * result A).

Definition gret {S Y A} (a : A) : Gen S Y A := fun s => Some (s, [], Ok a).
Definition gbind {S Y A B} (m : Gen S Y A) (k : A -> Gen S Y B) : Gen S Y B :=
  fun s => match m s with
           | None => None
           | Some (s', ys, Raise e) => Some (s', ys, Raise e)
           | Some (s', ys, Ok a) =>
               match k a s' with
               | None => None
               | Some (s'', ys', r) => Some (s'', ys ++ ys', r)
               end
           end.
Definition yield {S Y} (y : Y) : Gen S Y unit := fun s => Some (s, [y], Ok tt).
Definition call {S Y A} (m : M S A) : Gen S Y A :=
  fun s => let (s', r) := m s in Some (s', [], r).
Definition out_of_fuel {S Y A} : Gen S Y A := fun _ => None.


#[global] Instance Gen_ret {S Y} : MRet (Gen S Y) := fun A a => gret a.
#[global] Instance Gen_bind {S Y} : MBind (Gen S Y) := fun A B k m => gbind m k.

(** ** Python integers and lists *)

(** [a % b]: floored, the sign of the divisor, as [Z.modulo] is; a zero
    divisor raises.  ([a // 4] and [a // 2], floored as [Z.div] is, have no
    zero divisor.) *)
Definition py_mod (a b : Z) : result Z :=
  if (b =? 0)%Z then Raise ZeroDivisionError else Ok (a mod b)%Z.

(** The position [l[i]] names: negative indices count from the end. *)
Definition py_index {A} (l : list A) (i : Z) : option nat :=
  let n := Z.of_nat (length l) in
  if ((0 <=? i) && (i <? n))%Z then Some (Z.to_nat i)
  else if ((- n <=? i) && (i <? 0))%Z then Some (Z.to_nat (n + i))
  else None.

Definition py_getitem {A} (l : list A) (i : Z) : result A :=
  match py_index l i with
  | Some k =>
      match l !! k with
      | Some x => Ok x
      | None => Raise (IndexError "list index out of range")
      end
  | None => Raise (IndexError "list index out of range")
  end.

Definition py_setitem {A} (l : list A) (i : Z) (x : A) : result (list A) :=
  match py_index l i with
  | Some k => Ok (<[k := x]> l)
  | None => Raise (IndexError "list assignment index out of range")
  end.

(** [[x] * n]: empty when [n] is negative. *)
Definition py_repeat {A} (x : A) (n : Z) : list A := replicate (Z.to_nat n) x.

(** [range(n)]. *)
Definition py_range (n : Z) : list Z := Z.of_nat <$> seq 0 (Z.to_nat n).

Definition of_result {S A} (r : result A) : M S A := fun s => (s, r).

(** ** [queue/queue.py] *)
Module ArrayQueue.

Definition DEFAULT_CAPACITY : Z := 10.

Section WithElement.
Context {E : Type}.

(** The attributes of an [ArrayQueue]; a slot of [_data] holds an element or
    [None]. *)
Record ArrayQueue : Type := mkQueue {
  _data : list (option E);
  _size : Z;
  _front : Z
}.

#[local] Abbreviation Op := (M ArrayQueue).

Definition get {A} (f : ArrayQueue -> A) : Op A := fun q => (q, Ok (f q)).
Definition set_data (d : list (option E)) : Op unit :=
  fun q => (mkQueue d (_size q) (_front q), Ok tt).
Definition set_size (n : Z) : Op unit :=
  fun q => (mkQueue (_data q) n (_front q), Ok tt).
Definition set_front (n : Z) : Op unit :=
  fun q => (mkQueue (_data q) (_size q) n, Ok tt).

Definition __init__ : ArrayQueue :=
  mkQueue (py_repeat None DEFAULT_CAPACITY) 0 0.

Definition __len__ : Op Z := get _size.

Definition is_empty : Op bool := n ← get _size; ret (n =? 0)%Z.

Definition first : Op (option E) :=
  e ← is_empty;
  if (e : bool) then raise (Empty "Queue is empty")
  else
    d ← get _data;
    f ← get _front;
    of_result (py_getitem d f).

(** The body of the [for k in range(self._size)] loop of [_resize], over the
    remaining values of [k]; [walk] is threaded through. *)
Fixpoint _resize_loop (old : list (option E)) (ks : list Z) (walk : Z) : Op unit :=
  match ks with
  | [] => ret tt
  | k :: ks =>
      x ← of_result (py_getitem old walk);
      d ← get _data;
      d ← of_result (py_setitem d k x);
      set_data d ;;
      walk ← of_result (py_mod (1 + walk) (Z.of_nat (length old)));
      _resize_loop old ks walk
  end.

Definition _resize (capacity : Z) : Op unit :=
  old ← get _data;
  set_data (py_repeat None capacity) ;;
  walk ← get _front;
  n ← get _size;
  _resize_loop old (py_range n) walk ;;
  set_front 0.

Definition dequeue : Op (option E) :=
  e ← is_empty;
  if (e : bool) then raise (Empty "Queue is empty")
  else
    d ← get _data;
    f ← get _front;
    answer ← of_result (py_getitem d f);
    d ← get _data;
    f ← get _front;
    d ← of_result (py_setitem d f None);
    set_data d ;;
    f ← get _front;
    d ← get _data;
    f ← of_result (py_mod (f + 1) (Z.of_nat (length d)));
    set_front f ;;
    n ← get _size;
    set_size (n - 1) ;;
    n ← get _size;
    d ← get _data;
    (if (0 <? n)%Z && (n <? Z.of_nat (length d) / 4)%Z
     then d ← get _data; _resize (Z.of_nat (length d) / 2)
     else ret tt) ;;
    ret answer.

Definition enqueue (e : E) : Op unit :=
  n ← get _size;
  d ← get _data;
  (if (n =? Z.of_nat (length d))%Z
   then d ← get _data; _resize (2 * Z.of_nat (length d))
   else ret tt) ;;
  f ← get _front;
  n ← get _size;
  d ← get _data;
  avail ← of_result (py_mod (f + n) (Z.of_nat (length d)));
  d ← get _data;
  d ← of_result (py_setitem d avail (Some e));
  set_data d ;;
  n ← get _size;
  set_size (n + 1).

(** The queues a program can hold: a new one, and what [enqueue] and
    [dequeue] leave, whether they return or raise. *)
Inductive reachable : ArrayQueue -> Prop :=
| reachable_init : reachable __init__
| reachable_enqueue q e q' r :
    reachable q -> enqueue e q = (q', r) -> reachable q'
| reachable_dequeue q q' r :
    reachable q -> dequeue q = (q', r) -> reachable q'.

(** The representation invariant of the ring buffer. *)
Definition wf (q : ArrayQueue) : Prop :=
  (0 < Z.of_nat (length (_data q)) /\
   0 <= _front q < Z.of_nat (length (_data q)) /\
   0 <= _size q <= Z.of_nat (length (_data q)))%Z.

(** *** The queue as the list it holds *)

Definition capacity (q : ArrayQueue) : Z := Z.of_nat (length (_data q)).

(** The slots from the front on, [_size] of them, around the end of
    [_data]: what the queue holds, oldest first. *)
Definition contents (q : ArrayQueue) : list (option E) :=
  (fun i => _data q !!! Z.to_nat ((_front q + Z.of_nat i) mod capacity q)%Z)
    <$> seq 0 (Z.to_nat (_size q)).

(** A caller that enqueues the elements of a list, in order, and one that
    dequeues [n] times and collects what it gets. *)
Fixpoint enqueue_all (es : list E) : Op unit :=
  match es with
  | [] => ret tt
  | e :: es => enqueue e ;; enqueue_all es
  end.

Fixpoint dequeue_n (n : nat) : Op (list (option E)) :=
  match n with
  | O => ret []
  | S n => x ← dequeue; xs ← dequeue_n n; ret (x :: xs)
  end.

End WithElement.
Arguments ArrayQueue : clear implicits.

End ArrayQueue.

(** ** [trees/linked_binary_tree.py] and [trees/tree.py] *)
Module LinkedBinaryTree.

Abbreviation loc := nat (only parsing).   (* identity of a _Node *)
Abbreviation tid := nat (only parsing).   (* identity of a tree object *)

Section WithElement.
Context {E : Type}.

(** [class _Node], with its four slots. *)
Record _Node : Type := mkNode {
  _element : E;
  _parent : option loc;
  _left : option loc;
  _right : option loc
}.

(** A tree object: its class (what [type(t)] returns) and its two
    attributes. *)
Record Tree : Type := mkTree {
  type_ : string;
  _root : option loc;
  _size : Z
}.

(** [class Position]: a container and a node. *)
Record Position : Type := mkPosition {
  _container : tid;
  _node : loc
}.

Record Store : Type := mkStore {
  nodes : list _Node;
  trees : list Tree
}.

#[local] Abbreviation Op := (M Store).

(** *** Attribute reads and writes *)

Definition getnode {A} (f : _Node -> A) (n : loc) : Op A :=
  fun s => match nodes s !! n with
           | Some nd => (s, Ok (f nd))
           | None => (s, Raise BadReference)
           end.

Definition setnode (f : _Node -> _Node) (n : loc) : Op unit :=
  fun s => match nodes s !! n with
           | Some nd => (mkStore (<[n := f nd]> (nodes s)) (trees s), Ok tt)
           | None => (s, Raise BadReference)
           end.

Definition gettree {A} (f : Tree -> A) (t : tid) : Op A :=
  fun s => match trees s !! t with
           | Some tr => (s, Ok (f tr))
           | None => (s, Raise BadReference)
           end.

Definition settree (f : Tree -> Tree) (t : tid) : Op unit :=
  fun s => match trees s !! t with
           | Some tr => (mkStore (nodes s) (<[t := f tr]> (trees s)), Ok tt)
           | None => (s, Raise BadReference)
           end.

Definition with_element (e : E) (nd : _Node) : _Node :=
  mkNode e (_parent nd) (_left nd) (_right nd).
Definition with_parent (v : option loc) (nd : _Node) : _Node :=
  mkNode (_element nd) v (_left nd) (_right nd).
Definition with_left (v : option loc) (nd : _Node) : _Node :=
  mkNode (_element nd) (_parent nd) v (_right nd).
Definition with_right (v : option loc) (nd : _Node) : _Node :=
  mkNode (_element nd) (_parent nd) (_left nd) v.
Definition with_root (v : option loc) (t : Tree) : Tree :=
  mkTree (type_ t) v (_size t).
Definition with_size (v : Z) (t : Tree) : Tree :=
  mkTree (type_ t) (_root t) v.

(** [o.attr] and [o.attr = v] where [o] may be [None]. *)
Definition getattr {A} (attr : string) (f : _Node -> A) (o : option loc) : Op A :=
  match o with
  | Some n => getnode f n
  | None => raise (AttributeError attr)
  end.

Definition setattr (attr : string) (f : _Node -> _Node) (o : option loc) : Op unit :=
  match o with
  | Some n => setnode f n
  | None => raise (AttributeError attr)
  end.

(** [self._Node(e, parent=..)]: a new object, with an identity no other
    node has. *)
Definition new_node (e : E) (parent : option loc) : Op loc :=
  fun s => (mkStore (nodes s ++ [mkNode e parent None None]) (trees s),
            Ok (length (nodes s))).

(** [LinkedBinaryTree()] (of class [cls]): [__init__] sets [_root = None]
    and [_size = 0]. *)
Definition __init__ (cls : string) : Op tid :=
  fun s => (mkStore (nodes s) (trees s ++ [mkTree cls None 0%Z]),
            Ok (length (trees s))).

(** *** The methods of [LinkedBinaryTree] *)

Definition element (p : Position) : Op E := getnode _element (_node p).

Definition _validate (self : tid) (p : option Position) : Op loc :=
  match p with
  | None => raise (TypeError "p must be of proper Position type")
  | Some p =>
      if decide (_container p = self) then
        par ← getnode _parent (_node p);
        if decide (par = Some (_node p))
        then raise (ValueError "p is no longer valid")
        else ret (_node p)
      else raise (ValueError "p does not belong to this container")
  end.

Definition _make_position (self : tid) (node : option loc) : option Position :=
  match node with
  | Some n => Some (mkPosition self n)
  | None => None
  end.

Definition __len__ (self : tid) : Op Z := gettree _size self.

Definition root (self : tid) : Op (option Position) :=
  r ← gettree _root self; ret (_make_position self r).

Definition parent (self : tid) (p : option Position) : Op (option Position) :=
  node ← _validate self p;
  v ← getnode _parent node; ret (_make_position self v).

Definition left (self : tid) (p : option Position) : Op (option Position) :=
  node ← _validate self p;
  v ← getnode _left node; ret (_make_position self v).

Definition right (self : tid) (p : option Position) : Op (option Position) :=
  node ← _validate self p;
  v ← getnode _right node; ret (_make_position self v).

Definition num_children (self : tid) (p : option Position) : Op Z :=
  node ← _validate self p;
  l ← getnode _left node;
  let count := if is_not_None l then (0 + 1)%Z else 0%Z in
  r ← getnode _right node;
  let count := if is_not_None r then (count + 1)%Z else count in
  ret count.

(** [Tree.is_leaf] and [Tree.is_empty], inherited from [trees/tree.py]. *)
Definition is_leaf (self : tid) (p : option Position) : Op bool :=
  c ← num_children self p; ret (c =? 0)%Z.

(** The built-in [len(self)]: it calls [__len__] and raises [ValueError]
    when what that returns is negative.  (It also refuses a number that does
    not fit the index type of the platform; like the depth of recursion, this
    limit of the interpreter is not modelled.) *)
Definition len (self : tid) : Op Z :=
  n ← __len__ self;
  if (n <? 0)%Z then raise (ValueError "__len__() should return >= 0")
  else ret n.

Definition is_empty (self : tid) : Op bool :=
  n ← len self; ret (n =? 0)%Z.

Definition _add_root (self : tid) (e : E) : Op (option Position) :=
  r ← gettree _root self;
  if is_not_None r then raise (ValueError "Root exists!")
  else
    settree (with_size 1%Z) self ;;
    n ← new_node e None;
    settree (with_root (Some n)) self ;;
    r ← gettree _root self;
    ret (_make_position self r).

Definition _add_left (self : tid) (p : option Position) (e : E) : Op (option Position) :=
  node ← _validate self p;
  l ← getnode _left node;
  if is_not_None l then raise (ValueError "Left child already exist")
  else
    sz ← gettree _size self;
    settree (with_size (sz + 1)%Z) self ;;
    n ← new_node e (Some node);
    setnode (with_left (Some n)) node ;;
    l ← getnode _left node;
    ret (_make_position self l).

Definition _add_right (self : tid) (p : option Position) (e : E) : Op (option Position) :=
  node ← _validate self p;
  r ← getnode _right node;
  if is_not_None r then raise (ValueError "Right child already exist")
  else
    sz ← gettree _size self;
    settree (with_size (sz + 1)%Z) self ;;
    n ← new_node e (Some node);
    setnode (with_right (Some n)) node ;;
    r ← getnode _right node;
    ret (_make_position self r).

Definition replace (self : tid) (p : option Position) (e : E) : Op E :=
  node ← _validate self p;
  old ← getnode _element node;
  setnode (with_element e) node ;;
  ret old.

Definition delete (self : tid) (p : option Position) : Op E :=
  node ← _validate self p;
  c ← num_children self p;
  if (c =? 2)%Z then raise (ValueError "p has 2 children and cannot be deleted.")
  else
    l ← getnode _left node;
    child ← (if truthy l then getnode _left node else getnode _right node);
    (if is_not_None child
     then v ← getnode _parent node; setattr "_parent" (with_parent v) child
     else ret tt) ;;
    r ← gettree _root self;
    (if decide (Some node = r)
     then settree (with_root child) self
     else
       parent ← getnode _parent node;
       pl ← getattr "_left" _left parent;
       if decide (Some node = pl)
       then setattr "_left" (with_left child) parent
       else setattr "_right" (with_right child) parent) ;;
    sz ← gettree _size self;
    settree (with_size (sz - 1)%Z) self ;;
    setnode (with_parent (Some node)) node ;;
    getnode _element node.

Definition _attach (self : tid) (p : option Position) (t1 t2 : tid) : Op unit :=
  node ← _validate self p;
  leaf ← is_leaf self p;
  if negb leaf then raise (ValueError "position must be a leaf")
  else
    ty ← gettree type_ self;
    ty1 ← gettree type_ t1;
    ty2 ← gettree type_ t2;
    if negb (bool_decide (ty = ty1) && bool_decide (ty1 = ty2))
    then raise (TypeError "Tree types must match")
    else
      n1 ← len t1;
      n2 ← len t2;
      settree (with_size (n1 + n2)%Z) self ;;
      e1 ← is_empty t1;
      (if negb e1 then
         r1 ← gettree _root t1;
         setattr "_parent" (with_parent (Some node)) r1 ;;
         r1 ← gettree _root t1;
         setnode (with_left r1) node ;;
         settree (with_root None) t1 ;;
         settree (with_size 0%Z) t1
       else ret tt) ;;
      e2 ← is_empty t2;
      (if negb e2 then
         r2 ← gettree _root t2;
         setattr "_parent" (with_parent (Some node)) r2 ;;
         r2 ← gettree _root t2;
         setnode (with_right r2) node ;;
         settree (with_root None) t2 ;;
         settree (with_size 0%Z) t2
       else ret tt).

(** *** Traversals *)

(** Modelled from the spec: [BinaryTree.children] ([trees/binary_tree.py] is
    not among the sources).  The spec has the children of a position
    produced left-to-right, through [left] and [right], a child that is
    absent being skipped. *)
Definition children (self : tid) (p : option Position) : Op (list (option Position)) :=
  l ← left self p;
  cl ← (if is_not_None l then c ← left self p; ret [c] else ret []);
  r ← right self p;
  cr ← (if is_not_None r then c ← right self p; ret [c] else ret []);
  ret (cl ++ cr).

(** Modelled from the spec: the fringe, a [LinkedQueue]
    ([linked_list/linked_queue.py] is not among the sources).  The spec
    gives its interface: a FIFO with [enqueue(e)], [dequeue()] failing on an
    empty queue, and [is_empty()]. *)
Definition LinkedQueue : Type := list (option Position).
Definition LinkedQueue_new : LinkedQueue := [].
Definition LinkedQueue_is_empty (q : LinkedQueue) : bool :=
  match q with [] => true | _ => false end.
Definition LinkedQueue_enqueue (e : option Position) (q : LinkedQueue) : LinkedQueue :=
  q ++ [e].
Definition LinkedQueue_dequeue (q : LinkedQueue) : result (option Position * LinkedQueue) :=
  match q with
  | [] => Raise (Empty "Queue is empty")
  | e :: q' => Ok (e, q')
  end.

#[local] Abbreviation Iter := (Gen Store (option Position) unit).

Fixpoint _subtree_inorder (fuel : nat) (self : tid) (p : option Position) : Iter :=
  match fuel with
  | O => out_of_fuel
  | S fuel =>
      l ← call (left self p);
      (if is_not_None l
       then l ← call (left self p); _subtree_inorder fuel self l
       else gret tt) ;;
      yield p ;;
      r ← call (right self p);
      (if truthy r
       then r ← call (right self p); _subtree_inorder fuel self r
       else gret tt)
  end.

Definition inorder (fuel : nat) (self : tid) : Iter :=
  e ← call (is_empty self);
  if negb e
  then r ← call (root self); _subtree_inorder fuel self r
  else gret tt.

Definition positions (fuel : nat) (self : tid) : Iter := inorder fuel self.

(** The [while not fringe.is_empty()] loop of [Tree.breadthfirst]. *)
Fixpoint breadthfirst_loop (fuel : nat) (self : tid) (fringe : LinkedQueue) : Iter :=
  match fuel with
  | O => out_of_fuel
  | S fuel =>
      if negb (LinkedQueue_is_empty fringe) then
        match LinkedQueue_dequeue fringe with
        | Raise e => call (raise e)
        | Ok (p, fringe) =>
            yield p ;;
            cs ← call (children self p);
            breadthfirst_loop fuel self
              (foldl (fun q c => LinkedQueue_enqueue c q) fringe cs)
        end
      else gret tt
  end.

Definition breadthfirst (fuel : nat) (self : tid) : Iter :=
  e ← call (is_empty self);
  if negb e
  then
    r ← call (root self);
    breadthfirst_loop fuel self (LinkedQueue_enqueue r LinkedQueue_new)
  else gret tt.

(** *** The data model, as the properties below speak of it *)

(** The links of a node: everything but its element. *)
Definition links (nd : _Node) : option loc * option loc * option loc :=
  (_parent nd, _left nd, _right nd).

(** The tree [self] still links to [node], and the links around [node] are
    symmetric: a child of [node] points back to it and is not also its
    parent; [node] is the root and has no parent, or it is a child of the
    node its parent reference names. *)
Definition attached (s : Store) (self : tid) (node : loc) : Prop :=
  exists tr nd,
    trees s !! self = Some tr /\ nodes s !! node = Some nd /\
    (forall ch, _left nd = Some ch \/ _right nd = Some ch ->
       _parent nd <> Some ch /\
       exists cn, nodes s !! ch = Some cn /\ _parent cn = Some node) /\
    (_root tr = Some node /\ _parent nd = None \/
     _root tr <> Some node /\
     exists par pn, _parent nd = Some par /\ nodes s !! par = Some pn /\
       (_left pn = Some node \/ _right pn = Some node)).

(** The binary tree a store holds below a reference. *)
Inductive bintree : Type :=
| Leaf
| Nd (l : bintree) (n : loc) (r : bintree).

Fixpoint shape (s : Store) (o : option loc) (t : bintree) : Prop :=
  match t with
  | Leaf => o = None
  | Nd l n r =>
      o = Some n /\
      exists nd, nodes s !! n = Some nd /\ _parent nd <> Some n /\
                 shape s (_left nd) l /\ shape s (_right nd) r
  end.

(** The spec's inorder: left subtree, then the root, then the right
    subtree. *)
Fixpoint inorder_spec (t : bintree) : list loc :=
  match t with
  | Leaf => []
  | Nd l n r => inorder_spec l ++ n :: inorder_spec r
  end.

Fixpoint depth (t : bintree) : nat :=
  match t with
  | Leaf => 0
  | Nd l _ r => S (depth l `max` depth r)
  end.

Definition pos (self : tid) (n : loc) : option Position :=
  Some (mkPosition self n).

(** The nodes of a tree at distance [k] from its root, left to right. *)
Fixpoint level (k : nat) (t : bintree) {struct t} : list loc :=
  match t with
  | Leaf => []
  | Nd l n r =>
      match k with
      | O => [n]
      | S k => level k l ++ level k r
      end
  end.


Fixpoint count (t : bintree) : nat :=
  match t with
  | Leaf => 0
  | Nd l _ r => S (count l + count r)
  end.

Definition root_pos (self : tid) (t : bintree) : option Position :=
  match t with
  | Leaf => None
  | Nd _ n _ => pos self n
  end.

Definition nonleaf (t : bintree) : list bintree :=
  match t with Leaf => [] | Nd _ _ _ => [t] end.

Definition kids (t : bintree) : list bintree :=
  match t with Leaf => [] | Nd l _ r => nonleaf l ++ nonleaf r end.



(** *** The other methods of [trees/tree.py] *)

(** [Position.__eq__]: [type(other) is type(self) and other._node is
    self._node].  The containers are not compared. *)
Definition Position__eq__ (self other : Position) : bool :=
  bool_decide (_node other = _node self).

(** [a == b] on references that are a [Position] or [None]: [None] equals
    [None] only, whichever side it stands on. *)
Definition py_eq (a b : option Position) : bool :=
  match a, b with
  | Some x, Some y => Position__eq__ x y
  | None, None => true
  | _, _ => false
  end.

Definition is_root (self : tid) (p : option Position) : Op bool :=
  r ← root self; ret (py_eq r p).

(** A recursive method is run like a generator that yields nothing. *)
#[local] Abbreviation Rec := (Gen Store Empty_set).

(** [Tree.depth]; [depth] above counts the levels of a [bintree]. *)
Fixpoint Tree_depth (fuel : nat) (self : tid) (p : option Position) : Rec Z :=
  match fuel with
  | O => out_of_fuel
  | S fuel =>
      b ← call (is_root self p);
      if (b : bool) then gret 0%Z
      else
        q ← call (parent self p);
        d ← Tree_depth fuel self q;
        gret (1 + d)%Z
  end.

(** [max(l)] on a list of integers. *)
Definition py_max (l : list Z) : result Z :=
  match l with
  | [] => Raise (ValueError "max() arg is an empty sequence")
  | x :: l => Ok (foldl Z.max x l)
  end.

(** [[f(c) for c in cs]] and [for c in cs: body(c)]. *)
Fixpoint gmapM {S Y A B} (f : A -> Gen S Y B) (cs : list A) : Gen S Y (list B) :=
  match cs with
  | [] => gret []
  | c :: cs => y ← f c; ys ← gmapM f cs; gret (y :: ys)
  end.

Fixpoint gfor {S Y A} (cs : list A) (body : A -> Gen S Y unit) : Gen S Y unit :=
  match cs with
  | [] => gret tt
  | c :: cs => body c ;; gfor cs body
  end.

Fixpoint _height2 (fuel : nat) (self : tid) (p : option Position) : Rec Z :=
  match fuel with
  | O => out_of_fuel
  | S fuel =>
      leaf ← call (is_leaf self p);
      if (leaf : bool) then gret 0%Z
      else
        cs ← call (children self p);
        children_height ← gmapM (_height2 fuel self) cs;
        m ← call (of_result (py_max children_height));
        gret (1 + m)%Z
  end.

Definition height (fuel : nat) (self : tid) (p : option Position) : Rec Z :=
  p ← (if is_not_None p then gret p else call (root self));
  _height2 fuel self p.

Fixpoint _subtree_preorder (fuel : nat) (self : tid) (p : option Position) : Iter :=
  match fuel with
  | O => out_of_fuel
  | S fuel =>
      yield p ;;
      cs ← call (children self p);
      gfor cs (_subtree_preorder fuel self)
  end.

Definition preorder (fuel : nat) (self : tid) : Iter :=
  e ← call (is_empty self);
  if negb e
  then r ← call (root self); _subtree_preorder fuel self r
  else gret tt.

Fixpoint _subtree_postorder (fuel : nat) (self : tid) (p : option Position) : Iter :=
  match fuel with
  | O => out_of_fuel
  | S fuel =>
      cs ← call (children self p);
      gfor cs (_subtree_postorder fuel self) ;;
      yield p
  end.

Definition postorder (fuel : nat) (self : tid) : Iter :=
  e ← call (is_empty self);
  if negb e
  then r ← call (root self); _subtree_postorder fuel self r
  else gret tt.

(** [p.element()] where [p] may be [None]. *)
Definition Position_element (p : option Position) : Op E :=
  match p with
  | Some p => element p
  | None => raise (AttributeError "element")
  end.

(** [for y in g: body(y)] over a generator [g] that only reads the store, as
    the traversals do: the store at each of its yields is the store at its
    end. *)
Definition gfor_gen {Y Y'} (g : Gen Store Y unit) (body : Y -> Gen Store Y' unit) :
    Gen Store Y' unit :=
  fun s => match g s with
           | None => None
           | Some (s', ys, r) =>
               (gfor ys body ;;
                match r with Ok _ => gret tt | Raise e => call (raise e) end) s'
           end.

Definition __iter__ (fuel : nat) (self : tid) : Gen Store E unit :=
  gfor_gen (positions fuel self)
           (fun p => e ← call (Position_element p); yield e).

(** *** The data model, with the parent references *)



(** [shape], with the parent reference of every node: the root of the tree
    below [o] has parent [par], and a child has its node for parent. *)
Fixpoint shape_up (s : Store) (par o : option loc) (t : bintree) : Prop :=
  match t with
  | Leaf => o = None
  | Nd l n r =>
      o = Some n /\
      exists nd, nodes s !! n = Some nd /\ _parent nd = par /\ par <> Some n /\
                 shape_up s (Some n) (_left nd) l /\
                 shape_up s (Some n) (_right nd) r
  end.

(** *** A tree that grows *)





(** *** A tree that shrinks *)

(** The tree after the node [n], of at most one child, is taken out: its
    child, if it has one, stands where [n] stood. *)
Fixpoint remove_node (n : loc) (t : bintree) : bintree :=
  match t with
  | Leaf => Leaf
  | Nd l m r =>
      if decide (m = n) then match l with Leaf => r | Nd _ _ _ => l end
      else Nd (remove_node n l) m (remove_node n r)
  end.

(** *** The states a program reaches without [_attach] *)

(** A call of a method of a tree; [call_init] makes a new tree. *)
Inductive method_call : Type :=
| call_init (cls : string)
| call_root (self : tid)
| call_parent (self : tid) (p : option Position)
| call_left (self : tid) (p : option Position)
| call_right (self : tid) (p : option Position)
| call_add_root (self : tid) (e : E)
| call_add_left (self : tid) (p : option Position) (e : E)
| call_add_right (self : tid) (p : option Position) (e : E)
| call_replace (self : tid) (p : option Position) (e : E)
| call_delete (self : tid) (p : option Position).

(** The positions a call is given. *)
Definition args (c : method_call) : list (option Position) :=
  match c with
  | call_init _ | call_root _ | call_add_root _ _ => []
  | call_parent _ p | call_left _ p | call_right _ p
  | call_add_left _ p _ | call_add_right _ p _
  | call_replace _ p _ | call_delete _ p => [p]
  end.

(** The store a run leaves, and the positions it hands out: what it
    returns, if that is a position. *)
Definition handed {A} (f : A -> list (option Position)) (r : Store * result A) :
    Store * list (option Position) :=
  (r.1, match r.2 with Ok a => f a | Raise _ => [] end).

Definition run_call (c : method_call) (s : Store) : Store * list (option Position) :=
  match c with
  | call_init cls => handed (fun _ => []) (__init__ cls s)
  | call_root self => handed (fun q => [q]) (root self s)
  | call_parent self p => handed (fun q => [q]) (parent self p s)
  | call_left self p => handed (fun q => [q]) (left self p s)
  | call_right self p => handed (fun q => [q]) (right self p s)
  | call_add_root self e => handed (fun q => [q]) (_add_root self e s)
  | call_add_left self p e => handed (fun q => [q]) (_add_left self p e s)
  | call_add_right self p e => handed (fun q => [q]) (_add_right self p e s)
  | call_replace self p e => handed (fun _ => []) (replace self p e s)
  | call_delete self p => handed (fun _ => []) (delete self p s)
  end.

(** The stores a program reaches from an empty one, with the positions it
    then holds: [None], and those the calls so far handed out.  A call is
    given positions the program holds. *)
Inductive reach : Store -> list (option Position) -> Prop :=
| reach_start : reach (mkStore [] []) [None]
| reach_call s ps c :
    reach s ps -> (forall p, p ∈ args c -> p ∈ ps) ->
    reach (run_call c s).1 (ps ++ (run_call c s).2).

(** The links of the node [m], if there is one. *)
Definition par (s : Store) (m : loc) : option (option loc) := _parent <$> nodes s !! m.
Definition lft (s : Store) (m : loc) : option (option loc) := _left <$> nodes s !! m.
Definition rgt (s : Store) (m : loc) : option (option loc) := _right <$> nodes s !! m.

(** A node that was not deleted. *)
Definition live (s : Store) (m : loc) : Prop :=
  exists v, par s m = Some v /\ v <> Some m.

(** The number of nodes the tree [c] made, as [cr] has it, and that were
    not deleted. *)
Definition owns (s : Store) (cr : list tid) (c : tid) (m : loc) : nat :=
  match par s m with
  | Some v => if decide (v <> Some m /\ cr !! m = Some c) then 1 else 0
  | None => 0
  end.

Definition cnt (s : Store) (cr : list tid) (c : tid) : nat :=
  sum_list_with (owns s cr c) (seq 0 (length (nodes s))).

(** What holds of a store these calls made, [cr] naming for every node the
    tree whose method made it: a root has no parent; a node that was not
    deleted is the root of its tree or a child of an older node of its tree
    that was not deleted; a child names its parent, and is not both the left
    and the right child; the size of a tree is the number of its nodes. *)
Record Inv (s : Store) (cr : list tid) : Prop := mkInv {
  inv_len : length cr = length (nodes s);
  inv_tid : forall m c, cr !! m = Some c -> c < length (trees s);
  inv_root : forall c tr r,
    trees s !! c = Some tr -> _root tr = Some r ->
    cr !! r = Some c /\ par s r = Some None;
  inv_up : forall m q,
    par s m = Some (Some q) -> q <> m ->
    q < m /\ live s q /\ cr !! q = cr !! m /\
    (lft s q = Some (Some m) \/ rgt s q = Some (Some m));
  inv_top : forall m,
    par s m = Some None ->
    exists c tr, cr !! m = Some c /\ trees s !! c = Some tr /\ _root tr = Some m;
  inv_down : forall q m,
    live s q -> lft s q = Some (Some m) \/ rgt s q = Some (Some m) ->
    par s m = Some (Some q) /\ q <> m;
  inv_lr : forall q m,
    live s q -> lft s q = Some (Some m) -> rgt s q <> Some (Some m);
  inv_size : forall c tr,
    trees s !! c = Some tr -> _size tr = Z.of_nat (cnt s cr c)
}.

(** The positions a program holds name nodes of the tree they came from. *)
Definition issued (cr : list tid) (ps : list (option Position)) : Prop :=
  forall p, p ∈ ps ->
    match p with
    | None => True
    | Some q => cr !! _node q = Some (_container q)
    end.

(** [x] is the node [a] or lies below it: the parent references lead from
    [x] up to [a]. *)
Inductive below (s : Store) (a : loc) : loc -> Prop :=
| below_refl : below s a a
| below_step q x :
    below s a q -> par s x = Some (Some q) -> q <> x -> below s a x.

End WithElement.
Arguments _Node : clear implicits.
Arguments method_call : clear implicits.
Arguments Store : clear implicits.

End LinkedBinaryTree.

(** ** [array_types_goodrich/caesar_cipher.py]

    A string is the list of its code points; [ord] and [chr] go between a
    one-character string and its code point. *)
Module CaesarCipher.

Abbreviation char := Z (only parsing).
Abbreviation str := (list Z) (only parsing).

#[local] Instance result_ret : MRet result := fun A a => Ok a.
#[local] Instance result_bind : MBind result :=
  fun A B k m => match m with Ok a => k a | Raise e => Raise e end.

Definition ord (c : char) : Z := c.

(** [ord('A')]. *)
Definition ord_A : Z := 65.

(** [chr(i)]: the code points are those below [0x110000]. *)
Definition chr (i : Z) : result char :=
  if ((0 <=? i) && (i <? 1114112))%Z then Ok i
  else Raise (ValueError "chr() arg not in range(0x110000)").

(** [s[j]] on a string. *)
Definition str_getitem (s : str) (j : Z) : result char :=
  match py_index s j with
  | Some k =>
      match s !! k with
      | Some c => Ok c
      | None => Raise (IndexError "string index out of range")
      end
  | None => Raise (IndexError "string index out of range")
  end.

(** [''.join(l)] on a list whose items are one-character strings or
    [None]. *)
Fixpoint join_from (i : nat) (l : list (option char)) : result str :=
  match l with
  | [] => Ok []
  | Some c :: l => s ← join_from (S i) l; Ok (c :: s)
  | None :: _ =>
      Raise (TypeError ("sequence item " +:+ pretty (N.of_nat i)
                        +:+ ": expected str instance, NoneType found"))
  end.

Definition join (l : list (option char)) : result str := join_from 0 l.

Record CaesarCipher : Type := mkCipher {
  _forward : str;
  _backward : str
}.

(** The loop of [__init__]. *)
Fixpoint __init___loop (shift : Z) (ks : list Z) (encoder decoder : list (option char)) :
    result (list (option char) * list (option char)) :=
  match ks with
  | [] => Ok (encoder, decoder)
  | k :: ks =>
      m ← py_mod (k + shift) 26;
      c ← chr (m + ord_A);
      encoder ← py_setitem encoder k (Some c);
      m ← py_mod (k - shift) 26;
      c ← chr (m + ord_A);
      decoder ← py_setitem decoder k (Some c);
      __init___loop shift ks encoder decoder
  end.

Definition __init__ (shift : Z) : result CaesarCipher :=
  let encoder := py_repeat None 26 in
  let decoder := py_repeat None 26 in
  '(encoder, decoder) ← __init___loop shift (py_range 26) encoder decoder;
  forward ← join encoder;
  backward ← join decoder;
  Ok (mkCipher forward backward).

(** The letters the two tables hold at index [k]. *)
Definition forward_char (shift k : Z) : Z := ((k + shift) mod 26 + 65)%Z.
Definition backward_char (shift k : Z) : Z := ((k - shift) mod 26 + 65)%Z.

Section WithIsupper.

(** [c.isupper()] on a one-character string: Python decides it from the
    Unicode data base. *)
Variable isupper : char -> bool.

(** The loop of [_transform]. *)
Fixpoint _transform_loop (code : str) (ks : list Z) (msg : list char) :
    result (list char) :=
  match ks with
  | [] => Ok msg
  | k :: ks =>
      c ← py_getitem msg k;
      msg ← (if isupper c then
               c ← py_getitem msg k;
               let j := (ord c - ord_A)%Z in
               x ← str_getitem code j;
               py_setitem msg k x
             else Ok msg);
      _transform_loop code ks msg
  end.

Definition _transform (original : str) (code : str) : result str :=
  let msg := original in
  _transform_loop code (py_range (Z.of_nat (length msg))) msg.

Definition encrypt (self : CaesarCipher) (message : str) : result str :=
  _transform message (_forward self).

Definition decrypt (self : CaesarCipher) (secret : str) : result str :=
  _transform secret (_backward self).

(** What the cipher does to one character. *)
Definition rotate (shift : Z) (c : char) : char :=
  if isupper c then ((c - 65 + shift) mod 26 + 65)%Z else c.

End WithIsupper.

End CaesarCipher.

(** ** [maps/unsorted_table_map.py] and [maps/probe_hash_map.py]

    The maps raise [KeyError] beside the exceptions above.  Keys are
    compared with [==]; [repr] gives the text of a key in a message.  An
    item is what [self._Item(k, v)] makes: [maps/map_base.py] is not among
    the sources; the maps read its key as [_key] and read and write its
    value as [_value]. *)
Inductive map_exn : Type :=
| KeyError (msg : string)
| Builtin (e : exn).

Inductive outcome (A : Type) : Type :=
| Returns (a : A)
| Raises (e : map_exn).
Arguments Returns {A} a.
Arguments Raises {A} e.

(** [l.pop(j)]. *)
Definition py_pop {A} (l : list A) (j : Z) : result (A * list A) :=
  match py_index l j with
  | Some i =>
      match l !! i with
      | Some x => Ok (x, delete i l)
      | None => Raise (IndexError "pop index out of range")
      end
  | None => Raise (IndexError "pop index out of range")
  end.

Module UnsortedTableMap.
Section WithKeys.
Context {K V : Type} `{EqDecision K}.
Variable repr : K -> string.

Record _Item : Type := mkItem {
  _key : K;
  _value : V
}.

(** The map, with its attribute [_table], a list of items. *)
Record UnsortedTableMap : Type := mkMap {
  _table : list _Item
}.

Definition __init__ : UnsortedTableMap := mkMap [].

(** The loop of [__getitem__]; [None] when it ends without [return]. *)
Fixpoint __getitem___loop (k : K) (items : list _Item) : option V :=
  match items with
  | [] => None
  | item :: items =>
      if decide (k = _key item) then Some (_value item)
      else __getitem___loop k items
  end.

Definition __getitem__ (k : K) (self : UnsortedTableMap) : outcome V :=
  match __getitem___loop k (_table self) with
  | Some v => Returns v
  | None => Raises (KeyError ("Key Error: " +:+ repr k))
  end.

(** The loop of [__setitem__], over the items of the table: the table with
    the value of the first match written, or [None] when the loop ends
    without [return]. *)
Fixpoint __setitem___loop (k : K) (v : V) (items : list _Item) : option (list _Item) :=
  match items with
  | [] => None
  | item :: items =>
      if decide (k = _key item) then Some (mkItem (_key item) v :: items)
      else (item ::.) <$> __setitem___loop k v items
  end.

Definition __setitem__ (k : K) (v : V) (self : UnsortedTableMap) : UnsortedTableMap :=
  match __setitem___loop k v (_table self) with
  | Some table => mkMap table
  | None => mkMap (_table self ++ [mkItem k v])
  end.

(** The loop of [__delitem__], over [range(len(self._table))]. *)
Fixpoint __delitem___loop (k : K) (js : list Z) (self : UnsortedTableMap) :
    option (UnsortedTableMap * outcome unit) :=
  match js with
  | [] => None
  | j :: js =>
      match py_getitem (_table self) j with
      | Raise e => Some (self, Raises (Builtin e))
      | Ok item =>
          if decide (k = _key item) then
            match py_pop (_table self) j with
            | Ok (_, table) => Some (mkMap table, Returns tt)
            | Raise e => Some (self, Raises (Builtin e))
            end
          else __delitem___loop k js self
      end
  end.

Definition __delitem__ (k : K) (self : UnsortedTableMap) :
    UnsortedTableMap * outcome unit :=
  match __delitem___loop k (py_range (Z.of_nat (length (_table self)))) self with
  | Some r => r
  | None => (self, Raises (KeyError ("Key Error " +:+ repr k)))
  end.

Definition __len__ (self : UnsortedTableMap) : Z := Z.of_nat (length (_table self)).

(** The keys [__iter__] yields, in order. *)
Definition __iter__ (self : UnsortedTableMap) : list K := _key <$> _table self.

(** The maps a program can hold. *)
Inductive reachable : UnsortedTableMap -> Prop :=
| reachable_init : reachable __init__
| reachable_setitem self k v :
    reachable self -> reachable (__setitem__ k v self)
| reachable_delitem self k :
    reachable self -> reachable (fst (__delitem__ k self)).

End WithKeys.
Arguments _Item : clear implicits.
Arguments UnsortedTableMap : clear implicits.
End UnsortedTableMap.

Module ProbeHashMap.
Section WithKeys.
Context {K V : Type} `{EqDecision K}.
Variable repr : K -> string.

Record _Item : Type := mkItem {
  _key : K;
  _value : V
}.

(** What a slot of the table holds: [None], the sentinel [_AVAIL] or an
    item. *)
Inductive slot : Type :=
| slot_None
| _AVAIL
| slot_Item (item : _Item).

(** The map: the attributes [_table] and [_n], which [HashMapBase] sets
    ([hash_map_base.py] is not among the sources) and this class reads and
    writes as a list of slots and a number. *)
Record ProbeHashMap : Type := mkMap {
  _table : list slot;
  _n : Z
}.

Definition getslot (self : ProbeHashMap) (j : Z) : outcome slot :=
  match py_getitem (_table self) j with
  | Ok x => Returns x
  | Raise e => Raises (Builtin e)
  end.

Definition is_None (x : slot) : bool :=
  match x with slot_None => true | _ => false end.

Definition is_AVAIL (x : slot) : bool :=
  match x with _AVAIL => true | _ => false end.

Definition _is_available (self : ProbeHashMap) (j : Z) : outcome bool :=
  match getslot self j with
  | Raises e => Raises e
  | Returns x =>
      if is_None x then Returns true
      else match getslot self j with
           | Raises e => Raises e
           | Returns y => Returns (is_AVAIL y)
           end
  end.

(** [x._key] and [x._value] on what a slot holds. *)
Definition key_of (x : slot) : outcome K :=
  match x with
  | slot_Item item => Returns (_key item)
  | _ => Raises (Builtin (AttributeError "_key"))
  end.

Definition value_of (x : slot) : outcome V :=
  match x with
  | slot_Item item => Returns (_value item)
  | _ => Raises (Builtin (AttributeError "_value"))
  end.

(** [j = (j + 1) % len(self._table)]. *)
Definition next (self : ProbeHashMap) (j : Z) : outcome Z :=
  match py_mod (j + 1) (Z.of_nat (length (_table self))) with
  | Ok j => Returns j
  | Raise e => Raises (Builtin e)
  end.

(** The [while True] loop of [_find_slot]; [None] is a fuel that was too
    small. *)
Fixpoint _find_slot_loop (fuel : nat) (self : ProbeHashMap) (j : Z) (k : K)
    (first_avail : option Z) : option (outcome (bool * Z)) :=
  match fuel with
  | O => None
  | S fuel =>
      match _is_available self j with
      | Raises e => Some (Raises e)
      | Returns true =>
          (* if first_avail is None: first_avail = j *)
          let first_avail :=
            match first_avail with Some a => a | None => j end in
          match getslot self j with
          | Raises e => Some (Raises e)
          | Returns x =>
              if is_None x then Some (Returns (false, first_avail))
              else
                match next self j with
                | Raises e => Some (Raises e)
                | Returns j => _find_slot_loop fuel self j k (Some first_avail)
                end
          end
      | Returns false =>
          match getslot self j with
          | Raises e => Some (Raises e)
          | Returns x =>
              match key_of x with
              | Raises e => Some (Raises e)
              | Returns key =>
                  if decide (k = key) then Some (Returns (true, j))
                  else
                    match next self j with
                    | Raises e => Some (Raises e)
                    | Returns j => _find_slot_loop fuel self j k first_avail
                    end
              end
          end
      end
  end.

Definition _find_slot (fuel : nat) (self : ProbeHashMap) (j : Z) (k : K) :
    option (outcome (bool * Z)) :=
  _find_slot_loop fuel self j k None.

Definition _bucket_getitem (fuel : nat) (self : ProbeHashMap) (j : Z) (k : K) :
    option (outcome V) :=
  match _find_slot fuel self j k with
  | None => None
  | Some (Raises e) => Some (Raises e)
  | Some (Returns (found, s)) =>
      if negb found then Some (Raises (KeyError ("Key Error: " +:+ repr k)))
      else
        match getslot self s with
        | Raises e => Some (Raises e)
        | Returns x => Some (value_of x)
        end
  end.

(** [self._table[s] = x]. *)
Definition setslot (self : ProbeHashMap) (s : Z) (x : slot) :
    ProbeHashMap * outcome unit :=
  match py_setitem (_table self) s x with
  | Ok table => (mkMap table (_n self), Returns tt)
  | Raise e => (self, Raises (Builtin e))
  end.

Definition _bucket_setitem (fuel : nat) (self : ProbeHashMap) (j : Z) (k : K) (v : V) :
    option (ProbeHashMap * outcome unit) :=
  match _find_slot fuel self j k with
  | None => None
  | Some (Raises e) => Some (self, Raises e)
  | Some (Returns (found, s)) =>
      if negb found then
        match setslot self s (slot_Item (mkItem k v)) with
        | (self, Returns _) => Some (mkMap (_table self) (_n self + 1), Returns tt)
        | (self, Raises e) => Some (self, Raises e)
        end
      else
        match getslot self s with
        | Raises e => Some (self, Raises e)
        | Returns (slot_Item item) =>
            Some (setslot self s (slot_Item (mkItem (_key item) v)))
        | Returns _ => Some (self, Raises (Builtin (AttributeError "_value")))
        end
  end.

Definition _bucket_delitem (fuel : nat) (self : ProbeHashMap) (j : Z) (k : K) :
    option (ProbeHashMap * outcome unit) :=
  match _find_slot fuel self j k with
  | None => None
  | Some (Raises e) => Some (self, Raises e)
  | Some (Returns (found, s)) =>
      if negb found then Some (self, Raises (KeyError ("Ket Error " +:+ repr k)))
      else Some (setslot self s _AVAIL)
  end.

(** The loop of [__iter__]: the keys it yields and how it ends. *)
Fixpoint __iter___loop (self : ProbeHashMap) (js : list Z) : list K * outcome unit :=
  match js with
  | [] => ([], Returns tt)
  | j :: js =>
      match _is_available self j with
      | Raises e => ([], Raises e)
      | Returns true => __iter___loop self js
      | Returns false =>
          match getslot self j with
          | Raises e => ([], Raises e)
          | Returns x =>
              match key_of x with
              | Raises e => ([], Raises e)
              | Returns key =>
                  let (keys, r) := __iter___loop self js in (key :: keys, r)
              end
          end
      end
  end.

Definition __iter__ (self : ProbeHashMap) : list K * outcome unit :=
  __iter___loop self (py_range (Z.of_nat (length (_table self)))).

(** *** The probe sequence, as the properties below speak of it *)

(** The slot the probe reaches [i] steps after [j]. *)
Definition probe (self : ProbeHashMap) (j : Z) (i : nat) : Z :=
  ((j + Z.of_nat i) mod Z.of_nat (length (_table self)))%Z.

Definition slot_at (self : ProbeHashMap) (j : Z) : option slot :=
  _table self !! Z.to_nat j.

(** A slot the search for [k] goes past: the sentinel, or an item with
    another key. *)
Definition passed (k : K) (x : option slot) : Prop :=
  x = Some _AVAIL \/ exists item, x = Some (slot_Item item) /\ _key item <> k.

(** A slot that holds an item. *)
Definition occupied (x : option slot) : Prop :=
  exists item, x = Some (slot_Item item).

(** An index of the table. *)
Definition in_table (self : ProbeHashMap) (j : Z) : Prop :=
  (0 <= j < Z.of_nat (length (_table self)))%Z.

(** The key of the item a slot holds. *)
Definition slot_key (x : slot) : option K :=
  match x with slot_Item item => Some (_key item) | _ => None end.

End WithKeys.
Arguments _Item : clear implicits.
Arguments slot : clear implicits.
Arguments ProbeHashMap : clear implicits.
End ProbeHashMap.

(** * Concrete trees and a concrete queue *)

Import LinkedBinaryTree.

Definition empty_store : Store string := mkStore [] [].

Definition run {A} (m : M (Store string) A) : Store string * result A :=
  m empty_store.

(** root 'M', left child 'E', right child 'Z'. *)
Definition build_MEZ :
    M (Store string) (tid * option Position * option Position * option Position) :=
  t ← __init__ "LinkedBinaryTree";
  m ← _add_root t "M";
  e ← _add_left t m "E";
  z ← _add_right t m "Z";
  mret (t, m, e, z).

(** Three levels: a root with two children, each with one child. *)
Definition build_three_levels :
    M (Store string)
      (tid * (option Position * option Position * option Position
              * option Position * option Position)) :=
  t ← __init__ "LinkedBinaryTree";
  a ← _add_root t "a";
  b ← _add_left t a "b";
  c ← _add_right t a "c";
  d ← _add_left t b "d";
  e ← _add_right t c "e";
  mret (t, (a, b, c, d, e)).

(** A one-node tree to whose root two new, empty trees are attached. *)
Definition attach_empty_trees : M (Store string) tid :=
  t ← __init__ "LinkedBinaryTree";
  p ← _add_root t "a";
  t1 ← __init__ "LinkedBinaryTree";
  t2 ← __init__ "LinkedBinaryTree";
  _attach t p t1 t2;;
  mret t.

(** A one-node tree attached to its own root. *)
Definition attach_self : M (Store string) (tid * tid) :=
  t ← __init__ "LinkedBinaryTree";
  p ← _add_root t "a";
  t2 ← __init__ "LinkedBinaryTree";
  _attach t p t t2;;
  mret (t, t2).

(** A tree [t1] with root 'x' attached below the root of [t]; [q] is the
    position [t1] gave for 'x'. *)
Definition attach_then_use : M (Store string) (tid * tid * option Position) :=
  t ← __init__ "LinkedBinaryTree";
  p ← _add_root t "a";
  t1 ← __init__ "LinkedBinaryTree";
  q ← _add_root t1 "x";
  t2 ← __init__ "LinkedBinaryTree";
  _attach t p t1 t2;;
  mret (t, t1, q).

(** The stores these programs leave. *)
Definition store_MEZ : Store string := Eval vm_compute in fst (run build_MEZ).
Definition store_three_levels : Store string :=
  Eval vm_compute in fst (run build_three_levels).
Definition store_attach_empty : Store string :=
  Eval vm_compute in fst (run attach_empty_trees).
Definition store_attach_then_use : Store string :=
  Eval vm_compute in fst (run attach_then_use).

(** Before [attach_self] attaches: the tree 0 with its root 'a', and the
    empty tree 1. *)
Definition store_before_attach_self : Store string :=
  Eval vm_compute in
    fst (run (t ← __init__ "LinkedBinaryTree";
              _add_root t "a";;
              __init__ "LinkedBinaryTree")).

(** Before [attach_then_use] attaches: the tree 0 with its root 'a', the
    tree 1 with its root 'x', and the empty tree 2. *)
Definition store_before_attach : Store string :=
  Eval vm_compute in
    fst (run (t ← __init__ "LinkedBinaryTree";
              _add_root t "a";;
              t1 ← __init__ "LinkedBinaryTree";
              _add_root t1 "x";;
              __init__ "LinkedBinaryTree")).

(** A root 'a' with one child, 'b', on its left. *)
Definition store_root_one_child : Store string :=
  Eval vm_compute in
    fst (run (t ← __init__ "LinkedBinaryTree";
              a ← _add_root t "a";
              _add_left t a "b")).

(** The three-level tree after [delete] of its leaf 'd'. *)
Definition store_deleted_d : Store string :=
  Eval vm_compute in
    fst (delete 0 (Some (mkPosition 0 3)) store_three_levels).

(** A new tree, and the tree 0 with its root 'a' beside two new trees. *)
Definition store_new_tree : Store string :=
  Eval vm_compute in fst (run (__init__ "LinkedBinaryTree")).

(** A root 'a' with a left child 'b'; two new, empty trees are attached to
    'b', and 'b' is deleted. *)
Definition attach_then_delete : M (Store string) (tid * option Position) :=
  t ← __init__ "LinkedBinaryTree";
  a ← _add_root t "a";
  b ← _add_left t a "b";
  t1 ← __init__ "LinkedBinaryTree";
  t2 ← __init__ "LinkedBinaryTree";
  _attach t b t1 t2;;
  delete t b;;
  mret (t, a).

Definition store_negative_count : Store string :=
  Eval vm_compute in fst (run attach_then_delete).

Definition store_before_attach_empty : Store string :=
  Eval vm_compute in
    fst (run (t ← __init__ "LinkedBinaryTree";
              _add_root t "a";;
              __init__ "LinkedBinaryTree";;
              __init__ "LinkedBinaryTree")).

(** [str.isupper] on the code points below 256: A..Z, and the capitals of
    Latin-1 (all of 192..222 but the multiplication sign). *)
Definition isupper_latin1 (c : Z) : bool :=
  ((65 <=? c) && (c <=? 90) || (192 <=? c) && (c <=? 222) && negb (c =? 215))%Z.

(** The messages [Hi, JOE!] and [A-grave B]. *)
Definition message_hi_joe : list Z := [72; 105; 44; 32; 74; 79; 69; 33]%Z.
Definition message_agrave_b : list Z := [192; 66]%Z.

(** The map [{1: 'a', 2: 'b'}], made in that order. *)
Definition map_ab : UnsortedTableMap.UnsortedTableMap Z string :=
  UnsortedTableMap.__setitem__ 2%Z "b"
    (UnsortedTableMap.__setitem__ 1%Z "a" UnsortedTableMap.__init__).

(** A table of five slots: an item with key 6 at slot 1, the sentinel at
    slot 2, an item with key 11 at slot 3; and one without a free slot. *)
Definition probe_map_5 : ProbeHashMap.ProbeHashMap Z string :=
  ProbeHashMap.mkMap
    [ProbeHashMap.slot_None;
     ProbeHashMap.slot_Item (ProbeHashMap.mkItem 6%Z "six");
     ProbeHashMap._AVAIL;
     ProbeHashMap.slot_Item (ProbeHashMap.mkItem 11%Z "eleven");
     ProbeHashMap.slot_None] 2.

Definition probe_map_full : ProbeHashMap.ProbeHashMap Z string :=
  ProbeHashMap.mkMap
    [ProbeHashMap.slot_Item (ProbeHashMap.mkItem 3%Z "three");
     ProbeHashMap._AVAIL;
     ProbeHashMap.slot_Item (ProbeHashMap.mkItem 5%Z "five")] 2.



Definition tree_three_levels : bintree :=
  Nd (Nd (Nd Leaf 3 Leaf) 1 Leaf) 0 (Nd Leaf 2 (Nd Leaf 4 Leaf)).

Definition queue_12 : ArrayQueue.ArrayQueue nat :=
  Eval vm_compute in
    fst ((ArrayQueue.enqueue 1 ;; ArrayQueue.enqueue 2) ArrayQueue.__init__).

(** * Properties *)

(** ** The monads *)

Lemma bind_Ok {S A B} (m : M S A) (k : A -> M S B) s s' a :
  m s = (s', Ok a) -> (m ≫= k) s = k a s'.
Proof. intros H. unfold mbind, M_bind, bind. by rewrite H. Qed.

Lemma bind_Raise {S A B} (m : M S A) (k : A -> M S B) s s' e :
  m s = (s', Raise e) -> (m ≫= k) s = (s', Raise e).
Proof. intros H. unfold mbind, M_bind, bind. by rewrite H. Qed.

Lemma bind_assoc {S A B C} (m : M S A) (f : A -> M S B) (g : B -> M S C) s :
  ((m ≫= f) ≫= g) s = (m ≫= fun x => f x ≫= g) s.
Proof.
  unfold mbind, M_bind, bind. destruct (m s) as [s' [a|e]]; reflexivity.
Qed.

Lemma gbind_call_Ok {S Y A B} (m : M S A) (k : A -> Gen S Y B) s s' a :
  m s = (s', Ok a) -> (call m ≫= k) s = k a s'.
Proof.
  intros H. unfold mbind, Gen_bind, gbind, call. rewrite H.
  destruct (k a s') as [[[? ?] ?]|]; reflexivity.
Qed.


Lemma gbind_Ok {S Y A B} (m : Gen S Y A) (k : A -> Gen S Y B) s s' ys a :
  m s = Some (s', ys, Ok a) ->
  (m ≫= k) s = match k a s' with
               | None => None
               | Some (s'', ys', r) => Some (s'', ys ++ ys', r)
               end.
Proof. intros H. unfold mbind, Gen_bind, gbind. by rewrite H. Qed.

Section LinkedBinaryTreeFacts.
Import LinkedBinaryTree.
Context {E : Type}.
Implicit Types (s : Store E) (self : tid) (p : option Position) (node : loc).

#[local] Arguments _validate : simpl never.
#[local] Arguments num_children : simpl never.
#[local] Arguments parent : simpl never.
#[local] Arguments left : simpl never.
#[local] Arguments right : simpl never.
#[local] Arguments root : simpl never.
#[local] Arguments __len__ : simpl never.

(** *** Reads and writes of the store *)

Lemma getnode_Ok {A} (f : _Node E -> A) n s nd :
  nodes s !! n = Some nd -> getnode f n s = (s, Ok (f nd)).
Proof. intros H. unfold getnode. by rewrite H. Qed.

Lemma getnode_eq {A} (f : _Node E -> A) n s nd v :
  nodes s !! n = Some nd -> f nd = v -> getnode f n s = (s, Ok v).
Proof. intros H <-. by apply getnode_Ok. Qed.

Lemma gettree_Ok {A} (f : Tree -> A) t s tr :
  trees s !! t = Some tr -> gettree f t s = (s, Ok (f tr)).
Proof. intros H. unfold gettree. by rewrite H. Qed.

Lemma gettree_eq {A} (f : Tree -> A) t s tr v :
  trees s !! t = Some tr -> f tr = v -> gettree f t s = (s, Ok v).
Proof. intros H <-. by apply gettree_Ok. Qed.

Lemma setnode_Ok f n s nd :
  nodes s !! n = Some nd ->
  setnode f n s = (mkStore (<[n := f nd]> (nodes s)) (trees s), Ok tt).
Proof. intros H. unfold setnode. by rewrite H. Qed.

Lemma settree_Ok f t s tr :
  trees s !! t = Some tr ->
  settree f t s = (mkStore (nodes s) (<[t := f tr]> (trees s)), Ok tt).
Proof. intros H. unfold settree. by rewrite H. Qed.

(** *** Validation *)

(** Validation reads the store and never writes it. *)
Lemma _validate_pure self p s s' r :
  _validate self p s = (s', r) -> s' = s.
Proof.
  unfold _validate. destruct p as [q|]; [|by inversion 1].
  destruct (decide (_container q = self)); [|by inversion 1].
  unfold mbind, M_bind, bind, getnode.
  destruct (nodes s !! _node q); [|by inversion 1].
  destruct (decide _); by inversion 1.
Qed.

(** What a successful validation says. *)
Lemma _validate_Ok self p s node :
  _validate self p s = (s, Ok node) <->
  p = Some (mkPosition self node) /\
  exists nd, nodes s !! node = Some nd /\ _parent nd <> Some node.
Proof.
  unfold _validate. split.
  - destruct p as [[c n]|]; [|by inversion 1]. simpl.
    destruct (decide (c = self)) as [->|]; [|by inversion 1].
    unfold mbind, M_bind, bind, getnode.
    destruct (nodes s !! n) as [nd|] eqn:Hn; [|by inversion 1].
    destruct (decide _); inversion 1; subst. eauto.
  - intros [-> (nd & Hn & Hp)]. simpl.
    rewrite decide_True by done.
    rewrite (bind_Ok _ _ _ _ _ (getnode_Ok _ _ _ _ Hn)).
    by rewrite decide_False.
Qed.

(** The three ways validation fails. *)
Lemma _validate_None self s :
  _validate self None s = (s, Raise (TypeError "p must be of proper Position type")).
Proof. reflexivity. Qed.

Lemma _validate_foreign self c n s :
  c <> self ->
  _validate self (Some (mkPosition c n)) s
  = (s, Raise (ValueError "p does not belong to this container")).
Proof. intros H. unfold _validate. simpl. by rewrite decide_False. Qed.

Lemma _validate_deprecated self n s nd :
  nodes s !! n = Some nd -> _parent nd = Some n ->
  _validate self (Some (mkPosition self n)) s
  = (s, Raise (ValueError "p is no longer valid")).
Proof.
  intros Hn Hp. unfold _validate. simpl. rewrite decide_True by done.
  rewrite (bind_Ok _ _ _ _ _ (getnode_Ok _ _ _ _ Hn)).
  by rewrite decide_True.
Qed.

(** The accessors on a valid position. *)
Lemma parent_Ok self p s node nd :
  _validate self p s = (s, Ok node) -> nodes s !! node = Some nd ->
  parent self p s = (s, Ok (_make_position self (_parent nd))).
Proof.
  intros Hv Hn. unfold parent.
  by rewrite (bind_Ok _ _ _ _ _ Hv), (bind_Ok _ _ _ _ _ (getnode_Ok _ _ _ _ Hn)).
Qed.

Lemma left_Ok self p s node nd :
  _validate self p s = (s, Ok node) -> nodes s !! node = Some nd ->
  left self p s = (s, Ok (_make_position self (_left nd))).
Proof.
  intros Hv Hn. unfold left.
  by rewrite (bind_Ok _ _ _ _ _ Hv), (bind_Ok _ _ _ _ _ (getnode_Ok _ _ _ _ Hn)).
Qed.

Lemma right_Ok self p s node nd :
  _validate self p s = (s, Ok node) -> nodes s !! node = Some nd ->
  right self p s = (s, Ok (_make_position self (_right nd))).
Proof.
  intros Hv Hn. unfold right.
  by rewrite (bind_Ok _ _ _ _ _ Hv), (bind_Ok _ _ _ _ _ (getnode_Ok _ _ _ _ Hn)).
Qed.

Lemma root_Ok self s tr :
  trees s !! self = Some tr ->
  root self s = (s, Ok (_make_position self (_root tr))).
Proof.
  intros Ht. unfold root.
  by rewrite (bind_Ok _ _ _ _ _ (gettree_Ok _ _ _ _ Ht)).
Qed.

(** [len] on a count that is not negative, and on one that is. *)
Lemma len_Ok self s tr :
  trees s !! self = Some tr -> (0 <= _size tr)%Z ->
  len self s = (s, Ok (_size tr)).
Proof.
  intros Ht Hsz. unfold len, __len__.
  rewrite (bind_Ok _ _ _ _ _ (gettree_Ok _ _ _ _ Ht)).
  by rewrite (proj2 (Z.ltb_ge _ _) Hsz).
Qed.

Lemma len_negative self s tr :
  trees s !! self = Some tr -> (_size tr < 0)%Z ->
  len self s = (s, Raise (ValueError "__len__() should return >= 0")).
Proof.
  intros Ht Hsz. unfold len, __len__.
  rewrite (bind_Ok _ _ _ _ _ (gettree_Ok _ _ _ _ Ht)).
  by rewrite (proj2 (Z.ltb_lt _ _) Hsz).
Qed.

Lemma len_pure self s s' r : len self s = (s', r) -> s' = s.
Proof.
  unfold len, __len__, gettree, mbind, M_bind, bind.
  destruct (trees s !! self) as [tr|]; [|by inversion 1].
  destruct (_size tr <? 0)%Z; by inversion 1.
Qed.

Lemma is_empty_Ok self s tr :
  trees s !! self = Some tr -> (0 <= _size tr)%Z ->
  is_empty self s = (s, Ok (_size tr =? 0)%Z).
Proof.
  intros Ht Hsz. unfold is_empty.
  by rewrite (bind_Ok _ _ _ _ _ (len_Ok _ _ _ Ht Hsz)).
Qed.

Lemma is_empty_eq self s tr b :
  trees s !! self = Some tr -> (0 <= _size tr)%Z -> (_size tr =? 0)%Z = b ->
  is_empty self s = (s, Ok b).
Proof. intros Ht Hsz <-. by apply is_empty_Ok. Qed.


Lemma _make_position_inj self a b :
  _make_position self a = _make_position self b -> a = b.
Proof. destruct a, b; simpl; congruence. Qed.

(** [num_children] counts the occupied child slots of a valid position. *)
Lemma num_children_Ok self p s node nd :
  _validate self p s = (s, Ok node) -> nodes s !! node = Some nd ->
  num_children self p s
  = (s, Ok ((if is_not_None (_left nd) then 1 else 0)
            + (if is_not_None (_right nd) then 1 else 0))%Z).
Proof.
  intros Hv Hn. unfold num_children.
  rewrite (bind_Ok _ _ _ _ _ Hv).
  rewrite (bind_Ok _ _ _ _ _ (getnode_Ok _ _ _ _ Hn)).
  rewrite (bind_Ok _ _ _ _ _ (getnode_Ok _ _ _ _ Hn)).
  by destruct (_left nd), (_right nd).
Qed.

(** ** C5: deleting a node with two children *)

(** C5. For a valid position [p] with two children, [delete(p)] raises the
    [ValueError] of the two-children case and the store (every node, every
    tree object, hence count, root, links and elements) is the one before the
    call. *)
Theorem delete_two_children_fails self p s node :
  _validate self p s = (s, Ok node) ->
  num_children self p s = (s, Ok 2%Z) ->
  delete self p s
  = (s, Raise (ValueError "p has 2 children and cannot be deleted.")).
Proof.
  intros Hv Hc. unfold delete.
  rewrite (bind_Ok _ _ _ _ _ Hv), (bind_Ok _ _ _ _ _ Hc). reflexivity.
Qed.

(** *** Symbolic execution *)

Lemma lookup_snoc_old {A} (l : list A) (x : A) i y :
  l !! i = Some y -> (l ++ [x]) !! i = Some y.
Proof. intros H. rewrite lookup_app_l; [done | by eapply lookup_lt_Some]. Qed.

Lemma lookup_snoc_new {A} (l : list A) (x : A) :
  (l ++ [x]) !! length l = Some x.
Proof. by rewrite lookup_app_r, Nat.sub_diag by lia. Qed.

Lemma lookup_insert_hit {A} (l : list A) i x y :
  l !! i = Some y -> <[i := x]> l !! i = Some x.
Proof. intros H. apply list_lookup_insert_eq. by eapply lookup_lt_Some. Qed.

(** Solve a lookup in a store that a few writes made from a known one. *)
Ltac lookup_tac :=
  simpl;
  repeat first
    [ eassumption
    | apply lookup_snoc_new
    | eapply lookup_insert_hit
    | rewrite list_lookup_insert_ne by (first [done | congruence | lia])
    | apply lookup_snoc_old ].

(** Run the next statement of a method whose reads and writes all succeed. *)
Ltac mstep :=
  lazymatch goal with
  | |- context [ ((?m ≫= ?f) ≫= ?g) ?s ] => rewrite (bind_assoc m f g s)
  | |- context [ (getnode ?f ?n ≫= ?k) ?s ] =>
      erewrite (bind_Ok (getnode f n) k s);
      [| apply getnode_Ok; lookup_tac ]
  | |- context [ (setnode ?f ?n ≫= ?k) ?s ] =>
      erewrite (bind_Ok (setnode f n) k s);
      [| apply setnode_Ok; lookup_tac ]
  | |- context [ (gettree ?f ?n ≫= ?k) ?s ] =>
      erewrite (bind_Ok (gettree f n) k s);
      [| apply gettree_Ok; lookup_tac ]
  | |- context [ (settree ?f ?n ≫= ?k) ?s ] =>
      erewrite (bind_Ok (settree f n) k s);
      [| apply settree_Ok; lookup_tac ]
  | |- context [ (new_node ?e ?v ≫= ?k) ?s ] =>
      rewrite (bind_Ok (new_node e v) k s _ _ eq_refl)
  | |- context [ (mret ?a ≫= ?k) ?s ] =>
      rewrite (bind_Ok (mret a) k s _ _ eq_refl)
  | |- context [ (ret ?a ≫= ?k) ?s ] =>
      rewrite (bind_Ok (ret a) k s _ _ eq_refl)
  end; simpl.

(** ** C1: delete *)

(** The store [delete] leaves, link by link. *)
Lemma delete_run self s node nd tr :
  _validate self (Some (mkPosition self node)) s = (s, Ok node) ->
  trees s !! self = Some tr -> nodes s !! node = Some nd ->
  (forall ch, _left nd = Some ch \/ _right nd = Some ch ->
     _parent nd <> Some ch /\
     exists cn, nodes s !! ch = Some cn /\ _parent cn = Some node) ->
  (_root tr = Some node /\ _parent nd = None \/
   _root tr <> Some node /\
   exists par pn, _parent nd = Some par /\ nodes s !! par = Some pn /\
     (_left pn = Some node \/ _right pn = Some node)) ->
  _left nd = None \/ _right nd = None ->
  let child := if truthy (_left nd) then _left nd else _right nd in
  exists s1 tr1,
    delete self (Some (mkPosition self node)) s = (s1, Ok (_element nd)) /\
    trees s1 !! self = Some tr1 /\
    _size tr1 = (_size tr - 1)%Z /\
    _root tr1 = (if decide (Some node = _root tr) then child else _root tr) /\
    nodes s1 !! node = Some (with_parent (Some node) nd) /\
    (forall ch, child = Some ch ->
       exists cn, nodes s1 !! ch = Some cn /\ _parent cn = _parent nd) /\
    (forall par pn, _root tr <> Some node -> _parent nd = Some par ->
       nodes s !! par = Some pn ->
       exists pn1, nodes s1 !! par = Some pn1 /\ _parent pn1 = _parent pn /\
         if decide (Some node = _left pn) then _left pn1 = child
         else _right pn1 = child).
Proof.
  intros Hv Ht Hn Hch Hup Hone child.
  pose proof Hv as Hv'.
  apply _validate_Ok in Hv' as [_ (nd' & Hn' & Hp)].
  assert (nd' = nd) as -> by congruence. clear Hn'.
  assert (Hnc : exists c, num_children self (Some (mkPosition self node)) s = (s, Ok c)
                          /\ (c =? 2)%Z = false).
  { eexists. split; [by apply (num_children_Ok _ _ _ node nd)|].
    destruct Hone as [H|H]; destruct (_left nd), (_right nd); done. }
  destruct Hnc as (c & Hnc & Hc2).
  destruct nd as [e0 up l r]. simpl in *.
  assert (Hchild : forall ch, child = Some ch ->
            ch <> node /\ up <> Some ch /\
            exists cn, nodes s !! ch = Some cn /\ _parent cn = Some node).
  { intros ch Hc. destruct (Hch ch) as (Hne & cn & Hcn & Hcp).
    { subst child. destruct l; simpl in Hc; auto. }
    repeat split; eauto.
    intros ->. rewrite Hn in Hcn. injection Hcn as <-. simpl in Hcp. congruence. }
  assert (Hl : (exists x, l = Some x /\ l = child) \/ l = None /\ r = child).
  { subst child. destruct l; simpl; eauto. }
  clearbody child. clear Hch Hone.
  unfold delete.
  rewrite (bind_Ok _ _ _ _ _ Hv), (bind_Ok _ _ _ _ _ Hnc), Hc2.
  mstep.
  assert (Hget : (if truthy l then getnode _left node else getnode _right node) s
                 = (s, Ok child)).
  { destruct Hl as [(x & -> & <-)|[-> <-]].
    - simpl; by apply (getnode_eq _ _ _ _ _ Hn).
    - simpl. by apply (getnode_eq _ _ _ _ _ Hn). }
  rewrite (bind_Ok _ _ _ _ _ Hget). clear Hget.
  destruct Hup as [[Hroot ->]|(Hnroot & par & pn & -> & Hpn & Hslot)].
  - rewrite Hroot, decide_True by done.
    destruct child as [ch|]; simpl.
    + destruct (Hchild ch eq_refl) as (Hne1 & Hne2 & cn & Hcn & Hcp).
      eexists _, _. split.
      { repeat mstep. rewrite decide_True by done. repeat mstep.
        eapply getnode_eq; [lookup_tac | reflexivity]. }
      split; [lookup_tac|]. do 3 (split; [simpl; reflexivity || lookup_tac|]).
      split; [|simpl; congruence].
      intros ? [= <-]. eexists. split; [lookup_tac|reflexivity].
    + eexists _, _. split.
      { repeat mstep. rewrite decide_True by done. repeat mstep.
        eapply getnode_eq; [lookup_tac | reflexivity]. }
      split; [lookup_tac|]. do 3 (split; [simpl; reflexivity || lookup_tac|]).
      split; [|simpl; congruence]. intros ? [=].
  - rewrite decide_False by congruence.
    assert (par <> node) by (simpl in Hp; congruence).
    assert (Hfin : forall par0 pn0, Some par = Some par0 -> nodes s !! par0 = Some pn0 ->
               par0 = par /\ pn0 = pn) by (intros ? ? [= <-] ?; split; congruence).
    destruct child as [ch|]; simpl.
    + destruct (Hchild ch eq_refl) as (Hne1 & Hne2 & cn & Hcn & Hcp).
      assert (par <> ch) by congruence.
      destruct (decide (Some node = _left pn)) as [Hpl|Hpl].
      * eexists _, _. split.
        { repeat mstep. rewrite decide_False by congruence. repeat mstep.
          rewrite decide_True by done. repeat mstep.
          eapply getnode_eq; [lookup_tac | reflexivity]. }
        split; [lookup_tac|]. do 3 (split; [simpl; reflexivity || lookup_tac|]).
        split.
        { intros ? [= <-]. eexists. split; [lookup_tac|reflexivity]. }
        intros par0 pn0 _ Hx Hy. destruct (Hfin _ _ Hx Hy) as [-> ->].
        eexists. split; [lookup_tac|]. by rewrite decide_True.
      * eexists _, _. split.
        { repeat mstep. rewrite decide_False by congruence. repeat mstep.
          rewrite decide_False by done. repeat mstep.
          eapply getnode_eq; [lookup_tac | reflexivity]. }
        split; [lookup_tac|]. do 3 (split; [simpl; reflexivity || lookup_tac|]).
        split.
        { intros ? [= <-]. eexists. split; [lookup_tac|reflexivity]. }
        intros par0 pn0 _ Hx Hy. destruct (Hfin _ _ Hx Hy) as [-> ->].
        eexists. split; [lookup_tac|]. by rewrite decide_False.
    + destruct (decide (Some node = _left pn)) as [Hpl|Hpl].
      * eexists _, _. split.
        { repeat mstep. rewrite decide_False by congruence. repeat mstep.
          rewrite decide_True by done. repeat mstep.
          eapply getnode_eq; [lookup_tac | reflexivity]. }
        split; [lookup_tac|]. do 3 (split; [simpl; reflexivity || lookup_tac|]).
        split; [intros ? [=]|].
        intros par0 pn0 _ Hx Hy. destruct (Hfin _ _ Hx Hy) as [-> ->].
        eexists. split; [lookup_tac|]. by rewrite decide_True.
      * eexists _, _. split.
        { repeat mstep. rewrite decide_False by congruence. repeat mstep.
          rewrite decide_False by done. repeat mstep.
          eapply getnode_eq; [lookup_tac | reflexivity]. }
        split; [lookup_tac|]. do 3 (split; [simpl; reflexivity || lookup_tac|]).
        split; [intros ? [=]|].
        intros par0 pn0 _ Hx Hy. destruct (Hfin _ _ Hx Hy) as [-> ->].
        eexists. split; [lookup_tac|]. by rewrite decide_False.
Qed.


(** C1. Let [p] be a valid position of a tree with count [n], whose node the
    tree still links to, storing [e0], with parent [pp] and with at most one
    child.  Then [delete(p)] returns [e0]; the count becomes [n - 1]; the
    child of [p], if any, has [pp] as its parent afterwards; if [p] was the
    root, the child (or none) is the root afterwards and [pp] is none;
    otherwise the slot of the parent that held [p] (the left one when both
    did) holds the child; and [p]
    fails validation afterwards, on its own tree because its node is
    deprecated and on any other tree too. *)
Theorem delete_at_most_one_child self p s node e0 n pp cl cr :
  _validate self p s = (s, Ok node) ->
  attached s self node ->
  element (mkPosition self node) s = (s, Ok e0) ->
  __len__ self s = (s, Ok n) ->
  parent self p s = (s, Ok pp) ->
  left self p s = (s, Ok cl) ->
  right self p s = (s, Ok cr) ->
  cl = None \/ cr = None ->
  exists s1,
    delete self p s = (s1, Ok e0) /\
    __len__ self s1 = (s1, Ok (n - 1)%Z) /\
    (forall q, cl = Some q \/ cr = Some q ->
       parent self (Some q) s1 = (s1, Ok pp)) /\
    (root self s = (s, Ok p) ->
       pp = None /\
       root self s1 = (s1, Ok (if truthy cl then cl else cr))) /\
    (root self s <> (s, Ok p) ->
       (left self pp s = (s, Ok p) ->
          left self pp s1 = (s1, Ok (if truthy cl then cl else cr))) /\
       (left self pp s <> (s, Ok p) -> right self pp s = (s, Ok p) ->
          right self pp s1 = (s1, Ok (if truthy cl then cl else cr)))) /\
    _validate self p s1 = (s1, Raise (ValueError "p is no longer valid")) /\
    (forall t, exists msg, _validate t p s1 = (s1, Raise (ValueError msg))).
Proof.
  intros Hv (tr & nd & Ht & Hn & Hch & Hup) He Hlen Hpar Hl Hr Hone.
  pose proof Hv as Hv'.
  apply _validate_Ok in Hv' as [-> (nd' & Hn' & Hp)].
  assert (nd' = nd) as -> by congruence. clear Hn'.
  unfold element in He. simpl in He. rewrite (getnode_Ok _ _ _ _ Hn) in He.
  unfold __len__ in Hlen. rewrite (gettree_Ok _ _ _ _ Ht) in Hlen.
  rewrite (parent_Ok _ _ _ _ _ Hv Hn) in Hpar.
  rewrite (left_Ok _ _ _ _ _ Hv Hn) in Hl.
  rewrite (right_Ok _ _ _ _ _ Hv Hn) in Hr.
  injection He as <-. injection Hlen as <-.
  injection Hpar as <-. injection Hl as <-. injection Hr as <-.
  assert (Hone' : _left nd = None \/ _right nd = None).
  { destruct Hone as [H|H]; [left|right]; by apply (_make_position_inj self _ None). }
  destruct (delete_run _ _ _ _ _ Hv Ht Hn Hch Hup Hone')
    as (s1 & tr1 & Hrun & Ht1 & Hsz & Hrt & Hn1 & Hc1 & Hp1).
  set (child := if truthy (_left nd) then _left nd else _right nd) in *.
  assert (Hchild : (if truthy (_make_position self (_left nd))
                    then _make_position self (_left nd)
                    else _make_position self (_right nd))
                   = _make_position self child).
  { subst child. by destruct (_left nd). }
  rewrite Hchild. rewrite (root_Ok _ _ _ Ht).
  assert (Hdep : _validate self (Some (mkPosition self node)) s1
                 = (s1, Raise (ValueError "p is no longer valid"))).
  { by eapply _validate_deprecated. }
  exists s1. split; [done|]. split.
  { unfold __len__. by eapply gettree_eq. }
  split.
  { intros [c ch] Hq.
    assert (c = self /\ child = Some ch /\ (_left nd = Some ch \/ _right nd = Some ch))
      as (-> & Hcc & Hlr).
    { subst child. destruct Hone' as [H0|H0]; rewrite H0 in *; simpl in *;
        destruct Hq as [Hq|Hq]; try discriminate;
        [destruct (_right nd)|destruct (_left nd)]; simpl in *;
        try discriminate; injection Hq as <- <-; auto. }
    destruct (Hc1 _ Hcc) as (cn & Hcn & Hcp).
    destruct (Hch _ Hlr) as [Hne _].
    erewrite parent_Ok; [by rewrite Hcp| |exact Hcn].
    apply _validate_Ok. split; [done|]. exists cn. split; [done|]. by rewrite Hcp. }
  split.
  { intros [= Heq%(_make_position_inj self _ (Some node))].
    destruct Hup as [[_ Hnone]|[Hne _]]; [|done].
    rewrite Hnone. split; [done|].
    rewrite (root_Ok _ _ _ Ht1), Hrt, decide_True; done. }
  split; [|split; [done|]].
  { intros Hnr.
    destruct Hup as [[Hrt0 _]|(Hne & par & pn & Hpar & Hpn & Hslot)].
    { by rewrite Hrt0 in Hnr. }
    destruct (Hp1 _ _ Hne Hpar Hpn) as (pn1 & Hpn1 & Hpp1 & Hs1).
    rewrite Hpar. simpl.
    assert (Hvp : forall r, left self (Some (mkPosition self par)) s = (s, Ok r) \/
                            right self (Some (mkPosition self par)) s = (s, Ok r) ->
              _validate self (Some (mkPosition self par)) s1 = (s1, Ok par)).
    { intros r0 Hr0. apply _validate_Ok. split; [done|]. exists pn1. split; [done|].
      rewrite Hpp1. intros Hbad.
      pose proof (_validate_deprecated self par s pn Hpn Hbad) as Hd.
      unfold left, right in Hr0.
      rewrite !(bind_Raise _ _ _ _ _ Hd) in Hr0. by destruct Hr0. }
    assert (Hvp0 : forall r, left self (Some (mkPosition self par)) s = (s, Ok r) \/
                            right self (Some (mkPosition self par)) s = (s, Ok r) ->
              _validate self (Some (mkPosition self par)) s = (s, Ok par)).
    { intros r0 Hr0. apply _validate_Ok. split; [done|]. exists pn. split; [done|].
      intros Hbad.
      pose proof (_validate_deprecated self par s pn Hpn Hbad) as Hd.
      unfold left, right in Hr0.
      rewrite !(bind_Raise _ _ _ _ _ Hd) in Hr0. by destruct Hr0. }
    split.
    - intros Hleft. pose proof (Hvp _ (or_introl Hleft)) as Hv1.
      rewrite (left_Ok _ _ _ _ _ (Hvp0 _ (or_introl Hleft)) Hpn) in Hleft.
      injection Hleft as Hleft%(_make_position_inj self _ (Some node)).
      rewrite decide_True in Hs1 by done.
      by rewrite (left_Ok _ _ _ _ _ Hv1 Hpn1), Hs1.
    - intros Hnl Hright. pose proof (Hvp _ (or_intror Hright)) as Hv1.
      rewrite (left_Ok _ _ _ _ _ (Hvp0 _ (or_intror Hright)) Hpn) in Hnl.
      rewrite decide_False in Hs1 by (intros Heq; by rewrite <- Heq in Hnl).
      by rewrite (right_Ok _ _ _ _ _ Hv1 Hpn1), Hs1. }
  intros t. destruct (decide (t = self)) as [->|Hne]; [eauto|].
  eexists. by apply _validate_foreign.
Qed.

(** ** C4: attach *)

Lemma setnode_alter f n s :
  setnode f n s
  = if decide (n < length (nodes s))
    then (mkStore (alter f n (nodes s)) (trees s), Ok tt)
    else (s, Raise BadReference).
Proof.
  unfold setnode. case_decide as Hlt.
  - destruct (lookup_lt_is_Some_2 _ _ Hlt) as [nd Hn]. rewrite Hn.
    do 2 f_equal. apply list_eq. intros j.
    rewrite list_lookup_alter. case_decide as Hj.
    + subst j. rewrite Hn. by apply list_lookup_insert_eq.
    + by apply list_lookup_insert_ne.
  - by rewrite lookup_ge_None_2 by lia.
Qed.

(** A write to one attribute leaves the others. *)
Lemma fld_alter_frame {A} (f : _Node E -> A) g i (l : list (_Node E)) j :
  (forall x, f (g x) = f x) -> f <$> alter g i l !! j = f <$> l !! j.
Proof.
  intros Hfg. rewrite list_lookup_alter. case_decide; [subst j|done].
  destruct (l !! i); simpl; by rewrite ?Hfg.
Qed.

Lemma fld_alter_set {A} (f : _Node E -> A) g i (l : list (_Node E)) v :
  (forall x, f (g x) = v) -> i < length l -> f <$> alter g i l !! i = Some v.
Proof.
  intros Hfg Hlt. rewrite list_lookup_alter_eq.
  destruct (lookup_lt_is_Some_2 _ _ Hlt) as [nd ->]. simpl. by rewrite Hfg.
Qed.

Lemma fld_alter_keep {A} (f : _Node E -> A) g i (l : list (_Node E)) j v :
  (forall x, f (g x) = v) -> f <$> l !! j = Some v ->
  f <$> alter g i l !! j = Some v.
Proof.
  intros Hfg Hj. rewrite list_lookup_alter. case_decide; [subst j|done].
  destruct (l !! i); simpl in *; [by rewrite Hfg|done].
Qed.

Lemma parent_alter_or v i (l : list (_Node E)) j X :
  _parent <$> l !! j = X \/ _parent <$> l !! j = Some v ->
  _parent <$> alter (with_parent v) i l !! j = X \/
  _parent <$> alter (with_parent v) i l !! j = Some v.
Proof.
  rewrite list_lookup_alter. case_decide; [subst j|done].
  destruct (l !! i); simpl; [by right|done].
Qed.

Lemma num_children_pure self p s s' r :
  num_children self p s = (s', r) -> s' = s.
Proof.
  unfold num_children. unfold mbind, M_bind, bind.
  destruct (_validate self p s) as [s0 [node|e]] eqn:Hv;
    apply _validate_pure in Hv as ->; [|by inversion 1].
  unfold getnode. destruct (nodes s !! node) eqn:Hn; simpl; rewrite ?Hn; by inversion 1.
Qed.

Lemma is_leaf_pure self p s s' r :
  is_leaf self p s = (s', r) -> s' = s.
Proof.
  unfold is_leaf, mbind, M_bind, bind.
  destruct (num_children self p s) as [s0 [c|e]] eqn:Hc;
    apply num_children_pure in Hc as ->; by inversion 1.
Qed.

(** The outcome of the two guards of [_attach]. *)
Lemma attach_guards self p t1 t2 s s1 tr tr1 tr2 :
  trees s !! self = Some tr -> trees s !! t1 = Some tr1 ->
  trees s !! t2 = Some tr2 ->
  _attach self p t1 t2 s = (s1, Ok tt) ->
  exists node,
    _validate self p s = (s, Ok node) /\
    is_leaf self p s = (s, Ok true) /\
    type_ tr = type_ tr1 /\ type_ tr1 = type_ tr2.
Proof.
  intros Ht Ht1 Ht2. unfold _attach.
  destruct (_validate self p s) as [s0 [node|e]] eqn:Hv;
    pose proof (_validate_pure _ _ _ _ _ Hv) as ->;
    [rewrite (bind_Ok _ _ _ _ _ Hv)|by rewrite (bind_Raise _ _ _ _ _ Hv)].
  destruct (is_leaf self (p) s) as [s0 [b|e]] eqn:Hl;
    pose proof (is_leaf_pure _ _ _ _ _ Hl) as ->;
    [rewrite (bind_Ok _ _ _ _ _ Hl)|by rewrite (bind_Raise _ _ _ _ _ Hl)].
  destruct b; simpl; [|by inversion 1].
  rewrite (bind_Ok _ _ _ _ _ (gettree_Ok _ _ _ _ Ht)).
  rewrite (bind_Ok _ _ _ _ _ (gettree_Ok _ _ _ _ Ht1)).
  rewrite (bind_Ok _ _ _ _ _ (gettree_Ok _ _ _ _ Ht2)).
  destruct (bool_decide (type_ tr = type_ tr1)) eqn:E1; [|by inversion 1].
  destruct (bool_decide (type_ tr1 = type_ tr2)) eqn:E2; [|by inversion 1].
  apply bool_decide_eq_true in E1, E2. eauto 10.
Qed.

Lemma bind_setnode {B} f n (k : unit -> M (Store E) B) s :
  (setnode f n ≫= k) s
  = if decide (n < length (nodes s))
    then k tt (mkStore (alter f n (nodes s)) (trees s))
    else (s, Raise BadReference).
Proof.
  unfold mbind, M_bind, bind. rewrite setnode_alter. by case_decide.
Qed.

Lemma fmap_lookup_eq {A B} (f : A -> B) (l : list A) i x v :
  l !! i = Some x -> f x = v -> f <$> l !! i = Some v.
Proof. intros -> <-. reflexivity. Qed.

(** An attribute of a node after a few writes. *)
Ltac fld_tac :=
  repeat first
    [ rewrite fld_alter_frame by done
    | apply fld_alter_set; [done | rewrite ?length_alter; assumption]
    | apply fld_alter_keep; [done|] ].

(** The claims about the store [_attach] leaves, once it is known. *)
Ltac attach_post E1 E2 :=
  let Hz1 := fresh "Hz1" in
  let Hz2 := fresh "Hz2" in
  pose proof E1 as Hz1; pose proof E2 as Hz2;
  first [apply Z.eqb_eq in Hz1|apply Z.eqb_neq in Hz1];
  first [apply Z.eqb_eq in Hz2|apply Z.eqb_neq in Hz2];
  simpl in *; rewrite ?length_alter in *;
  (split; [unfold __len__; eapply gettree_eq; [lookup_tac|reflexivity]|]);
  (split; [simpl; eapply fmap_lookup_eq; [lookup_tac|reflexivity]|]);
  (split;
    [eapply is_empty_eq; [lookup_tac | simpl; lia | simpl; by rewrite ?E1]|]);
  (split;
    [eapply is_empty_eq; [lookup_tac | simpl; lia | simpl; by rewrite ?E2]|]);
  repeat split; try done; try (intros; simpl; by fld_tac); try lookup_tac;
  try (eexists; split; [reflexivity|]; simpl; by fld_tac);
  try (intros; simpl;
       repeat first [rewrite fld_alter_frame by done | apply parent_alter_or];
       by left).

(** Run the next statement of a method that is known to return. *)
Ltac hstep H :=
  lazymatch type of H with
  | context [ ((?m ≫= ?f) ≫= ?g) ?s ] => rewrite (bind_assoc m f g s) in H
  | context [ (gettree ?f ?n ≫= ?k) ?s ] =>
      erewrite (bind_Ok (gettree f n) k s) in H;
      [| apply gettree_Ok; lookup_tac ]
  | context [ (settree ?f ?n ≫= ?k) ?s ] =>
      erewrite (bind_Ok (settree f n) k s) in H;
      [| apply settree_Ok; lookup_tac ]
  | context [ (is_empty ?t ≫= ?k) ?s ] =>
      erewrite (bind_Ok (is_empty t) k s) in H;
      [| eapply is_empty_Ok; [lookup_tac | simpl; first [done | lia]] ]
  | context [ (setnode ?f ?n ≫= ?k) ?s ] =>
      rewrite (bind_setnode f n k s) in H;
      destruct (decide (n < length (nodes s))); [|discriminate H]
  | context [ (mret ?a ≫= ?k) ?s ] =>
      rewrite (bind_Ok (mret a) k s _ _ eq_refl) in H
  | context [ (ret ?a ≫= ?k) ?s ] =>
      rewrite (bind_Ok (ret a) k s _ _ eq_refl) in H
  | context [ (raise ?e ≫= ?k) ?s ] =>
      rewrite (bind_Raise (raise e) k s _ _ eq_refl) in H; discriminate H
  end; simpl in H.

(** What [_attach] leaves when it returns. *)
Lemma attach_run self p t1 t2 s s1 tr tr1 tr2 :
  trees s !! self = Some tr -> trees s !! t1 = Some tr1 ->
  trees s !! t2 = Some tr2 ->
  _attach self p t1 t2 s = (s1, Ok tt) ->
  exists node,
    _validate self p s = (s, Ok node) /\
    is_leaf self p s = (s, Ok true) /\
    type_ tr = type_ tr1 /\ type_ tr1 = type_ tr2 /\
    (self <> t1 -> self <> t2 -> t1 <> t2 ->
     __len__ self s1 = (s1, Ok (_size tr1 + _size tr2)%Z) /\
     _root <$> trees s1 !! self = Some (_root tr) /\
     is_empty t1 s1 = (s1, Ok true) /\
     is_empty t2 s1 = (s1, Ok true) /\
     (_size tr1 <> 0%Z ->
        _left <$> nodes s1 !! node = Some (_root tr1) /\
        (exists r1, _root tr1 = Some r1 /\
                    _parent <$> nodes s1 !! r1 = Some (Some node)) /\
        trees s1 !! t1 = Some (mkTree (type_ tr1) None 0)) /\
     (_size tr1 = 0%Z ->
        _left <$> nodes s1 !! node = Some None /\
        trees s1 !! t1 = Some tr1) /\
     (_size tr2 <> 0%Z ->
        _right <$> nodes s1 !! node = Some (_root tr2) /\
        (exists r2, _root tr2 = Some r2 /\
                    _parent <$> nodes s1 !! r2 = Some (Some node)) /\
        trees s1 !! t2 = Some (mkTree (type_ tr2) None 0)) /\
     (_size tr2 = 0%Z ->
        _right <$> nodes s1 !! node = Some None /\
        trees s1 !! t2 = Some tr2) /\
     (forall m, _element <$> nodes s1 !! m = _element <$> nodes s !! m) /\
     (forall m, _parent <$> nodes s1 !! m = _parent <$> nodes s !! m \/
                _parent <$> nodes s1 !! m = Some (Some node))).
Proof.
  intros Ht Ht1 Ht2 H.
  destruct (attach_guards _ _ _ _ _ _ _ _ _ Ht Ht1 Ht2 H)
    as (node & Hv & Hleaf & Hty1 & Hty2).
  exists node. do 4 (split; [done|]). intros Hd1 Hd2 Hd3.
  unfold _attach in H.
  rewrite (bind_Ok _ _ _ _ _ Hv), (bind_Ok _ _ _ _ _ Hleaf) in H. simpl in H.
  do 3 hstep H.
  rewrite !bool_decide_eq_true_2 in H by done. simpl in H.
  assert (Hsz1 : (0 <= _size tr1)%Z).
  { destruct (Z.lt_ge_cases (_size tr1) 0) as [Hneg|]; [|done].
    by rewrite (bind_Raise _ _ _ _ _ (len_negative _ _ _ Ht1 Hneg)) in H. }
  rewrite (bind_Ok _ _ _ _ _ (len_Ok _ _ _ Ht1 Hsz1)) in H.
  assert (Hsz2 : (0 <= _size tr2)%Z).
  { destruct (Z.lt_ge_cases (_size tr2) 0) as [Hneg|]; [|done].
    by rewrite (bind_Raise _ _ _ _ _ (len_negative _ _ _ Ht2 Hneg)) in H. }
  rewrite (bind_Ok _ _ _ _ _ (len_Ok _ _ _ Ht2 Hsz2)) in H.
  do 2 hstep H.
  pose proof Hv as Hv'. apply _validate_Ok in Hv' as [-> (nd & Hn & Hp)].
  assert (Hnone : _left nd = None /\ _right nd = None).
  { unfold is_leaf in Hleaf.
    rewrite (bind_Ok _ _ _ _ _ (num_children_Ok _ _ _ _ _ Hv Hn)) in Hleaf.
    injection Hleaf as Hleaf. destruct (_left nd), (_right nd); done. }
  destruct Hnone as [Hl0 Hr0].
  pose proof (lookup_lt_Some _ _ _ Hn) as Hlt.
  destruct tr1 as [ty1 rt1 sz1], tr2 as [ty2 rt2 sz2]. simpl in *.
  assert (Hl1 : _left <$> nodes s !! node = Some None) by (by rewrite Hn; simpl; f_equal).
  assert (Hr1 : _right <$> nodes s !! node = Some None) by (by rewrite Hn; simpl; f_equal).
  destruct (sz1 =? 0)%Z eqn:E1; destruct (sz2 =? 0)%Z eqn:E2; simpl in H.
  - repeat hstep H. rewrite E2 in H. simpl in H.
    unfold ret in H; injection H as <-. attach_post E1 E2.
  - repeat hstep H. rewrite E2 in H. simpl in H.
    destruct rt2 as [r2|]; repeat hstep H.
    erewrite settree_Ok in H by lookup_tac. simpl in H.
    unfold ret in H; injection H as <-. attach_post E1 E2.
  - destruct rt1 as [r1|]; repeat hstep H. rewrite E2 in H. simpl in H.
    unfold ret in H; injection H as <-. attach_post E1 E2.
  - destruct rt1 as [r1|]; repeat hstep H. rewrite E2 in H. simpl in H.
    destruct rt2 as [r2|]; repeat hstep H.
    erewrite settree_Ok in H by lookup_tac. simpl in H.
    unfold ret in H; injection H as <-. attach_post E1 E2.
Qed.

(** C4 (as amended).  When [_attach(p, t1, t2)] returns, [p] was a valid
    position and a leaf, and the three trees have one type.  If moreover the
    receiving tree, [t1] and [t2] are three different objects: the count of
    the receiving tree is [len(t1) + len(t2)] as they were before the call,
    and its root is unchanged; a [t1] that was not empty had a root, which is
    now the left child of [p] and has the node of [p] as its parent, and
    [t1] has no root and size 0; a [t1] that was empty is as it was and the
    left slot of [p] is empty; the same holds of [t2] and the right slot;
    [is_empty()] is true of both; no element changes. *)
Theorem attach_spec self p t1 t2 s s1 tr tr1 tr2 :
  trees s !! self = Some tr -> trees s !! t1 = Some tr1 ->
  trees s !! t2 = Some tr2 ->
  _attach self p t1 t2 s = (s1, Ok tt) ->
  exists node,
    _validate self p s = (s, Ok node) /\
    is_leaf self p s = (s, Ok true) /\
    type_ tr = type_ tr1 /\ type_ tr1 = type_ tr2 /\
    (self <> t1 -> self <> t2 -> t1 <> t2 ->
     __len__ self s1 = (s1, Ok (_size tr1 + _size tr2)%Z) /\
     _root <$> trees s1 !! self = Some (_root tr) /\
     is_empty t1 s1 = (s1, Ok true) /\
     is_empty t2 s1 = (s1, Ok true) /\
     (_size tr1 <> 0%Z ->
        _left <$> nodes s1 !! node = Some (_root tr1) /\
        (exists r1, _root tr1 = Some r1 /\
                    _parent <$> nodes s1 !! r1 = Some (Some node)) /\
        trees s1 !! t1 = Some (mkTree (type_ tr1) None 0)) /\
     (_size tr1 = 0%Z ->
        _left <$> nodes s1 !! node = Some None /\
        trees s1 !! t1 = Some tr1) /\
     (_size tr2 <> 0%Z ->
        _right <$> nodes s1 !! node = Some (_root tr2) /\
        (exists r2, _root tr2 = Some r2 /\
                    _parent <$> nodes s1 !! r2 = Some (Some node)) /\
        trees s1 !! t2 = Some (mkTree (type_ tr2) None 0)) /\
     (_size tr2 = 0%Z ->
        _right <$> nodes s1 !! node = Some None /\
        trees s1 !! t2 = Some tr2) /\
     (forall m, _element <$> nodes s1 !! m = _element <$> nodes s !! m)).
Proof.
  intros Ht Ht1 Ht2 H.
  destruct (attach_run _ _ _ _ _ _ _ _ _ Ht Ht1 Ht2 H)
    as (node & Hv & Hleaf & Hty1 & Hty2 & Hpost).
  exists node. do 4 (split; [done|]). intros Hd1 Hd2 Hd3.
  destruct (Hpost Hd1 Hd2 Hd3)
    as (H1 & H2 & H3 & H4 & H5 & H6 & H7 & H8 & H9 & _).
  repeat (split; [assumption|]). assumption.
Qed.

(** ** C6: add_left and add_right *)

(** C6. For a valid position [p] of a tree with count [n] and [c] children
    at [p]: when the left slot of [p] is empty, [_add_left(p, e)] returns a
    new position [q], after which [left(p)] is [q], [q.element()] is [e],
    [num_children(p)] is [c + 1] and the count is [n + 1]; when the left slot
    is occupied it raises and the store is the one before the call.
    [_add_right] does the same with the right slot. *)
Theorem add_left_add_right_spec self p s node e n c :
  _validate self p s = (s, Ok node) ->
  __len__ self s = (s, Ok n) ->
  num_children self p s = (s, Ok c) ->
  (left self p s = (s, Ok None) ->
   exists s1 q,
     _add_left self p e s = (s1, Ok (Some q)) /\
     left self p s1 = (s1, Ok (Some q)) /\
     element q s1 = (s1, Ok e) /\
     num_children self p s1 = (s1, Ok (c + 1)%Z) /\
     __len__ self s1 = (s1, Ok (n + 1)%Z)) /\
  (forall q, left self p s = (s, Ok (Some q)) ->
     _add_left self p e s = (s, Raise (ValueError "Left child already exist"))) /\
  (right self p s = (s, Ok None) ->
   exists s1 q,
     _add_right self p e s = (s1, Ok (Some q)) /\
     right self p s1 = (s1, Ok (Some q)) /\
     element q s1 = (s1, Ok e) /\
     num_children self p s1 = (s1, Ok (c + 1)%Z) /\
     __len__ self s1 = (s1, Ok (n + 1)%Z)) /\
  (forall q, right self p s = (s, Ok (Some q)) ->
     _add_right self p e s = (s, Raise (ValueError "Right child already exist"))).
Proof.
  intros Hv Hlen Hc. pose proof Hv as Hv'.
  apply _validate_Ok in Hv' as [-> (nd & Hn & Hp)].
  rewrite (num_children_Ok _ _ _ _ _ Hv Hn) in Hc.
  unfold __len__, gettree in Hlen.
  destruct (trees s !! self) as [tr|] eqn:Ht; [|discriminate].
  injection Hlen as <-. injection Hc as <-.
  pose proof (lookup_lt_Some _ _ _ Hn) as Hlt.
  unfold left, right.
  rewrite !(bind_Ok _ _ _ _ _ Hv), !(bind_Ok _ _ _ _ _ (getnode_Ok _ _ _ _ Hn)).
  repeat split.
  - intros Hl. destruct (_left nd) eqn:El; [discriminate|]. clear Hl.
    eexists _, (mkPosition self (length (nodes s))).
    assert (Hv1 : forall f tr', _validate self (Some (mkPosition self node))
       (mkStore (<[node := with_left f nd]> (nodes s ++ [mkNode e (Some node) None None]))
                (<[self := tr']> (trees s)))
       = (mkStore (<[node := with_left f nd]> (nodes s ++ [mkNode e (Some node) None None]))
                (<[self := tr']> (trees s)), Ok node)).
    { intros. apply _validate_Ok. split; [done|]. eexists. split; [lookup_tac|done]. }
    repeat split.
    + unfold _add_left. rewrite (bind_Ok _ _ _ _ _ Hv). mstep. rewrite El. simpl.
      do 5 mstep. reflexivity.
    + rewrite (bind_Ok _ _ _ _ _ (Hv1 _ _)). mstep. reflexivity.
    + unfold element. simpl. by erewrite getnode_Ok by lookup_tac.
    + erewrite num_children_Ok; [|apply Hv1|lookup_tac]. simpl.
      do 2 f_equal. destruct (_right nd); simpl; lia.
    + unfold __len__. by erewrite gettree_Ok by lookup_tac.
  - intros q Hq. unfold _add_left. rewrite (bind_Ok _ _ _ _ _ Hv). mstep.
    by destruct (_left nd).
  - intros Hr. destruct (_right nd) eqn:Er; [discriminate|]. clear Hr.
    eexists _, (mkPosition self (length (nodes s))).
    assert (Hv1 : forall f tr', _validate self (Some (mkPosition self node))
       (mkStore (<[node := with_right f nd]> (nodes s ++ [mkNode e (Some node) None None]))
                (<[self := tr']> (trees s)))
       = (mkStore (<[node := with_right f nd]> (nodes s ++ [mkNode e (Some node) None None]))
                (<[self := tr']> (trees s)), Ok node)).
    { intros. apply _validate_Ok. split; [done|]. eexists. split; [lookup_tac|done]. }
    repeat split.
    + unfold _add_right. rewrite (bind_Ok _ _ _ _ _ Hv). mstep. rewrite Er. simpl.
      do 5 mstep. reflexivity.
    + rewrite (bind_Ok _ _ _ _ _ (Hv1 _ _)). mstep. reflexivity.
    + unfold element. simpl. by erewrite getnode_Ok by lookup_tac.
    + erewrite num_children_Ok; [|apply Hv1|lookup_tac]. simpl.
      do 2 f_equal. destruct (_left nd); simpl; lia.
    + unfold __len__. by erewrite gettree_Ok by lookup_tac.
  - intros q Hq. unfold _add_right. rewrite (bind_Ok _ _ _ _ _ Hv). mstep.
    by destruct (_right nd).
Qed.

(** ** C7: replace *)

(** C7. For a valid position [p], [replace(p, e2)] returns the element that
    was stored at [p], stores [e2] there, and leaves every link, every other
    node and every tree object (root and size) as they were; replacing again
    with the returned element gives back the store the first call started
    from, and returns [e2]. *)
Theorem replace_round_trip self p s node e2 :
  _validate self p s = (s, Ok node) ->
  exists old s1,
    getnode _element node s = (s, Ok old) /\
    replace self p e2 s = (s1, Ok old) /\
    getnode _element node s1 = (s1, Ok e2) /\
    trees s1 = trees s /\
    links <$> nodes s1 = links <$> nodes s /\
    (forall n, n <> node -> nodes s1 !! n = nodes s !! n) /\
    replace self p old s1 = (s, Ok e2).
Proof.
  intros Hv. pose proof Hv as Hv'.
  apply _validate_Ok in Hv' as [-> (nd & Hn & Hp)].
  pose proof (lookup_lt_Some _ _ _ Hn) as Hlt.
  set (s1 := mkStore (<[node := with_element e2 nd]> (nodes s)) (trees s)).
  assert (Hn1 : nodes s1 !! node = Some (with_element e2 nd))
    by (by apply list_lookup_insert_eq).
  assert (Hv1 : _validate self (Some (mkPosition self node)) s1 = (s1, Ok node)).
  { apply _validate_Ok. split; [done|]. eauto. }
  exists (_element nd), s1. repeat split.
  - by apply getnode_Ok.
  - unfold replace.
    rewrite (bind_Ok _ _ _ _ _ Hv).
    rewrite (bind_Ok _ _ _ _ _ (getnode_Ok _ _ _ _ Hn)).
    by rewrite (bind_Ok _ _ _ _ _ (setnode_Ok _ _ _ _ Hn)).
  - by rewrite (getnode_Ok _ _ _ _ Hn1).
  - simpl. rewrite list_fmap_insert. apply list_insert_id.
    by rewrite list_lookup_fmap, Hn.
  - intros n Hne. simpl. by rewrite list_lookup_insert_ne.
  - unfold replace.
    rewrite (bind_Ok _ _ _ _ _ Hv1).
    rewrite (bind_Ok _ _ _ _ _ (getnode_Ok _ _ _ _ Hn1)).
    rewrite (bind_Ok _ _ _ _ _ (setnode_Ok _ _ _ _ Hn1)).
    simpl. unfold ret. f_equal. destruct s as [ns ts]. simpl in *. f_equal.
    rewrite list_insert_insert_eq. apply list_insert_id.
    by destruct nd.
Qed.

(** ** C2: validation *)

Lemma bind_inv {A B} (m : M (Store E) A) (k : A -> M (Store E) B) s s1 b :
  (m ≫= k) s = (s1, Ok b) ->
  exists s' a, m s = (s', Ok a) /\ k a s' = (s1, Ok b).
Proof.
  unfold mbind, M_bind, bind. destruct (m s) as [s' [a|e]]; [eauto|done].
Qed.

(** A method that starts by validating fails as validation does. *)
Lemma validate_first {A} self p s e (k : loc -> M (Store E) A) :
  _validate self p s = (s, Raise e) -> (_validate self p ≫= k) s = (s, Raise e).
Proof. apply bind_Raise. Qed.

(** A [delete] that returns has marked the node. *)
Lemma delete_deprecates self p s s1 x :
  delete self p s = (s1, Ok x) ->
  exists node nd, p = Some (mkPosition self node) /\
                  nodes s1 !! node = Some nd /\ _parent nd = Some node.
Proof.
  unfold delete. intros H.
  apply bind_inv in H as (s' & node & Hv & H).
  pose proof (_validate_pure _ _ _ _ _ Hv) as ->.
  apply _validate_Ok in Hv as [-> _].
  exists node.
  apply bind_inv in H as (s' & c & _ & H).
  destruct (c =? 2)%Z; [done|].
  do 7 (apply bind_inv in H as (? & ? & _ & H)).
  apply bind_inv in H as (S1 & [] & Hset & H).
  rewrite setnode_alter in Hset. case_decide as Hlt; [|done].
  injection Hset as <-.
  unfold getnode in H. simpl in H.
  destruct (lookup_lt_is_Some_2 _ _ Hlt) as [nd Hnd].
  rewrite list_lookup_alter_eq, Hnd in H. simpl in H. injection H as <- _.
  simpl. rewrite list_lookup_alter_eq, Hnd. simpl. eauto.
Qed.

(** C2 (as amended).  Validation rejects [None] with a [TypeError], a
    Position whose container is another tree with a [ValueError], and a
    Position whose node is deprecated with a [ValueError].  Every method of
    the linked binary tree that takes a Position ([parent], [left], [right],
    [num_children], [_add_left], [_add_right], [replace], [delete],
    [_attach]) validates it first: when validation fails, the method raises
    the same error and the store is the one before the call.  A [delete]
    that returns has deprecated the node, so the deleted Position is
    rejected from then on.  [_attach] deprecates no node but possibly the
    one of [p]: a Position that a tree accepted before the call is accepted
    by that tree after it, also when its node has moved into the receiving
    tree. *)
Theorem validation_spec self p s :
  _validate self None s
    = (s, Raise (TypeError "p must be of proper Position type")) /\
  (forall c n, c <> self ->
     _validate self (Some (mkPosition c n)) s
     = (s, Raise (ValueError "p does not belong to this container"))) /\
  (forall n nd, nodes s !! n = Some nd -> _parent nd = Some n ->
     _validate self (Some (mkPosition self n)) s
     = (s, Raise (ValueError "p is no longer valid"))) /\
  (forall e, _validate self p s = (s, Raise e) ->
     parent self p s = (s, Raise e) /\
     left self p s = (s, Raise e) /\
     right self p s = (s, Raise e) /\
     num_children self p s = (s, Raise e) /\
     (forall x, _add_left self p x s = (s, Raise e)) /\
     (forall x, _add_right self p x s = (s, Raise e)) /\
     (forall x, replace self p x s = (s, Raise e)) /\
     delete self p s = (s, Raise e) /\
     (forall t1 t2, _attach self p t1 t2 s = (s, Raise e))) /\
  (forall s1 x, delete self p s = (s1, Ok x) ->
     _validate self p s1 = (s1, Raise (ValueError "p is no longer valid"))) /\
  (forall t1 t2 s1 node,
     _attach self p t1 t2 s = (s1, Ok tt) ->
     self <> t1 -> self <> t2 -> t1 <> t2 ->
     _validate self p s = (s, Ok node) ->
     forall t q m,
       _validate t q s = (s, Ok m) -> m <> node ->
       _validate t q s1 = (s1, Ok m)).
Proof.
  split; [reflexivity|]. split; [by intros; apply _validate_foreign|].
  split; [by intros; eapply _validate_deprecated|]. split; [|split].
  - intros e Hv.
    repeat split; intros; by apply validate_first.
  - intros s1 x (node & nd & -> & Hn & Hp)%delete_deprecates.
    by eapply _validate_deprecated.
  - intros t1 t2 s1 node H Hd1 Hd2 Hd3 Hv t q m Hq Hm.
    assert (Hex : exists tr tr1 tr2, trees s !! self = Some tr /\
              trees s !! t1 = Some tr1 /\ trees s !! t2 = Some tr2).
    { unfold _attach in H.
      apply bind_inv in H as (s' & node' & Hv' & H).
      pose proof (_validate_pure _ _ _ _ _ Hv') as ->.
      apply bind_inv in H as (s' & b & Hl & H).
      pose proof (is_leaf_pure _ _ _ _ _ Hl) as ->.
      destruct b; [|done]. simpl in H. unfold gettree in H.
      unfold mbind, M_bind, bind in H.
      destruct (trees s !! self) as [tr|]; [|done].
      destruct (trees s !! t1) as [tr1|]; [|done].
      destruct (trees s !! t2) as [tr2|]; [|done]. eauto 10. }
    destruct Hex as (tr & tr1 & tr2 & Ht & Ht1 & Ht2).
    destruct (attach_run _ _ _ _ _ _ _ _ _ Ht Ht1 Ht2 H)
      as (node' & Hv' & _ & _ & _ & Hpost).
    assert (node' = node) as -> by congruence.
    destruct (Hpost Hd1 Hd2 Hd3) as (_ & _ & _ & _ & _ & _ & _ & _ & _ & Hpar).
    apply _validate_Ok in Hq as [-> (nd & Hn & Hp)].
    apply _validate_Ok. split; [done|].
    specialize (Hpar m). rewrite Hn in Hpar. simpl in Hpar.
    destruct (nodes s1 !! m) as [nd1|]; simpl in Hpar; [|by destruct Hpar].
    exists nd1. split; [done|]. destruct Hpar as [[= ->]|[= ->]]; congruence.
Qed.

(** ** C8: inorder *)

Lemma shape_valid s self n l r :
  shape s (Some n) (Nd l n r) ->
  exists nd, nodes s !! n = Some nd /\
    _validate self (pos self n) s = (s, Ok n) /\
    shape s (_left nd) l /\ shape s (_right nd) r.
Proof.
  intros [_ (nd & Hn & Hp & Hl & Hr)]. exists nd. repeat split; try done.
  apply _validate_Ok. eauto.
Qed.

Lemma _subtree_inorder_shape self s t :
  forall n fuel,
    shape s (Some n) t -> depth t <= fuel ->
    _subtree_inorder fuel self (pos self n) s
    = Some (s, pos self <$> inorder_spec t, Ok tt).
Proof.
  induction t as [|l IHl m r IHr]; intros n fuel Hsh Hfuel; [done|].
  pose proof Hsh as [[= <-] _].
  destruct (shape_valid _ self _ _ _ Hsh) as (nd & Hn & Hv & Hl & Hr).
  destruct fuel as [|fuel]; [simpl in Hfuel; lia|].
  simpl in Hfuel. simpl.
  rewrite (gbind_call_Ok _ _ _ _ _ (left_Ok _ _ _ _ _ Hv Hn)).
  assert (HL : (if is_not_None (_make_position self (_left nd))
                then call (left self (pos self n)) ≫= (fun l0 => _subtree_inorder fuel self l0)
                else gret ()) s
               = Some (s, pos self <$> inorder_spec l, Ok tt)).
  { destruct l as [|ll ln lr].
    - simpl in Hl. rewrite Hl. reflexivity.
    - pose proof Hl as [Hl' _]. rewrite Hl'. simpl.
      rewrite (gbind_call_Ok _ _ _ _ _ (left_Ok _ _ _ _ _ Hv Hn)).
      rewrite Hl'. simpl. apply IHl; [by rewrite <- Hl'|lia]. }
  assert (HR : (if truthy (_make_position self (_right nd))
                then call (right self (pos self n)) ≫= (fun r0 => _subtree_inorder fuel self r0)
                else gret ()) s
               = Some (s, pos self <$> inorder_spec r, Ok tt)).
  { destruct r as [|rl rn rr].
    - simpl in Hr. rewrite Hr. reflexivity.
    - pose proof Hr as [Hr' _]. rewrite Hr'. simpl.
      rewrite (gbind_call_Ok _ _ _ _ _ (right_Ok _ _ _ _ _ Hv Hn)).
      rewrite Hr'. simpl. apply IHr; [by rewrite <- Hr'|lia]. }
  rewrite (gbind_Ok _ _ _ _ _ _ HL).
  erewrite (gbind_Ok (yield _)) by reflexivity.
  rewrite (gbind_call_Ok _ _ _ _ _ (right_Ok _ _ _ _ _ Hv Hn)).
  rewrite HR. rewrite fmap_app. simpl. reflexivity.
Qed.

(** The inorder iteration of a tree whose count is positive and whose root
    reference holds a tree. *)
Lemma inorder_shape self s tr l n r fuel :
  trees s !! self = Some tr -> (0 < _size tr)%Z ->
  shape s (_root tr) (Nd l n r) -> depth (Nd l n r) <= fuel ->
  inorder fuel self s = Some (s, pos self <$> inorder_spec (Nd l n r), Ok tt).
Proof.
  intros Ht Hsz Hsh Hfuel. unfold inorder.
  rewrite (gbind_call_Ok _ _ _ _ _ (is_empty_Ok _ _ _ Ht ltac:(lia))).
  rewrite (proj2 (Z.eqb_neq _ _)) by lia. simpl.
  rewrite (gbind_call_Ok _ _ _ _ _ (root_Ok _ _ _ Ht)).
  pose proof Hsh as [Hr _]. rewrite Hr in *.
  by apply (_subtree_inorder_shape self s (Nd l n r)).
Qed.

(** ** C9: breadth-first *)



Lemma children_shape self s l n r :
  shape s (Some n) (Nd l n r) ->
  children self (pos self n) s = (s, Ok (root_pos self <$> kids (Nd l n r))).
Proof.
  intros Hsh.
  destruct (shape_valid _ self _ _ _ Hsh) as (nd & Hn & Hv & Hl & Hr).
  unfold children.
  rewrite (bind_Ok _ _ _ _ _ (left_Ok _ _ _ _ _ Hv Hn)).
  assert (HL : (if is_not_None (_make_position self (_left nd))
                then left self (pos self n) ≫= (fun c => ret [c])
                else ret []) s = (s, Ok (root_pos self <$> nonleaf l))).
  { destruct l; simpl in Hl.
    - by rewrite Hl.
    - destruct Hl as [Hl _]. rewrite Hl. simpl.
      rewrite (bind_Ok _ _ _ _ _ (left_Ok _ _ _ _ _ Hv Hn)). by rewrite Hl. }
  assert (HR : (if is_not_None (_make_position self (_right nd))
                then right self (pos self n) ≫= (fun c => ret [c])
                else ret []) s = (s, Ok (root_pos self <$> nonleaf r))).
  { destruct r; simpl in Hr.
    - by rewrite Hr.
    - destruct Hr as [Hr _]. rewrite Hr. simpl.
      rewrite (bind_Ok _ _ _ _ _ (right_Ok _ _ _ _ _ Hv Hn)). by rewrite Hr. }
  rewrite (bind_Ok _ _ _ _ _ HL).
  rewrite (bind_Ok _ _ _ _ _ (right_Ok _ _ _ _ _ Hv Hn)).
  rewrite (bind_Ok _ _ _ _ _ HR). simpl. by rewrite fmap_app.
Qed.












(** ** More of [trees/tree.py]: the other traversals, height and depth *)

#[local] Arguments children : simpl never.
#[local] Arguments is_leaf : simpl never.



Lemma Forall_kids (P : bintree -> Prop) l n r :
  (l <> Leaf -> P l) -> (r <> Leaf -> P r) -> Forall P (kids (Nd l n r)).
Proof.
  intros Hl Hr. simpl. apply Forall_app. split.
  - destruct l; simpl; [done|]. repeat constructor. by apply Hl.
  - destruct r; simpl; [done|]. repeat constructor. by apply Hr.
Qed.


Lemma shape_child s n l r :
  shape s (Some n) (Nd l n r) ->
  (forall ll ln lr, l = Nd ll ln lr -> shape s (Some ln) l) /\
  (forall rl rn rr, r = Nd rl rn rr -> shape s (Some rn) r).
Proof.
  intros [_ (nd & Hn & Hp & Hl & Hr)]. split.
  - intros ll ln lr ->. pose proof Hl as [Hl' _]. by rewrite <- Hl'.
  - intros rl rn rr ->. pose proof Hr as [Hr' _]. by rewrite <- Hr'.
Qed.



Lemma gmapM_kids {Y} (f : option Position -> Gen (Store E) Y Z) (g : bintree -> Z) self s ts :
  Forall (fun t => f (root_pos self t) s = Some (s, [], Ok (g t))) ts ->
  gmapM f (root_pos self <$> ts) s = Some (s, [], Ok (g <$> ts)).
Proof.
  induction 1 as [|t ts Ht _ IH]; [done|].
  cbn [fmap list_fmap gmapM].
  rewrite (gbind_Ok _ _ _ _ _ _ Ht).
  change (list_fmap _ _ (root_pos self) ts) with (root_pos self <$> ts).
  by rewrite (gbind_Ok _ _ _ _ _ _ IH).
Qed.

Lemma is_leaf_shape self s l n r :
  shape s (Some n) (Nd l n r) ->
  is_leaf self (pos self n) s
  = (s, Ok (match l, r with Leaf, Leaf => true | _, _ => false end)).
Proof.
  intros Hsh.
  destruct (shape_valid _ self _ _ _ Hsh) as (nd & Hn & Hv & Hl & Hr).
  unfold is_leaf. rewrite (bind_Ok _ _ _ _ _ (num_children_Ok _ _ _ _ _ Hv Hn)).
  destruct l, r; simpl in Hl, Hr;
    repeat match goal with H : _ /\ _ |- _ => destruct H as [H _] end;
    by rewrite Hl, Hr.
Qed.

Lemma _height2_shape self s t :
  forall n fuel,
    shape s (Some n) t -> depth t <= fuel ->
    _height2 fuel self (pos self n) s = Some (s, [], Ok (Z.of_nat (depth t) - 1)%Z).
Proof.
  induction t as [|l IHl m r IHr]; intros n fuel Hsh Hfuel; [done|].
  pose proof Hsh as [[= <-] _].
  destruct (shape_child _ _ _ _ Hsh) as [Hl Hr].
  destruct fuel as [|fuel]; [simpl in Hfuel; lia|].
  simpl in Hfuel. cbn [_height2].
  rewrite (gbind_call_Ok _ _ _ _ _ (is_leaf_shape _ _ _ _ _ Hsh)).
  assert (Hk : gmapM (_height2 fuel self) (root_pos self <$> kids (Nd l n r)) s
               = Some (s, [], Ok ((fun t => Z.of_nat (depth t) - 1)%Z <$> kids (Nd l n r)))).
  { apply gmapM_kids, Forall_kids.
    + destruct l as [|ll ln lr]; [done|]. intros _.
      apply IHl; [by eapply Hl|lia].
    + destruct r as [|rl rn rr]; [done|]. intros _.
      apply IHr; [by eapply Hr|lia]. }
  destruct l as [|ll ln lr], r as [|rl rn rr].
  - reflexivity.
  - rewrite (gbind_call_Ok _ _ _ _ _ (children_shape _ _ _ _ _ Hsh)).
    rewrite (gbind_Ok _ _ _ _ _ _ Hk).
    cbn -[depth Z.of_nat]. do 3 f_equal. cbn [depth]. lia.
  - rewrite (gbind_call_Ok _ _ _ _ _ (children_shape _ _ _ _ _ Hsh)).
    rewrite (gbind_Ok _ _ _ _ _ _ Hk).
    cbn -[depth Z.of_nat]. do 3 f_equal. cbn [depth]. lia.
  - rewrite (gbind_call_Ok _ _ _ _ _ (children_shape _ _ _ _ _ Hsh)).
    rewrite (gbind_Ok _ _ _ _ _ _ Hk).
    cbn -[depth Z.of_nat]. do 3 f_equal. cbn [depth]. lia.
Qed.

(** X8. [height()] on a tree without root raises [TypeError].  For a position
    below which the store holds a tree of [d] levels, [height(p)] returns
    [d - 1] (0 for a leaf, else one more than the highest child), and
    [height()] returns that of the root; the store is not changed.  The
    children of a position are taken as the spec gives them. *)
Theorem height_spec self s tr :
  trees s !! self = Some tr ->
  (_root tr = None ->
   forall fuel, height (S fuel) self None s
     = Some (s, [], Raise (TypeError "p must be of proper Position type"))) /\
  (forall t n fuel,
     shape s (Some n) t -> depth t <= fuel ->
     height fuel self (pos self n) s = Some (s, [], Ok (Z.of_nat (depth t) - 1)%Z) /\
     (_root tr = Some n ->
      height fuel self None s = Some (s, [], Ok (Z.of_nat (depth t) - 1)%Z))).
Proof.
  intros Ht. split.
  - intros Hr fuel. unfold height. cbn [is_not_None].
    rewrite (gbind_call_Ok _ _ _ _ _ (root_Ok _ _ _ Ht)). rewrite Hr.
    reflexivity.
  - intros t n fuel Hsh Hfuel. split.
    + unfold height. cbn [pos is_not_None].
      erewrite (gbind_Ok (gret _)) by reflexivity.
      by rewrite (_height2_shape self s t n fuel).
    + intros Hr. unfold height. cbn [is_not_None].
      rewrite (gbind_call_Ok _ _ _ _ _ (root_Ok _ _ _ Ht)). rewrite Hr.
      by apply _height2_shape.
Qed.



Lemma is_root_Ok self p s tr :
  trees s !! self = Some tr ->
  is_root self p s = (s, Ok (bool_decide (_node <$> p = _root tr))).
Proof.
  intros Ht. unfold is_root.
  rewrite (bind_Ok _ _ _ _ _ (root_Ok _ _ _ Ht)).
  destruct p as [[c n]|], (_root tr) as [r|]; simpl; unfold ret; do 2 f_equal.
  unfold Position__eq__. simpl. apply bool_decide_ext. split; congruence.
Qed.

Lemma Tree_depth_step self s tr fuel n nd m d :
  trees s !! self = Some tr -> _root tr <> Some n ->
  nodes s !! n = Some nd -> _parent nd = Some m -> m <> n ->
  Tree_depth fuel self (pos self m) s = Some (s, [], Ok d) ->
  Tree_depth (S fuel) self (pos self n) s = Some (s, [], Ok (1 + d)%Z).
Proof.
  intros Ht Hr Hn Hp Hne Hd. cbn [Tree_depth].
  rewrite (gbind_call_Ok _ _ _ _ _ (is_root_Ok _ _ _ _ Ht)).
  rewrite bool_decide_false by (simpl; congruence).
  assert (Hv : _validate self (pos self n) s = (s, Ok n)).
  { apply _validate_Ok. split; [done|]. exists nd. split; [done|]. congruence. }
  rewrite (gbind_call_Ok _ _ _ _ _ (parent_Ok _ _ _ _ _ Hv Hn)).
  rewrite Hp. cbn [_make_position]. change (Some (mkPosition self m)) with (pos self m).
  by rewrite (gbind_Ok _ _ _ _ _ _ Hd).
Qed.

Lemma level_Leaf k : level k Leaf = [].
Proof. by destruct k. Qed.

Lemma Tree_depth_up self s tr :
  trees s !! self = Some tr ->
  (forall rt, _root tr = Some rt ->
     exists rnd, nodes s !! rt = Some rnd /\ _parent rnd = None) ->
  forall t par m k n,
    shape_up s par (Some m) t -> n ∈ level k t ->
    forall fuel d,
      Tree_depth fuel self (pos self m) s = Some (s, [], Ok d) ->
      Tree_depth (k + fuel) self (pos self n) s = Some (s, [], Ok (d + Z.of_nat k)%Z).
Proof.
  intros Ht Hroot.
  induction t as [|l IHl x r IHr]; intros par m k n Hsh Hin fuel d Hd; [done|].
  destruct Hsh as [[= <-] (nd & Hn & Hp & Hpar & Hl & Hr)].
  destruct k as [|k].
  - simpl in Hin. apply list_elem_of_singleton in Hin as ->.
    simpl. rewrite Hd. do 3 f_equal. lia.
  - cbn [level] in Hin. apply elem_of_app in Hin.
    assert (Hchild : forall c o, shape_up s (Some m) o c -> n ∈ level k c ->
              (forall fuel d,
                 Tree_depth fuel self (pos self m) s = Some (s, [], Ok d) ->
                 forall cm, o = Some cm ->
                 Tree_depth (S fuel) self (pos self cm) s = Some (s, [], Ok (1 + d)%Z))).
    { intros c o Hc Hk fuel' d' Hd' cm ->.
      destruct c as [|cl cx cr]; [done|].
      destruct Hc as [[= <-] (cnd & Hcn & Hcp & Hcpar & _)].
      apply (Tree_depth_step self s tr fuel' cm cnd m d' Ht); [|done|done|congruence|done].
      intros Hrt. destruct (Hroot _ Hrt) as (rnd & Hrn & Hrp). congruence. }
    replace (S k + fuel) with (k + S fuel) by lia.
    replace (d + Z.of_nat (S k))%Z with (1 + d + Z.of_nat k)%Z by lia.
    destruct Hin as [Hin|Hin].
    + destruct l as [|ll lx lr]; [rewrite level_Leaf in Hin; by apply elem_of_nil in Hin|].
      pose proof Hl as [Hl' _].
      apply (IHl (Some m) lx k n ltac:(by rewrite <- Hl') Hin (S fuel) (1 + d)%Z).
      apply (Hchild (Nd ll lx lr) (_left nd) Hl Hin fuel d Hd lx Hl').
    + destruct r as [|rl rx rr]; [rewrite level_Leaf in Hin; by apply elem_of_nil in Hin|].
      pose proof Hr as [Hr' _].
      apply (IHr (Some m) rx k n ltac:(by rewrite <- Hr') Hin (S fuel) (1 + d)%Z).
      apply (Hchild (Nd rl rx rr) (_right nd) Hr Hin fuel d Hd rx Hr').
Qed.

(** X7. [is_root(p)] never raises and never validates: it answers whether
    [p]'s node is the node the tree has for root (both [None] counts),
    whatever the container of [p] and whether or not its node was deleted.
    On a tree whose nodes name their parents, [depth(p)] is the level of
    [p]'s node: 0 for the root, one more for a child.  [depth(None)] is 0 on
    a tree without root and raises [TypeError] on a tree with one. *)
Theorem depth_counts_levels self s tr :
  trees s !! self = Some tr ->
  (forall p, is_root self p s = (s, Ok (bool_decide (_node <$> p = _root tr)))) /\
  (forall t k n fuel,
     shape_up s None (_root tr) t -> n ∈ level k t -> k < fuel ->
     Tree_depth fuel self (pos self n) s = Some (s, [], Ok (Z.of_nat k))) /\
  (forall fuel,
     Tree_depth (S (S fuel)) self None s
     = Some (s, [],
             match _root tr with
             | Some _ => Raise (TypeError "p must be of proper Position type")
             | None => Ok 0%Z
             end)).
Proof.
  intros Ht. split; [|split].
  - intros p. by apply is_root_Ok.
  - intros t k n fuel Hsh Hin Hfuel.
    destruct t as [|l rt r]; [rewrite level_Leaf in Hin; by apply elem_of_nil in Hin|].
    pose proof Hsh as [Hrt (rnd & Hrn & Hrp & _)].
    replace fuel with (k + S (fuel - S k)) by lia.
    rewrite (Tree_depth_up self s tr Ht) with (t := Nd l rt r) (par := None)
      (m := rt) (d := 0%Z); [done| |by rewrite <- Hrt|done|].
    + intros rt' Hrt'. rewrite Hrt in Hrt'. injection Hrt' as <-. eauto.
    + cbn [Tree_depth].
      rewrite (gbind_call_Ok _ _ _ _ _ (is_root_Ok _ _ _ _ Ht)).
      by rewrite bool_decide_true by (by rewrite Hrt).
  - intros fuel. cbn [Tree_depth].
    rewrite (gbind_call_Ok _ _ _ _ _ (is_root_Ok _ _ _ _ Ht)).
    destruct (_root tr) as [rt|]; reflexivity.
Qed.

(** X6. [_add_root(e)] on a tree that has a root raises [ValueError] and
    changes nothing.  On a tree without root it makes a new node, which no
    older reference names, and returns its position; afterwards [root()] is
    that position, the length is 1 (set, not incremented), the tree is not
    empty, the position holds [e], has no children and no parent, and is the
    root. *)
Theorem add_root_spec self e s tr :
  trees s !! self = Some tr ->
  (forall r, _root tr = Some r ->
     _add_root self e s = (s, Raise (ValueError "Root exists!"))) /\
  (_root tr = None ->
   let n := length (nodes s) in
   let s1 := mkStore (nodes s ++ [mkNode e None None None])
                     (<[self := mkTree (type_ tr) (Some n) 1]> (trees s)) in
   _add_root self e s = (s1, Ok (pos self n)) /\
   root self s1 = (s1, Ok (pos self n)) /\
   __len__ self s1 = (s1, Ok 1%Z) /\
   is_empty self s1 = (s1, Ok false) /\
   element (mkPosition self n) s1 = (s1, Ok e) /\
   num_children self (pos self n) s1 = (s1, Ok 0%Z) /\
   parent self (pos self n) s1 = (s1, Ok None) /\
   is_root self (pos self n) s1 = (s1, Ok true)).
Proof.
  intros Ht. split.
  - intros r Hr. unfold _add_root.
    rewrite (bind_Ok _ _ _ _ _ (gettree_Ok _ _ _ _ Ht)). by rewrite Hr.
  - intros Hr n s1.
    pose proof (lookup_lt_Some _ _ _ Ht) as Hlt.
    assert (Ht1 : trees s1 !! self = Some (mkTree (type_ tr) (Some n) 1)).
    { by apply list_lookup_insert_eq. }
    assert (Hn1 : nodes s1 !! n = Some (mkNode e None None None)).
    { apply lookup_snoc_new. }
    assert (Hv1 : _validate self (pos self n) s1 = (s1, Ok n)).
    { apply _validate_Ok. split; [done|]. eexists. split; [exact Hn1|done]. }
    split; [|split; [|split; [|split; [|split; [|split; [|split]]]]]].
    + unfold _add_root.
      rewrite (bind_Ok _ _ _ _ _ (gettree_Ok _ _ _ _ Ht)). rewrite Hr. simpl.
      do 4 mstep. unfold ret, s1, n. simpl.
      rewrite list_insert_insert_eq. by destruct tr.
    + by rewrite (root_Ok _ _ _ Ht1).
    + unfold __len__. by rewrite (gettree_Ok _ _ _ _ Ht1).
    + by rewrite (is_empty_Ok _ _ _ Ht1).
    + unfold element. by rewrite (getnode_Ok _ _ _ _ Hn1).
    + by rewrite (num_children_Ok _ _ _ _ _ Hv1 Hn1).
    + by rewrite (parent_Ok _ _ _ _ _ Hv1 Hn1).
    + rewrite (is_root_Ok _ _ _ _ Ht1).
      by rewrite bool_decide_true.
Qed.

(** *** __iter__ *)




(** *** The four traversals visit the same positions *)



Lemma length_inorder_spec t : length (inorder_spec t) = count t.
Proof.
  induction t as [|l IHl n r IHr]; [done|]. simpl.
  rewrite length_app. simpl. lia.
Qed.


Lemma depth_le_count t : depth t <= count t.
Proof. induction t as [|l IHl n r IHr]; simpl; lia. Qed.


(** X13. [_attach(p, t1, t2)] with two trees of length 0 on a leaf [p]
    changes one thing: the length of the tree becomes 0.  The root is still
    there and [p] is still valid, but from then on inorder, preorder,
    postorder and breadth-first yield nothing. *)
Theorem attach_empty_hides_tree self p t1 t2 s node tr tr1 tr2 :
  trees s !! self = Some tr -> trees s !! t1 = Some tr1 ->
  trees s !! t2 = Some tr2 ->
  _validate self p s = (s, Ok node) ->
  is_leaf self p s = (s, Ok true) ->
  type_ tr = type_ tr1 -> type_ tr1 = type_ tr2 ->
  _size tr1 = 0%Z -> _size tr2 = 0%Z ->
  let s1 := mkStore (nodes s) (<[self := with_size 0 tr]> (trees s)) in
  _attach self p t1 t2 s = (s1, Ok tt) /\
  root self s1 = (s1, Ok (_make_position self (_root tr))) /\
  _validate self p s1 = (s1, Ok node) /\
  forall fuel,
    inorder fuel self s1 = Some (s1, [], Ok tt) /\
    preorder fuel self s1 = Some (s1, [], Ok tt) /\
    postorder fuel self s1 = Some (s1, [], Ok tt) /\
    breadthfirst fuel self s1 = Some (s1, [], Ok tt).
Proof.
  intros Ht Ht1 Ht2 Hv Hleaf Hty1 Hty2 Hsz1 Hsz2 s1.
  pose proof (lookup_lt_Some _ _ _ Ht) as Hlt.
  assert (Hself : trees s1 !! self = Some (with_size 0 tr)).
  { by apply list_lookup_insert_eq. }
  assert (Hsize : forall t tr', trees s !! t = Some tr' -> _size tr' = 0%Z ->
            exists tr'', trees s1 !! t = Some tr'' /\ _size tr'' = 0%Z).
  { intros t tr' Ht' Hsz'. destruct (decide (t = self)) as [->|Hne].
    - eauto.
    - exists tr'. split; [|done]. simpl. by rewrite list_lookup_insert_ne. }
  assert (He : forall t tr', trees s !! t = Some tr' -> _size tr' = 0%Z ->
            is_empty t s1 = (s1, Ok true)).
  { intros t tr' Ht' Hsz'. destruct (Hsize _ _ Ht' Hsz') as (tr'' & Ht'' & Hsz'').
    apply (is_empty_eq _ _ _ _ Ht''); [lia|by rewrite Hsz'']. }
  assert (He0 : is_empty self s1 = (s1, Ok true)).
  { by apply (is_empty_eq _ _ _ _ Hself). }
  split; [|split; [|split]].
  - unfold _attach.
    rewrite (bind_Ok _ _ _ _ _ Hv), (bind_Ok _ _ _ _ _ Hleaf). cbn [negb].
    rewrite (bind_Ok _ _ _ _ _ (gettree_Ok _ _ _ _ Ht)).
    rewrite (bind_Ok _ _ _ _ _ (gettree_Ok _ _ _ _ Ht1)).
    rewrite (bind_Ok _ _ _ _ _ (gettree_Ok _ _ _ _ Ht2)).
    rewrite !bool_decide_true by done. cbn [andb negb].
    rewrite (bind_Ok _ _ _ _ _ (len_Ok _ _ _ Ht1 ltac:(lia))).
    rewrite (bind_Ok _ _ _ _ _ (len_Ok _ _ _ Ht2 ltac:(lia))).
    rewrite Hsz1, Hsz2.
    rewrite (bind_Ok _ _ _ _ _ (settree_Ok _ _ _ _ Ht)).
    change (mkStore (nodes s) (<[self:=with_size (0 + 0) tr]> (trees s))) with s1.
    rewrite (bind_Ok _ _ _ _ _ (He _ _ Ht1 Hsz1)). cbn [negb].
    rewrite (bind_Ok (ret tt) _ s1 _ _ eq_refl).
    rewrite (bind_Ok _ _ _ _ _ (He _ _ Ht2 Hsz2)). reflexivity.
  - by rewrite (root_Ok _ _ _ Hself).
  - apply _validate_Ok in Hv as [-> Hnd]. by apply _validate_Ok.
  - intros fuel.
    unfold inorder, preorder, postorder, breadthfirst.
    by rewrite !(gbind_call_Ok _ _ _ _ _ He0).
Qed.

(** ** The traversals after [_add_left], [_add_right] and [replace] *)











Implicit Types (cr : list tid) (ps : list (option Position)).

(** ** The count and the root, without [_attach] *)

(** *** Counting *)

Lemma sum_seq_ext (f g : nat -> nat) n : forall a,
  (forall m, a <= m < a + n -> f m = g m) ->
  sum_list_with f (seq a n) = sum_list_with g (seq a n).
Proof.
  induction n as [|n IH]; intros a Hfg; [done|]. simpl.
  rewrite (Hfg a) by lia. f_equal. apply IH. intros m Hm. apply Hfg. lia.
Qed.

Lemma sum_seq_zero (f : nat -> nat) n a :
  (forall m, a <= m < a + n -> f m = 0) -> sum_list_with f (seq a n) = 0.
Proof.
  revert a. induction n as [|n IH]; intros a Hf; [done|]. simpl.
  rewrite (Hf a) by lia. apply IH. intros m Hm. apply Hf. lia.
Qed.

Lemma sum_seq_snoc (f : nat -> nat) n :
  sum_list_with f (seq 0 (S n)) = sum_list_with f (seq 0 n) + f n.
Proof. rewrite seq_S, sum_list_with_app. simpl. lia. Qed.

Lemma sum_seq_flip (f g : nat -> nat) n : forall a x,
  a <= x < a + n -> f x = S (g x) ->
  (forall m, a <= m < a + n -> m <> x -> f m = g m) ->
  sum_list_with f (seq a n) = S (sum_list_with g (seq a n)).
Proof.
  induction n as [|n IH]; intros a x Hx Hfx Hfg; [lia|]. simpl.
  destruct (decide (a = x)) as [->|Hne].
  - rewrite Hfx. simpl. f_equal. f_equal. apply sum_seq_ext.
    intros m Hm. apply Hfg; lia.
  - rewrite (Hfg a) by lia. rewrite (IH (S a) x); [lia|lia|done|].
    intros m Hm. apply Hfg. lia.
Qed.

Lemma sum_seq_pos (f : nat -> nat) n a x :
  a <= x < a + n -> 0 < f x -> 0 < sum_list_with f (seq a n).
Proof.
  revert a. induction n as [|n IH]; intros a Hx Hfx; [lia|]. simpl.
  destruct (decide (a = x)) as [->|Hne]; [lia|].
  specialize (IH (S a) ltac:(lia) Hfx). lia.
Qed.

(** *** The links *)

Lemma par_Some s m v : par s m = Some v <-> exists nd, nodes s !! m = Some nd /\ _parent nd = v.
Proof.
  unfold par. destruct (nodes s !! m) as [nd|]; simpl; split.
  - intros [= <-]. eauto.
  - intros (nd' & [= <-] & <-). done.
  - done.
  - by intros (? & ? & _).
Qed.

Lemma par_lt s m v : par s m = Some v -> m < length (nodes s).
Proof. intros (nd & Hn & _)%par_Some. by eapply lookup_lt_Some. Qed.

Lemma lft_lt s m v : lft s m = Some v -> m < length (nodes s).
Proof.
  unfold lft. destruct (nodes s !! m) eqn:Hn; [|done]. intros _.
  by eapply lookup_lt_Some.
Qed.

Lemma rgt_lt s m v : rgt s m = Some v -> m < length (nodes s).
Proof.
  unfold rgt. destruct (nodes s !! m) eqn:Hn; [|done]. intros _.
  by eapply lookup_lt_Some.
Qed.

Lemma live_lt s m : live s m -> m < length (nodes s).
Proof. intros (v & Hv & _). by eapply par_lt. Qed.

Lemma owns_le_1 s cr c m : owns s cr c m <= 1.
Proof. unfold owns. destruct (par s m); [|lia]. destruct (decide _); lia. Qed.

Lemma owns_1 s cr c m :
  owns s cr c m = 1 <-> live s m /\ cr !! m = Some c.
Proof.
  unfold owns, live. destruct (par s m) as [v|]; split.
  - destruct (decide _) as [[? ?]|]; [|done]. eauto.
  - intros [(v' & [= <-] & Hv) Hc]. by rewrite decide_True.
  - done.
  - by intros [(? & ? & _) _].
Qed.

Lemma owns_0 s cr c m :
  ~ (live s m /\ cr !! m = Some c) -> owns s cr c m = 0.
Proof.
  intros Hno. pose proof (owns_le_1 s cr c m).
  destruct (decide (owns s cr c m = 1)) as [H1|]; [|lia].
  apply owns_1 in H1. done.
Qed.

(** The invariant depends on the links, the trees and [cr] only. *)
Lemma Inv_ext s s1 cr :
  (forall m, par s1 m = par s m) -> (forall m, lft s1 m = lft s m) ->
  (forall m, rgt s1 m = rgt s m) ->
  length (nodes s1) = length (nodes s) -> trees s1 = trees s ->
  Inv s cr -> Inv s1 cr.
Proof.
  intros Hp Hl Hr Hlen Ht [I1 I2 I3 I4 I5 I6 I7 I8].
  assert (Hlive : forall m, live s1 m <-> live s m).
  { intros m. unfold live. by rewrite Hp. }
  split.
  - by rewrite Hlen.
  - by rewrite Ht.
  - intros c tr r. rewrite Ht, Hp. apply I3.
  - intros m q. rewrite Hp, Hlive, Hl, Hr. apply I4.
  - intros m. rewrite Hp, Ht. apply I5.
  - intros q m. rewrite Hlive, Hl, Hr, Hp. apply I6.
  - intros q m. rewrite Hlive, Hl, Hr. apply I7.
  - intros c tr. rewrite Ht. intros Htr. rewrite (I8 c tr Htr). f_equal.
    unfold cnt. rewrite Hlen. apply sum_seq_ext. intros m _.
    unfold owns. by rewrite Hp.
Qed.

(** A tree without root has no node. *)
Lemma no_root_no_node s cr c tr :
  Inv s cr -> trees s !! c = Some tr -> _root tr = None ->
  forall m, ~ (live s m /\ cr !! m = Some c).
Proof.
  intros HI Ht Hr m. induction m as [m IH] using lt_wf_ind.
  intros [(v & Hv & Hne) Hc]. destruct v as [q|].
  - destruct (inv_up _ _ HI m q Hv) as (Hlt & Hq & Hcq & _); [congruence|].
    apply (IH q Hlt). split; [done|congruence].
  - destruct (inv_top _ _ HI m Hv) as (c' & tr' & Hc' & Ht' & Hr').
    congruence.
Qed.

Lemma no_root_cnt s cr c tr :
  Inv s cr -> trees s !! c = Some tr -> _root tr = None -> cnt s cr c = 0.
Proof.
  intros HI Ht Hr. unfold cnt. apply sum_seq_zero. intros m _.
  apply owns_0. by eapply no_root_no_node.
Qed.

Lemma root_cnt s cr c tr r :
  Inv s cr -> trees s !! c = Some tr -> _root tr = Some r -> 0 < cnt s cr c.
Proof.
  intros HI Ht Hr. destruct (inv_root _ _ HI c tr r Ht Hr) as [Hc Hp].
  unfold cnt. apply (sum_seq_pos _ _ _ r).
  - pose proof (par_lt _ _ _ Hp). lia.
  - assert (owns s cr c r = 1); [|lia]. apply owns_1. split; [|done].
    exists None. done.
Qed.

(** *** The positions a program holds *)

Lemma issued_app cr cr' ps qs :
  issued cr ps -> issued (cr ++ cr') qs -> issued (cr ++ cr') (ps ++ qs).
Proof.
  intros Hps Hqs p [Hp|Hp]%elem_of_app; [|by apply Hqs].
  specialize (Hps p Hp). destruct p as [q|]; [|done].
  by apply lookup_app_l_Some.
Qed.

Lemma issued_app_nil cr ps qs :
  issued cr ps -> issued cr qs -> issued cr (ps ++ qs).
Proof.
  intros Hps Hqs. rewrite <- (app_nil_r cr). apply issued_app; [done|].
  by rewrite app_nil_r.
Qed.

Lemma issued_nil cr : issued cr [].
Proof. intros p Hp. by apply elem_of_nil in Hp. Qed.

Lemma issued_one cr q :
  match q with None => True | Some q => cr !! _node q = Some (_container q) end ->
  issued cr [q].
Proof. intros Hq p ->%list_elem_of_singleton. done. Qed.

(** *** The calls that change no node *)

Lemma validate_cases self p s :
  (exists err, _validate self p s = (s, Raise err)) \/
  (exists n nd, p = Some (mkPosition self n) /\ nodes s !! n = Some nd /\
                _parent nd <> Some n /\ _validate self p s = (s, Ok n)).
Proof.
  destruct (_validate self p s) as [s' [n|err]] eqn:Hv;
    pose proof (_validate_pure _ _ _ _ _ Hv) as ->; [|left; eauto].
  right. pose proof Hv as Hv'. apply _validate_Ok in Hv' as (-> & nd & Hn & Hp).
  eauto 10.
Qed.

Lemma live_valid s n nd : nodes s !! n = Some nd -> _parent nd <> Some n -> live s n.
Proof. intros Hn Hp. exists (_parent nd). split; [|done]. unfold par. by rewrite Hn. Qed.

Lemma step_init cls s cr ps :
  Inv s cr -> issued cr ps ->
  Inv (run_call (call_init cls) s).1 cr /\
  issued cr (ps ++ (run_call (call_init cls) s).2).
Proof.
  intros HI Hps. cbn [run_call handed __init__ fst snd].
  split; [|by apply issued_app_nil; [|apply issued_nil]].
  destruct HI as [I1 I2 I3 I4 I5 I6 I7 I8].
  split; cbn [nodes trees]; try done.
  - intros m c Hc. rewrite length_app. specialize (I2 m c Hc). simpl. lia.
  - intros c tr r Ht Hr. apply lookup_app_Some in Ht as [Ht|[_ Ht]]; [by eapply I3|].
    destruct (c - length (trees s)) as [|k]; simpl in Ht; [|done].
    injection Ht as <-. done.
  - intros m Hm. destruct (I5 m Hm) as (c & tr & Hc & Ht & Hr).
    exists c, tr. split; [done|]. split; [|done]. by apply lookup_app_l_Some.
  - intros c tr Ht. apply lookup_app_Some in Ht as [Ht|[Hge Ht]]; [by apply I8|].
    destruct (c - length (trees s)) as [|k] eqn:Hk; simpl in Ht; [|done].
    injection Ht as <-. cbn [_size].
    match goal with |- _ = Z.of_nat ?x => assert (Hz : x = 0); [|by rewrite Hz] end.
    unfold cnt. apply sum_seq_zero. intros m _. apply owns_0.
    intros [_ Hc]. specialize (I2 m c Hc). lia.
Qed.

Lemma step_unchanged (c : method_call E) s cr ps qs :
  Inv s cr -> issued cr ps -> run_call c s = (s, qs) -> issued cr qs ->
  Inv (run_call c s).1 cr /\ issued cr (ps ++ (run_call c s).2).
Proof.
  intros HI Hps -> Hqs. split; [done|]. by apply issued_app_nil.
Qed.

Lemma step_root self s cr ps :
  Inv s cr -> issued cr ps ->
  Inv (run_call (call_root self) s).1 cr /\
  issued cr (ps ++ (run_call (call_root self) s).2).
Proof.
  intros HI Hps.
  destruct (trees s !! self) as [tr|] eqn:Ht.
  - eapply step_unchanged; [done|done| |].
    + cbn [run_call]. rewrite (root_Ok _ _ _ Ht). reflexivity.
    + apply issued_one. destruct (_root tr) as [r|] eqn:Hr; [|done]. simpl.
      by destruct (inv_root _ _ HI self tr r Ht Hr).
  - eapply step_unchanged; [done|done| |apply issued_nil].
    cbn [run_call]. unfold root, gettree, handed.
    unfold mbind, M_bind, bind. by rewrite Ht.
Qed.

(** The position of a neighbour of a node of the tree [self] is one of
    [self]. *)
Lemma step_accessor (f : _Node E -> option loc) (m : tid -> option Position -> M (Store E) (option Position)) c self p s cr ps :
  (forall s, m self p s = (node ← _validate self p; v ← getnode f node;
                           ret (_make_position self v)) s) ->
  (forall s, run_call c s = handed (fun q => [q]) (m self p s)) ->
  (forall n nd x, nodes s !! n = Some nd -> _parent nd <> Some n ->
     cr !! n = Some self -> f nd = Some x -> cr !! x = Some self) ->
  Inv s cr -> issued cr ps -> p ∈ ps ->
  Inv (run_call c s).1 cr /\ issued cr (ps ++ (run_call c s).2).
Proof.
  intros Hm Hc Hf HI Hps Hp.
  destruct (validate_cases self p s) as [[err Hv]|(n & nd & -> & Hn & Hpar & Hv)].
  - eapply step_unchanged; [done|done| |apply issued_nil].
    rewrite Hc, Hm. by rewrite (bind_Raise _ _ _ _ _ Hv).
  - eapply step_unchanged; [done|done| |].
    + rewrite Hc, Hm. rewrite (bind_Ok _ _ _ _ _ Hv).
      rewrite (bind_Ok _ _ _ _ _ (getnode_Ok _ _ _ _ Hn)). reflexivity.
    + apply issued_one. destruct (f nd) as [x|] eqn:Hx; [|done]. simpl.
      apply (Hf n nd x Hn Hpar); [|done]. exact (Hps _ Hp).
Qed.

Lemma step_parent self p s cr ps :
  Inv s cr -> issued cr ps -> p ∈ ps ->
  Inv (run_call (call_parent self p) s).1 cr /\
  issued cr (ps ++ (run_call (call_parent self p) s).2).
Proof.
  intros HI. apply (step_accessor _parent parent _ self p); [done|done| |done].
  intros n nd x Hn Hpar Hc Hx.
  destruct (inv_up _ _ HI n x) as (_ & _ & Hcx & _).
  - unfold par. by rewrite Hn, <- Hx.
  - congruence.
  - congruence.
Qed.

Lemma child_created s cr q qd m :
  Inv s cr -> nodes s !! q = Some qd -> _parent qd <> Some q ->
  _left qd = Some m \/ _right qd = Some m -> cr !! m = cr !! q.
Proof.
  intros HI Hq Hpar Hm.
  destruct (inv_down _ _ HI q m) as [Hpm Hne].
  - by eapply live_valid.
  - unfold lft, rgt. rewrite Hq. simpl. destruct Hm as [->| ->]; eauto.
  - by destruct (inv_up _ _ HI m q Hpm Hne) as (_ & _ & -> & _).
Qed.

Lemma step_left self p s cr ps :
  Inv s cr -> issued cr ps -> p ∈ ps ->
  Inv (run_call (call_left self p) s).1 cr /\
  issued cr (ps ++ (run_call (call_left self p) s).2).
Proof.
  intros HI. apply (step_accessor _left left _ self p); [done|done| |done].
  intros n nd x Hn Hpar Hc Hx.
  rewrite (child_created s cr n nd x); eauto.
Qed.

Lemma step_right self p s cr ps :
  Inv s cr -> issued cr ps -> p ∈ ps ->
  Inv (run_call (call_right self p) s).1 cr /\
  issued cr (ps ++ (run_call (call_right self p) s).2).
Proof.
  intros HI. apply (step_accessor _right right _ self p); [done|done| |done].
  intros n nd x Hn Hpar Hc Hx.
  rewrite (child_created s cr n nd x); eauto.
Qed.

Lemma step_replace self p e s cr ps :
  Inv s cr -> issued cr ps ->
  Inv (run_call (call_replace self p e) s).1 cr /\
  issued cr (ps ++ (run_call (call_replace self p e) s).2).
Proof.
  intros HI Hps.
  destruct (validate_cases self p s) as [[err Hv]|(n & nd & -> & Hn & Hpar & Hv)].
  - eapply step_unchanged; [done|done| |apply issued_nil].
    cbn [run_call]. unfold replace. by rewrite (bind_Raise _ _ _ _ _ Hv).
  - cbn [run_call]. unfold replace. rewrite (bind_Ok _ _ _ _ _ Hv).
    rewrite (bind_Ok _ _ _ _ _ (getnode_Ok _ _ _ _ Hn)).
    rewrite (bind_Ok _ _ _ _ _ (setnode_Ok _ _ _ _ Hn)).
    cbn [handed fst snd ret].
    split; [|by apply issued_app_nil; [|apply issued_nil]].
    pose proof (lookup_lt_Some _ _ _ Hn) as Hlt.
    eapply Inv_ext; [| | | | |exact HI]; cbn [nodes trees];
      try (intros m; unfold par, lft, rgt; cbn [nodes];
           destruct (decide (m = n)) as [->|Hne];
           [rewrite list_lookup_insert_eq by done; by rewrite Hn
           |by rewrite list_lookup_insert_ne by done]).
    + by rewrite length_insert.
    + done.
Qed.

(** *** A new node *)

Section Grow.
Variables (s s1 : Store E) (cr : list tid) (self : tid) (c : loc).
Hypothesis Hc : c = length (nodes s).
Hypothesis Hlen1 : length (nodes s1) = S c.
Hypothesis Hpar : forall m, m <> c -> par s1 m = par s m.
Hypothesis Hlc : lft s1 c = Some None.
Hypothesis Hrc : rgt s1 c = Some None.
Hypothesis HI : Inv s cr.

Lemma grow_cr m : m <> c -> (cr ++ [self]) !! m = cr !! m.
Proof.
  intros Hm. pose proof (inv_len _ _ HI) as Hl.
  destruct (decide (m < c)) as [Hlt|Hge].
  - apply lookup_app_l. lia.
  - rewrite !lookup_ge_None_2; [done|lia|]. rewrite length_app. simpl. lia.
Qed.

Lemma grow_cr_new : (cr ++ [self]) !! c = Some self.
Proof.
  pose proof (inv_len _ _ HI) as Hl. rewrite <- Hc in Hl. rewrite <- Hl.
  apply lookup_snoc_new.
Qed.

Lemma grow_live m : m <> c -> live s1 m <-> live s m.
Proof. intros Hm. unfold live. by rewrite Hpar. Qed.

Lemma grow_owns c0 m : m <> c -> owns s1 (cr ++ [self]) c0 m = owns s cr c0 m.
Proof. intros Hm. unfold owns. by rewrite Hpar, grow_cr. Qed.

Lemma grow_cnt c0 : cnt s1 (cr ++ [self]) c0 = cnt s cr c0 + owns s1 (cr ++ [self]) c0 c.
Proof.
  unfold cnt. rewrite Hlen1, sum_seq_snoc, <- Hc. f_equal.
  apply sum_seq_ext. intros m Hm. apply grow_owns. lia.
Qed.

Lemma grow_old_par m v : par s m = Some v -> m <> c.
Proof. intros Hm%par_lt. lia. Qed.

Lemma grow_old_cr m c0 : cr !! m = Some c0 -> m <> c.
Proof.
  intros Hm%lookup_lt_Some. pose proof (inv_len _ _ HI). lia.
Qed.

Lemma Inv_add_root tr :
  trees s !! self = Some tr -> _root tr = None ->
  trees s1 = <[self := mkTree (type_ tr) (Some c) 1]> (trees s) ->
  par s1 c = Some None ->
  (forall m, m <> c -> lft s1 m = lft s m) ->
  (forall m, m <> c -> rgt s1 m = rgt s m) ->
  Inv s1 (cr ++ [self]).
Proof.
  intros Ht Hr Ht1 Hpc Hl Hrg.
  pose proof (lookup_lt_Some _ _ _ Ht) as Hlt.
  pose proof HI as [I1 I2 I3 I4 I5 I6 I7 I8].
  split.
  - rewrite length_app, Hlen1. simpl. lia.
  - intros m c0 Hm. rewrite Ht1, length_insert.
    destruct (decide (m = c)) as [->|Hne].
    + rewrite grow_cr_new in Hm. by injection Hm as <-.
    + rewrite grow_cr in Hm by done. by eapply I2.
  - intros c0 tr0 r Ht0 Hr0. rewrite Ht1 in Ht0.
    destruct (decide (c0 = self)) as [->|Hne].
    + rewrite list_lookup_insert_eq in Ht0 by done. injection Ht0 as <-.
      injection Hr0 as <-. by rewrite grow_cr_new.
    + rewrite list_lookup_insert_ne in Ht0 by done.
      destruct (I3 c0 tr0 r Ht0 Hr0) as [H1 H2].
      pose proof (grow_old_par _ _ H2). by rewrite grow_cr, Hpar.
  - intros m q Hm Hne. destruct (decide (m = c)) as [->|Hmc]; [congruence|].
    rewrite Hpar in Hm by done.
    destruct (I4 m q Hm Hne) as (H1 & H2 & H3 & H4).
    pose proof (grow_old_par _ _ Hm). pose proof (live_lt _ _ H2).
    assert (q <> c) by lia.
    rewrite grow_live, !grow_cr, Hl, Hrg by done. done.
  - intros m Hm. destruct (decide (m = c)) as [->|Hmc].
    + exists self, (mkTree (type_ tr) (Some c) 1).
      split; [apply grow_cr_new|]. split; [|done].
      rewrite Ht1. by apply list_lookup_insert_eq.
    + rewrite Hpar in Hm by done.
      destruct (I5 m Hm) as (c0 & tr0 & H1 & H2 & H3).
      exists c0, tr0. split; [by rewrite grow_cr|]. split; [|done].
      rewrite Ht1, list_lookup_insert_ne; [done|]. intros <-. congruence.
  - intros q m Hq Hm. destruct (decide (q = c)) as [->|Hqc].
    { rewrite Hlc, Hrc in Hm. by destruct Hm. }
    rewrite grow_live in Hq by done. rewrite Hl, Hrg in Hm by done.
    destruct (I6 q m Hq Hm) as [H1 H2].
    pose proof (grow_old_par _ _ H1). by rewrite Hpar.
  - intros q m Hq Hm. destruct (decide (q = c)) as [->|Hqc]; [congruence|].
    rewrite grow_live in Hq by done. rewrite Hl in Hm by done.
    rewrite Hrg by done. by apply I7.
  - intros c0 tr0 Ht0. rewrite Ht1 in Ht0. rewrite grow_cnt.
    destruct (decide (c0 = self)) as [->|Hne].
    + rewrite list_lookup_insert_eq in Ht0 by done. injection Ht0 as <-.
      rewrite (no_root_cnt s cr self tr) by done.
      assert (H1 : owns s1 (cr ++ [self]) self c = 1); [|by rewrite H1].
      apply owns_1. split; [|apply grow_cr_new]. exists None. done.
    + rewrite list_lookup_insert_ne in Ht0 by done.
      rewrite (I8 c0 tr0 Ht0). rewrite owns_0; [f_equal; lia|].
      intros [_ Hcr]. rewrite grow_cr_new in Hcr. congruence.
Qed.

Lemma Inv_add_child tr n :
  trees s !! self = Some tr ->
  trees s1 = <[self := with_size (_size tr + 1) tr]> (trees s) ->
  live s n -> cr !! n = Some self ->
  par s1 c = Some (Some n) ->
  (lft s n = Some None /\ lft s1 n = Some (Some c) /\ rgt s1 n = rgt s n \/
   rgt s n = Some None /\ rgt s1 n = Some (Some c) /\ lft s1 n = lft s n) ->
  (forall m, m <> c -> m <> n -> lft s1 m = lft s m) ->
  (forall m, m <> c -> m <> n -> rgt s1 m = rgt s m) ->
  Inv s1 (cr ++ [self]).
Proof.
  intros Ht Ht1 Hn Hcn Hpc Hside Hl Hrg.
  pose proof (lookup_lt_Some _ _ _ Ht) as Hlt.
  pose proof (live_lt _ _ Hn) as Hnc. assert (n <> c) as Hnc' by lia.
  pose proof HI as [I1 I2 I3 I4 I5 I6 I7 I8].
  assert (Hnoc : forall q, live s q ->
            lft s q <> Some (Some c) /\ rgt s q <> Some (Some c)).
  { intros q Hq. split; intros Hq'.
    - destruct (I6 q c Hq) as [H1 _]; [by left|]. apply par_lt in H1. lia.
    - destruct (I6 q c Hq) as [H1 _]; [by right|]. apply par_lt in H1. lia. }
  split.
  - rewrite length_app, Hlen1. simpl. lia.
  - intros m c0 Hm. rewrite Ht1, length_insert.
    destruct (decide (m = c)) as [->|Hne].
    + rewrite grow_cr_new in Hm. by injection Hm as <-.
    + rewrite grow_cr in Hm by done. by eapply I2.
  - intros c0 tr0 r Ht0 Hr0. rewrite Ht1 in Ht0.
    assert (exists tr', trees s !! c0 = Some tr' /\ _root tr' = Some r)
      as (tr' & Ht' & Hr').
    { destruct (decide (c0 = self)) as [->|Hne].
      - rewrite list_lookup_insert_eq in Ht0 by done. injection Ht0 as <-. eauto.
      - rewrite list_lookup_insert_ne in Ht0 by done. eauto. }
    destruct (I3 c0 tr' r Ht' Hr') as [H1 H2].
    pose proof (grow_old_par _ _ H2). by rewrite grow_cr, Hpar.
  - intros m q Hm Hne. destruct (decide (m = c)) as [->|Hmc].
    + rewrite Hpc in Hm. injection Hm as <-.
      split; [lia|]. split; [by apply grow_live|].
      split; [by rewrite grow_cr_new, grow_cr|].
      destruct Hside as [(_ & -> & _)|(_ & -> & _)]; eauto.
    + rewrite Hpar in Hm by done.
      destruct (I4 m q Hm Hne) as (H1 & H2 & H3 & H4).
      pose proof (grow_old_par _ _ Hm). pose proof (live_lt _ _ H2).
      assert (q <> c) by lia.
      rewrite grow_live, !grow_cr by done.
      split; [done|]. split; [done|]. split; [done|].
      destruct (decide (q = n)) as [->|Hqn].
      * destruct Hside as [(Hs1 & Hs2 & Hs3)|(Hs1 & Hs2 & Hs3)].
        -- right. rewrite Hs3. destruct H4 as [H4|H4]; [congruence|done].
        -- left. rewrite Hs3. destruct H4 as [H4|H4]; [done|congruence].
      * by rewrite Hl, Hrg.
  - intros m Hm. destruct (decide (m = c)) as [->|Hmc]; [congruence|].
    rewrite Hpar in Hm by done.
    destruct (I5 m Hm) as (c0 & tr0 & H1 & H2 & H3).
    rewrite grow_cr by done. rewrite Ht1.
    destruct (decide (c0 = self)) as [->|Hne].
    + exists self, (with_size (_size tr + 1) tr). split; [done|].
      split; [by apply list_lookup_insert_eq|]. simpl. congruence.
    + exists c0, tr0. split; [done|]. split; [|done].
      by rewrite list_lookup_insert_ne.
  - intros q m Hq Hm. destruct (decide (q = c)) as [->|Hqc].
    { rewrite Hlc, Hrc in Hm. by destruct Hm. }
    rewrite grow_live in Hq by done.
    destruct (decide (q = n)) as [->|Hqn].
    + destruct Hside as [(Hs1 & Hs2 & Hs3)|(Hs1 & Hs2 & Hs3)].
      * rewrite Hs2, Hs3 in Hm. destruct Hm as [[= <-]|Hm]; [done|].
        destruct (I6 n m Hq) as [H1 H2]; [by right|].
        pose proof (grow_old_par _ _ H1). by rewrite Hpar.
      * rewrite Hs2, Hs3 in Hm. destruct Hm as [Hm|[= <-]]; [|done].
        destruct (I6 n m Hq) as [H1 H2]; [by left|].
        pose proof (grow_old_par _ _ H1). by rewrite Hpar.
    + rewrite Hl, Hrg in Hm by done.
      destruct (I6 q m Hq Hm) as [H1 H2].
      pose proof (grow_old_par _ _ H1). by rewrite Hpar.
  - intros q m Hq Hm. destruct (decide (q = c)) as [->|Hqc]; [congruence|].
    rewrite grow_live in Hq by done.
    destruct (Hnoc q Hq) as [Hnl Hnr].
    destruct (decide (q = n)) as [->|Hqn].
    + destruct Hside as [(Hs1 & Hs2 & Hs3)|(Hs1 & Hs2 & Hs3)].
      * rewrite Hs2 in Hm. injection Hm as <-. by rewrite Hs3.
      * rewrite Hs3 in Hm. rewrite Hs2. congruence.
    + rewrite Hl in Hm by done. rewrite Hrg by done. by apply I7.
  - intros c0 tr0 Ht0. rewrite Ht1 in Ht0. rewrite grow_cnt.
    destruct (decide (c0 = self)) as [->|Hne].
    + rewrite list_lookup_insert_eq in Ht0 by done. injection Ht0 as <-.
      cbn [with_size _size]. rewrite (I8 self tr Ht).
      assert (H1 : owns s1 (cr ++ [self]) self c = 1); [|rewrite H1; lia].
      apply owns_1. split; [|apply grow_cr_new]. exists (Some n).
      split; [done|congruence].
    + rewrite list_lookup_insert_ne in Ht0 by done.
      rewrite (I8 c0 tr0 Ht0). rewrite owns_0; [f_equal; lia|].
      intros [_ Hcr]. rewrite grow_cr_new in Hcr. congruence.
Qed.

End Grow.

Lemma fld_snoc {A} (f : _Node E -> A) (l : list (_Node E)) x m :
  m <> length l -> f <$> (l ++ [x]) !! m = f <$> l !! m.
Proof.
  intros Hm. destruct (decide (m < length l)) as [Hlt|Hge].
  - by rewrite lookup_app_l.
  - rewrite !lookup_ge_None_2; [done|lia|]. rewrite length_app. simpl. lia.
Qed.

Lemma fld_snoc_new {A} (f : _Node E -> A) (l : list (_Node E)) x :
  f <$> (l ++ [x]) !! length l = Some (f x).
Proof. by rewrite lookup_snoc_new. Qed.

Lemma fld_insert_ne {A} (f : _Node E -> A) (l : list (_Node E)) n y m :
  m <> n -> f <$> <[n := y]> l !! m = f <$> l !! m.
Proof. intros Hm. by rewrite list_lookup_insert_ne. Qed.

Lemma fld_insert_eq {A} (f : _Node E -> A) (l : list (_Node E)) n y :
  n < length l -> f <$> <[n := y]> l !! n = Some (f y).
Proof. intros Hn. by rewrite list_lookup_insert_eq. Qed.

Lemma step_wrap (c : method_call E) s cr ps :
  Inv (run_call c s).1 cr /\ issued cr (ps ++ (run_call c s).2) ->
  exists cr', Inv (run_call c s).1 (cr ++ cr') /\
              issued (cr ++ cr') (ps ++ (run_call c s).2).
Proof. intros H. exists []. by rewrite app_nil_r. Qed.

Lemma step_add_root self e s cr ps :
  Inv s cr -> issued cr ps ->
  exists cr', Inv (run_call (call_add_root self e) s).1 (cr ++ cr') /\
              issued (cr ++ cr') (ps ++ (run_call (call_add_root self e) s).2).
Proof.
  intros HI Hps.
  destruct (trees s !! self) as [tr|] eqn:Ht; cycle 1.
  { apply step_wrap. eapply step_unchanged; [done|done| |apply issued_nil].
    cbn [run_call]. unfold _add_root, gettree, handed, mbind, M_bind, bind.
    by rewrite Ht. }
  destruct (_root tr) as [r|] eqn:Hr.
  { apply step_wrap. eapply step_unchanged; [done|done| |apply issued_nil].
    cbn [run_call]. unfold _add_root.
    rewrite (bind_Ok _ _ _ _ _ (gettree_Ok _ _ _ _ Ht)). by rewrite Hr. }
  pose proof (lookup_lt_Some _ _ _ Ht) as Hlt.
  set (c := length (nodes s)).
  set (s1 := mkStore (nodes s ++ [mkNode e None None None])
                     (<[self := mkTree (type_ tr) (Some c) 1]> (trees s))).
  assert (Hrun : _add_root self e s = (s1, Ok (pos self c))).
  { unfold _add_root. rewrite (bind_Ok _ _ _ _ _ (gettree_Ok _ _ _ _ Ht)).
    rewrite Hr. simpl. do 4 mstep. unfold ret, s1, c. simpl.
    rewrite list_insert_insert_eq. by destruct tr. }
  cbn [run_call]. rewrite Hrun. cbn [handed fst snd].
  assert (Hcr : (cr ++ [self]) !! c = Some self).
  { pose proof (inv_len _ _ HI) as Hl. unfold c. rewrite <- Hl. apply lookup_snoc_new. }
  exists [self]. split.
  - apply (Inv_add_root s s1 cr self c eq_refl) with (tr := tr); try done.
    + unfold s1. cbn [nodes]. rewrite length_app. simpl. lia.
    + intros m Hm. unfold par, s1. cbn [nodes]. by apply fld_snoc.
    + unfold lft, s1. cbn [nodes]. apply (fld_snoc_new _left).
    + unfold rgt, s1. cbn [nodes]. apply (fld_snoc_new _right).
    + unfold par, s1. cbn [nodes]. apply (fld_snoc_new _parent).
    + intros m Hm. unfold lft, s1. cbn [nodes]. by apply fld_snoc.
    + intros m Hm. unfold rgt, s1. cbn [nodes]. by apply fld_snoc.
  - apply issued_app; [done|]. by apply issued_one.
Qed.

Lemma step_add_left self p e s cr ps :
  Inv s cr -> issued cr ps -> p ∈ ps ->
  exists cr', Inv (run_call (call_add_left self p e) s).1 (cr ++ cr') /\
              issued (cr ++ cr') (ps ++ (run_call (call_add_left self p e) s).2).
Proof.
  intros HI Hps Hp.
  destruct (validate_cases self p s) as [[err Hv]|(n & nd & -> & Hn & Hpar & Hv)].
  { apply step_wrap. eapply step_unchanged; [done|done| |apply issued_nil].
    cbn [run_call]. unfold _add_left. by rewrite (bind_Raise _ _ _ _ _ Hv). }
  destruct (_left nd) as [l|] eqn:El.
  { apply step_wrap. eapply step_unchanged; [done|done| |apply issued_nil].
    cbn [run_call]. unfold _add_left. rewrite (bind_Ok _ _ _ _ _ Hv).
    rewrite (bind_Ok _ _ _ _ _ (getnode_Ok _ _ _ _ Hn)). by rewrite El. }
  pose proof (Hps _ Hp) as Hcn. simpl in Hcn.
  pose proof (inv_tid _ _ HI _ _ Hcn) as Hlt.
  destruct (lookup_lt_is_Some_2 _ _ Hlt) as [tr Ht].
  pose proof (lookup_lt_Some _ _ _ Hn) as Hnlt.
  set (c := length (nodes s)).
  set (s1 := mkStore (<[n := with_left (Some c) nd]>
                        (nodes s ++ [mkNode e (Some n) None None]))
                     (<[self := with_size (_size tr + 1) tr]> (trees s))).
  assert (Hrun : _add_left self (Some (mkPosition self n)) e s = (s1, Ok (pos self c))).
  { unfold _add_left. rewrite (bind_Ok _ _ _ _ _ Hv). mstep. rewrite El. simpl.
    do 5 mstep. reflexivity. }
  cbn [run_call]. rewrite Hrun. cbn [handed fst snd].
  assert (Hcr : (cr ++ [self]) !! c = Some self).
  { pose proof (inv_len _ _ HI) as Hl. unfold c. rewrite <- Hl. apply lookup_snoc_new. }
  assert (Hnc : n <> c) by (unfold c; lia).
  assert (Hlen : n < length (nodes s ++ [mkNode e (Some n) None None])).
  { rewrite length_app. simpl. lia. }
  exists [self]. split.
  - apply (Inv_add_child s s1 cr self c eq_refl) with (tr := tr) (n := n); try done.
    + unfold s1. cbn [nodes]. rewrite length_insert, length_app. simpl. lia.
    + intros m Hm. unfold par, s1. cbn [nodes].
      destruct (decide (m = n)) as [->|Hmn].
      * rewrite fld_insert_eq by done. by rewrite Hn.
      * rewrite fld_insert_ne by done. by apply fld_snoc.
    + unfold lft, s1. cbn [nodes]. rewrite fld_insert_ne by done. apply (fld_snoc_new _left).
    + unfold rgt, s1. cbn [nodes]. rewrite fld_insert_ne by done. apply (fld_snoc_new _right).
    + by eapply live_valid.
    + unfold par, s1. cbn [nodes]. rewrite fld_insert_ne by done. apply (fld_snoc_new _parent).
    + left. unfold lft, rgt, s1. cbn [nodes]. rewrite !fld_insert_eq by done.
      rewrite Hn. simpl. by rewrite El.
    + intros m Hm Hmn. unfold lft, s1. cbn [nodes].
      rewrite fld_insert_ne by done. by apply fld_snoc.
    + intros m Hm Hmn. unfold rgt, s1. cbn [nodes].
      rewrite fld_insert_ne by done. by apply fld_snoc.
  - apply issued_app; [done|]. by apply issued_one.
Qed.

Lemma step_add_right self p e s cr ps :
  Inv s cr -> issued cr ps -> p ∈ ps ->
  exists cr', Inv (run_call (call_add_right self p e) s).1 (cr ++ cr') /\
              issued (cr ++ cr') (ps ++ (run_call (call_add_right self p e) s).2).
Proof.
  intros HI Hps Hp.
  destruct (validate_cases self p s) as [[err Hv]|(n & nd & -> & Hn & Hpar & Hv)].
  { apply step_wrap. eapply step_unchanged; [done|done| |apply issued_nil].
    cbn [run_call]. unfold _add_right. by rewrite (bind_Raise _ _ _ _ _ Hv). }
  destruct (_right nd) as [r|] eqn:Er.
  { apply step_wrap. eapply step_unchanged; [done|done| |apply issued_nil].
    cbn [run_call]. unfold _add_right. rewrite (bind_Ok _ _ _ _ _ Hv).
    rewrite (bind_Ok _ _ _ _ _ (getnode_Ok _ _ _ _ Hn)). by rewrite Er. }
  pose proof (Hps _ Hp) as Hcn. simpl in Hcn.
  pose proof (inv_tid _ _ HI _ _ Hcn) as Hlt.
  destruct (lookup_lt_is_Some_2 _ _ Hlt) as [tr Ht].
  pose proof (lookup_lt_Some _ _ _ Hn) as Hnlt.
  set (c := length (nodes s)).
  set (s1 := mkStore (<[n := with_right (Some c) nd]>
                        (nodes s ++ [mkNode e (Some n) None None]))
                     (<[self := with_size (_size tr + 1) tr]> (trees s))).
  assert (Hrun : _add_right self (Some (mkPosition self n)) e s = (s1, Ok (pos self c))).
  { unfold _add_right. rewrite (bind_Ok _ _ _ _ _ Hv). mstep. rewrite Er. simpl.
    do 5 mstep. reflexivity. }
  cbn [run_call]. rewrite Hrun. cbn [handed fst snd].
  assert (Hcr : (cr ++ [self]) !! c = Some self).
  { pose proof (inv_len _ _ HI) as Hl. unfold c. rewrite <- Hl. apply lookup_snoc_new. }
  assert (Hnc : n <> c) by (unfold c; lia).
  assert (Hlen : n < length (nodes s ++ [mkNode e (Some n) None None])).
  { rewrite length_app. simpl. lia. }
  exists [self]. split.
  - apply (Inv_add_child s s1 cr self c eq_refl) with (tr := tr) (n := n); try done.
    + unfold s1. cbn [nodes]. rewrite length_insert, length_app. simpl. lia.
    + intros m Hm. unfold par, s1. cbn [nodes].
      destruct (decide (m = n)) as [->|Hmn].
      * rewrite fld_insert_eq by done. by rewrite Hn.
      * rewrite fld_insert_ne by done. by apply fld_snoc.
    + unfold lft, s1. cbn [nodes]. rewrite fld_insert_ne by done. apply (fld_snoc_new _left).
    + unfold rgt, s1. cbn [nodes]. rewrite fld_insert_ne by done. apply (fld_snoc_new _right).
    + by eapply live_valid.
    + unfold par, s1. cbn [nodes]. rewrite fld_insert_ne by done. apply (fld_snoc_new _parent).
    + right. unfold lft, rgt, s1. cbn [nodes]. rewrite !fld_insert_eq by done.
      rewrite Hn. simpl. by rewrite Er.
    + intros m Hm Hmn. unfold lft, s1. cbn [nodes].
      rewrite fld_insert_ne by done. by apply fld_snoc.
    + intros m Hm Hmn. unfold rgt, s1. cbn [nodes].
      rewrite fld_insert_ne by done. by apply fld_snoc.
  - apply issued_app; [done|]. by apply issued_one.
Qed.

(** *** A node less *)

Lemma owns_ext s s1 cr c m :
  (live s1 m <-> live s m) -> owns s1 cr c m = owns s cr c m.
Proof.
  intros Hl. pose proof (owns_le_1 s cr c m). pose proof (owns_le_1 s1 cr c m).
  pose proof (owns_1 s cr c m) as H1. pose proof (owns_1 s1 cr c m) as H2.
  rewrite Hl in H2. rewrite <- H1 in H2.
  destruct (decide (owns s cr c m = 1)) as [Ho|Ho].
  - apply H2 in Ho as Ho'. congruence.
  - destruct (decide (owns s1 cr c m = 1)) as [Ho'|Ho']; [|lia].
    apply H2 in Ho'. done.
Qed.

Section Delete.
Variables (s s1 : Store E) (cr : list tid) (self : tid) (tr : Tree) (n : loc)
  (pn child : option loc).
Hypothesis HI : Inv s cr.
Hypothesis Hn : live s n.
Hypothesis Hcn : cr !! n = Some self.
Hypothesis Ht : trees s !! self = Some tr.
Hypothesis Hpn : par s n = Some pn.
Hypothesis Hchild :
  lft s n = Some child /\ rgt s n = Some None \/
  lft s n = Some None /\ rgt s n = Some child.
Hypothesis Hlen1 : length (nodes s1) = length (nodes s).
Hypothesis Hpar1 : forall m,
  par s1 m = if decide (m = n) then Some (Some n)
             else if decide (child = Some m) then Some pn else par s m.
Hypothesis Hlft1 : forall m,
  lft s1 m = if decide (pn = Some m /\ lft s m = Some (Some n)) then Some child
             else lft s m.
Hypothesis Hrgt1 : forall m,
  rgt s1 m = if decide (pn = Some m /\ lft s m <> Some (Some n)) then Some child
             else rgt s m.
Hypothesis Ht1 :
  trees s1 = <[self := mkTree (type_ tr)
                         (if decide (_root tr = Some n) then child else _root tr)
                         (_size tr - 1)]> (trees s).

Lemma del_child ch :
  child = Some ch ->
  par s ch = Some (Some n) /\ n < ch /\ live s ch /\ cr !! ch = Some self.
Proof using HI Hn Hcn Hchild Hlen1.
  intros Hch. destruct (inv_down _ _ HI n ch Hn) as [H1 H2].
  { destruct Hchild as [[H _]|[_ H]]; [left|right]; congruence. }
  destruct (inv_up _ _ HI ch n H1 H2) as (H3 & _ & H4 & _).
  split; [done|]. split; [done|]. split; [|congruence].
  exists (Some n). split; [done|]. intros [=]. lia.
Qed.

Lemma del_only_child m :
  lft s n = Some (Some m) \/ rgt s n = Some (Some m) -> child = Some m.
Proof using Hchild.
  destruct Hchild as [[H1 H2]|[H1 H2]]; intros [H|H]; congruence.
Qed.

Lemma del_child_of_n m : par s m = Some (Some n) -> m <> n -> child = Some m.
Proof using HI Hchild.
  intros Hm Hne. destruct (inv_up _ _ HI m n Hm) as (_ & _ & _ & H); [done|].
  by apply del_only_child.
Qed.

Lemma del_parent q :
  pn = Some q ->
  q < n /\ live s q /\ cr !! q = Some self /\
  (lft s q = Some (Some n) \/ rgt s q = Some (Some n)).
Proof using HI Hn Hcn Hpn Hlen1.
  intros Hq. pose proof Hn as (v & Hv & Hne).
  assert (Hpq : par s n = Some (Some q)) by congruence.
  destruct (inv_up _ _ HI n q Hpq) as (H1 & H2 & H3 & H4); [congruence|].
  split; [done|]. split; [done|]. split; [congruence|done].
Qed.

Lemma del_root : pn = None <-> _root tr = Some n.
Proof using HI Hcn Hpn Ht.
  split.
  - intros Hq. assert (Hpq : par s n = Some None) by congruence.
    destruct (inv_top _ _ HI n Hpq) as (c0 & tr0 & H1 & H2 & H3).
    congruence.
  - intros Hr. destruct (inv_root _ _ HI self tr n Ht Hr) as [_ H]. congruence.
Qed.

Lemma del_live m : live s1 m <-> m <> n /\ live s m.
Proof using HI Hn Hcn Hpn Hchild Hpar1 Hlen1.
  unfold live at 1. rewrite Hpar1. destruct (decide (m = n)) as [->|Hne].
  - split; [|by intros [? _]]. intros (v & [= <-] & Hv). done.
  - destruct (decide (child = Some m)) as [Hch|Hch].
    + destruct (del_child m Hch) as (H1 & H2 & H3 & H4). split; [done|].
      intros _. exists pn. split; [done|]. intros Hpm.
      destruct (del_parent m Hpm) as (H5 & _). lia.
    + unfold live. tauto.
Qed.

Lemma Inv_delete : Inv s1 cr.
Proof.
  pose proof HI as [I1 I2 I3 I4 I5 I6 I7 I8].
  pose proof (lookup_lt_Some _ _ _ Ht) as Hlt.
  split.
  - by rewrite Hlen1.
  - intros m c0 Hm. rewrite Ht1, length_insert. by eapply I2.
  - (* the roots *)
    intros c0 tr0 r Ht0 Hr0. rewrite Ht1 in Ht0. rewrite Hpar1.
    destruct (decide (c0 = self)) as [->|Hc0].
    + rewrite list_lookup_insert_eq in Ht0 by done. injection Ht0 as <-.
      cbn [_root] in Hr0. destruct (decide (_root tr = Some n)) as [Hrn|Hrn].
      * destruct (del_child r Hr0) as (H1 & H2 & H3 & H4).
        split; [done|]. rewrite decide_False by lia. rewrite decide_True by done.
        f_equal. by apply del_root.
      * destruct (I3 self tr r Ht Hr0) as [H1 H2]. split; [done|].
        rewrite decide_False by congruence.
        rewrite decide_False; [done|]. intros Hch.
        destruct (del_child r Hch) as (H3 & _). congruence.
    + rewrite list_lookup_insert_ne in Ht0 by done.
      destruct (I3 c0 tr0 r Ht0 Hr0) as [H1 H2]. split; [done|].
      rewrite decide_False by congruence.
      rewrite decide_False; [done|]. intros Hch.
      destruct (del_child r Hch) as (_ & _ & _ & H3). congruence.
  - (* a child names an older parent *)
    intros m q Hm Hne. rewrite Hpar1 in Hm.
    destruct (decide (m = n)) as [->|Hmn]; [congruence|].
    destruct (decide (child = Some m)) as [Hch|Hch].
    + injection Hm as Hq.
      destruct (del_child m Hch) as (H1 & H2 & H3 & H4).
      destruct (del_parent q Hq) as (H5 & H6 & H7 & H8).
      split; [lia|]. split; [apply del_live; split; [lia|done]|].
      split; [congruence|]. rewrite Hlft1, Hrgt1.
      destruct (decide (lft s q = Some (Some n))) as [Hl|Hl].
      * left. rewrite decide_True by done. congruence.
      * right. rewrite decide_True by done. congruence.
    + destruct (I4 m q Hm Hne) as (H1 & H2 & H3 & H4).
      assert (q <> n) as Hqn.
      { intros ->. by apply Hch, del_child_of_n. }
      split; [done|]. split; [by apply del_live|]. split; [done|].
      rewrite Hlft1, Hrgt1.
      destruct (decide (pn = Some q)) as [Hpq|Hpq].
      * destruct (del_parent q Hpq) as (_ & _ & _ & H8).
        destruct (decide (lft s q = Some (Some n))) as [Hl|Hl].
        -- right. rewrite decide_False by tauto.
           destruct H4 as [H4|H4]; [congruence|done].
        -- left. rewrite decide_False by tauto.
           destruct H4 as [H4|H4]; [done|].
           destruct H8 as [H8|H8]; congruence.
      * rewrite !decide_False by tauto. done.
  - (* a node without parent is a root *)
    intros m Hm. rewrite Hpar1 in Hm. rewrite Ht1.
    destruct (decide (m = n)) as [->|Hmn]; [congruence|].
    destruct (decide (child = Some m)) as [Hch|Hch].
    + injection Hm as Hq. apply del_root in Hq as Hrn.
      destruct (del_child m Hch) as (H1 & H2 & H3 & H4).
      eexists self, _. split; [done|].
      split; [by apply list_lookup_insert_eq|]. cbn [_root].
      by rewrite decide_True.
    + destruct (I5 m Hm) as (c0 & tr0 & H1 & H2 & H3).
      destruct (decide (c0 = self)) as [->|Hc0].
      * eexists self, _. split; [done|].
        split; [by apply list_lookup_insert_eq|]. cbn [_root].
        assert (tr0 = tr) as -> by congruence.
        rewrite decide_False by congruence. done.
      * exists c0, tr0. split; [done|]. split; [|done].
        by rewrite list_lookup_insert_ne.
  - (* a parent's child names it *)
    intros q m Hq Hm. apply del_live in Hq as [Hqn Hq].
    rewrite Hlft1, Hrgt1 in Hm. rewrite Hpar1.
    assert (Hold : lft s q = Some (Some m) \/ rgt s q = Some (Some m) ->
              pn <> Some q \/ m <> n ->
              (if decide (m = n) then Some (Some n)
               else if decide (child = Some m) then Some pn else par s m)
              = Some (Some q) /\ q <> m).
    { intros Hm' Hor. destruct (I6 q m Hq Hm') as [H1 H2]. split; [|done].
      assert (m <> n) as Hmn.
      { intros ->. destruct Hor as [Hor|Hor]; [|done]. congruence. }
      rewrite decide_False by done.
      rewrite decide_False; [done|]. intros Hch.
      destruct (del_child m Hch) as (H3 & _). congruence. }
    assert (Hnew : child = Some m -> pn = Some q ->
              (if decide (m = n) then Some (Some n)
               else if decide (child = Some m) then Some pn else par s m)
              = Some (Some q) /\ q <> m).
    { intros Hch Hpq. destruct (del_child m Hch) as (H1 & H2 & H3 & H4).
      destruct (del_parent q Hpq) as (H5 & _).
      rewrite decide_False by lia. rewrite decide_True by done.
      split; [congruence|lia]. }
    destruct (decide (pn = Some q)) as [Hpq|Hpq].
    + destruct (decide (lft s q = Some (Some n))) as [Hl|Hl].
      * rewrite decide_True in Hm by done. rewrite decide_False in Hm by tauto.
        destruct Hm as [Hm|Hm].
        -- apply Hnew; congruence.
        -- apply Hold; [by right|]. right. intros ->. by apply (I7 q n Hq Hl).
      * rewrite decide_False in Hm by tauto. rewrite decide_True in Hm by done.
        destruct Hm as [Hm|Hm].
        -- apply Hold; [by left|]. right. congruence.
        -- apply Hnew; congruence.
    + rewrite !decide_False in Hm by tauto. apply Hold; [done|by left].
  - (* not both the left and the right child *)
    intros q m Hq Hm. apply del_live in Hq as [Hqn Hq].
    rewrite Hlft1 in Hm. rewrite Hrgt1.
    destruct (decide (pn = Some q)) as [Hpq|Hpq].
    + destruct (del_parent q Hpq) as (H5 & _).
      destruct (decide (lft s q = Some (Some n))) as [Hl|Hl].
      * rewrite decide_True in Hm by done. rewrite decide_False by tauto.
        intros Hr. destruct (I6 q m Hq) as [H1 _]; [by right|].
        assert (child = Some m) as Hch by congruence.
        destruct (del_child m Hch) as (H3 & _). assert (n = q) by congruence. lia.
      * rewrite decide_False in Hm by tauto. rewrite decide_True by done.
        intros Hr. destruct (I6 q m Hq) as [H1 _]; [by left|].
        assert (child = Some m) as Hch by congruence.
        destruct (del_child m Hch) as (H3 & _). assert (n = q) by congruence. lia.
    + rewrite decide_False in Hm by tauto. rewrite decide_False by tauto.
      by apply I7.
  - (* the size *)
    intros c0 tr0 Ht0. rewrite Ht1 in Ht0.
    assert (Hothers : forall m, m <> n -> owns s1 cr c0 m = owns s cr c0 m).
    { intros m Hm. apply owns_ext. rewrite del_live. tauto. }
    assert (Hdead : owns s1 cr c0 n = 0).
    { apply owns_0. intros [Hl _]. apply del_live in Hl. tauto. }
    pose proof (live_lt _ _ Hn) as Hnlt.
    destruct (decide (c0 = self)) as [->|Hc0].
    + rewrite list_lookup_insert_eq in Ht0 by done. injection Ht0 as <-.
      cbn [_size]. rewrite (I8 self tr Ht).
      assert (Hcnt : cnt s cr self = S (cnt s1 cr self)); [|lia].
      unfold cnt. rewrite Hlen1. apply (sum_seq_flip _ _ _ 0 n); [lia| |].
      * rewrite Hdead. by apply owns_1.
      * intros m _ Hm. symmetry. by apply Hothers.
    + rewrite list_lookup_insert_ne in Ht0 by done.
      rewrite (I8 c0 tr0 Ht0). f_equal. unfold cnt. rewrite Hlen1.
      apply sum_seq_ext. intros m _. destruct (decide (m = n)) as [->|Hm].
      * rewrite Hdead. apply owns_0. intros [_ Hc]. congruence.
      * symmetry. by apply Hothers.
Qed.

End Delete.

(** *** [delete], run *)

Lemma bind_getnode {A B} (f : _Node E -> A) n (k : A -> M (Store E) B) s v :
  f <$> nodes s !! n = Some v -> (getnode f n ≫= k) s = k v s.
Proof.
  intros H. unfold mbind, M_bind, bind, getnode.
  destruct (nodes s !! n); simpl in *; [by injection H as ->|done].
Qed.

Lemma getnode_eq_fld {A} (f : _Node E -> A) n s v :
  f <$> nodes s !! n = Some v -> getnode f n s = (s, Ok v).
Proof.
  intros H. unfold getnode.
  destruct (nodes s !! n); simpl in *; [by injection H as ->|done].
Qed.

Lemma bind_gettree {A B} (f : Tree -> A) t (k : A -> M (Store E) B) s tr :
  trees s !! t = Some tr -> (gettree f t ≫= k) s = k (f tr) s.
Proof. intros H. by rewrite (bind_Ok _ _ _ _ _ (gettree_Ok _ _ _ _ H)). Qed.

Lemma bind_settree {B} f t (k : unit -> M (Store E) B) s tr :
  trees s !! t = Some tr ->
  (settree f t ≫= k) s = k tt (mkStore (nodes s) (<[t := f tr]> (trees s))).
Proof. intros H. by rewrite (bind_Ok _ _ _ _ _ (settree_Ok _ _ _ _ H)). Qed.

Lemma bind_setnode_lt {B} f n (k : unit -> M (Store E) B) s :
  n < length (nodes s) ->
  (setnode f n ≫= k) s = k tt (mkStore (alter f n (nodes s)) (trees s)).
Proof. intros H. rewrite bind_setnode. by rewrite decide_True. Qed.

(** The last statements of [delete]. *)
Lemma delete_end self n (N : list (_Node E)) T tr e0 :
  T !! self = Some tr -> n < length N -> _element <$> N !! n = Some e0 ->
  (sz ← gettree _size self;
   settree (with_size (sz - 1)%Z) self ;;
   setnode (with_parent (Some n)) n ;;
   getnode _element n) (mkStore N T)
  = (mkStore (alter (with_parent (Some n)) n N)
             (<[self := with_size (_size tr - 1) tr]> T), Ok e0).
Proof.
  intros HT Hn He.
  rewrite (bind_gettree _ _ _ _ tr) by done.
  rewrite (bind_settree _ _ _ _ tr) by done.
  rewrite bind_setnode_lt by done. cbn [nodes trees].
  apply getnode_eq_fld. cbn [nodes]. by rewrite fld_alter_frame.
Qed.

Lemma fld_alter {A} (f : _Node E -> A) g i (l : list (_Node E)) j :
  f <$> alter g i l !! j
  = if decide (i = j) then (fun x => f (g x)) <$> l !! i else f <$> l !! j.
Proof.
  rewrite list_lookup_alter. case_decide; [subst j|done].
  by destruct (l !! i).
Qed.

(** What [delete] does once it knows the one child, if any. *)
#[local] Abbreviation delete_rest self n child :=
  ((if is_not_None child
    then v ← getnode _parent n; setattr "_parent" (with_parent v) child
    else ret tt) ;;
   r ← gettree _root self;
   (if decide (Some n%nat = r)
    then settree (with_root child) self
    else
      parent ← getnode _parent n;
      pl ← getattr "_left" _left parent;
      if decide (Some n%nat = pl)
      then setattr "_left" (with_left child) parent
      else setattr "_right" (with_right child) parent) ;;
   sz ← gettree _size self;
   settree (with_size (sz - 1)%Z) self ;;
   setnode (with_parent (Some n%nat)) n ;;
   getnode _element n).

Lemma delete_head self n s nd child :
  nodes s !! n = Some nd -> _parent nd <> Some n ->
  (_left nd = child /\ _right nd = None \/ _left nd = None /\ _right nd = child) ->
  delete self (Some (mkPosition self n)) s = delete_rest self n child s.
Proof.
  intros Hn Hp Hch.
  assert (Hv : _validate self (Some (mkPosition self n)) s = (s, Ok n)).
  { apply _validate_Ok. eauto. }
  unfold delete. rewrite (bind_Ok _ _ _ _ _ Hv).
  rewrite (bind_Ok _ _ _ _ _ (num_children_Ok _ _ _ _ _ Hv Hn)).
  destruct nd as [e0 up l r]. simpl in Hch.
  assert (Hc2 : ((if is_not_None l then 1 else 0) + (if is_not_None r then 1 else 0) =? 2)%Z = false).
  { destruct Hch as [[-> ->]|[-> ->]]; by destruct child. }
  cbn [_left _right]. rewrite Hc2.
  rewrite (bind_Ok _ _ _ _ _ (getnode_Ok _ _ _ _ Hn)). cbn [_left].
  assert (Hc : (if truthy l then getnode _left n else getnode _right n) s = (s, Ok child)).
  { destruct Hch as [[-> ->]|[-> ->]]; [destruct child|];
      cbn [truthy]; by rewrite (getnode_Ok _ _ _ _ Hn). }
  by rewrite (bind_Ok _ _ _ _ _ Hc).
Qed.

Lemma delete_rest_run self n s cr tr nd child :
  Inv s cr -> nodes s !! n = Some nd -> _parent nd <> Some n ->
  cr !! n = Some self -> trees s !! self = Some tr ->
  (_left nd = child /\ _right nd = None \/ _left nd = None /\ _right nd = child) ->
  exists s1,
    delete_rest self n child s = (s1, Ok (_element nd)) /\
    length (nodes s1) = length (nodes s) /\
    (forall m, par s1 m = if decide (m = n) then Some (Some n)
                          else if decide (child = Some m) then Some (_parent nd)
                          else par s m) /\
    (forall m, lft s1 m = if decide (_parent nd = Some m /\ lft s m = Some (Some n))
                          then Some child else lft s m) /\
    (forall m, rgt s1 m = if decide (_parent nd = Some m /\ lft s m <> Some (Some n))
                          then Some child else rgt s m) /\
    trees s1 = <[self := mkTree (type_ tr)
                           (if decide (_root tr = Some n) then child else _root tr)
                           (_size tr - 1)]> (trees s).
Proof.
  intros HI Hn Hp Hcn Ht Hch.
  pose proof (lookup_lt_Some _ _ _ Hn) as Hnlt.
  assert (Hlive : live s n) by by eapply live_valid.
  assert (Hparn : par s n = Some (_parent nd)) by (unfold par; by rewrite Hn).
  assert (Hlftn : lft s n = Some (_left nd)) by (unfold lft; by rewrite Hn).
  assert (Hrgtn : rgt s n = Some (_right nd)) by (unfold rgt; by rewrite Hn).
  (* the child, if there is one, is a node below [n] *)
  assert (Hchild : forall ch, child = Some ch -> n < ch /\ ch < length (nodes s)).
  { intros ch ->. destruct (inv_down _ _ HI n ch Hlive) as [H1 H2].
    { destruct Hch as [[H _]|[_ H]]; [left|right]; congruence. }
    destruct (inv_up _ _ HI ch n H1 H2) as (H3 & _). split; [done|].
    by apply par_lt in H1. }
  (* the first statement: the child's parent *)
  set (NA := match child with
             | Some ch => alter (with_parent (_parent nd)) ch (nodes s)
             | None => nodes s
             end).
  assert (HA : forall B (k : unit -> M (Store E) B),
    ((if is_not_None child
      then v ← getnode _parent n; setattr "_parent" (with_parent v) child
      else ret tt) ≫= k) s = k tt (mkStore NA (trees s))).
  { intros B k. unfold NA. destruct child as [ch|]; cbn [is_not_None].
    - rewrite bind_assoc. rewrite (bind_getnode _ _ _ _ _ Hparn). cbn [setattr].
      rewrite bind_setnode_lt; [done|]. by apply Hchild.
    - rewrite (bind_Ok (ret tt) k s _ _ eq_refl). by destruct s. }
  assert (HlenA : length NA = length (nodes s)).
  { unfold NA. destruct child; [apply length_alter|done]. }
  assert (HparA : forall m, _parent <$> NA !! m
            = if decide (child = Some m) then Some (_parent nd) else par s m).
  { intros m. unfold NA. destruct child as [ch|].
    - rewrite fld_alter. destruct (decide (ch = m)) as [->|Hne].
      + rewrite decide_True by done. destruct (Hchild m eq_refl) as [_ Hlt].
        destruct (lookup_lt_is_Some_2 _ _ Hlt) as [x ->]. done.
      + rewrite decide_False by congruence. done.
    - by rewrite decide_False. }
  assert (HlftA : forall m, _left <$> NA !! m = lft s m).
  { intros m. unfold NA. destruct child; [by rewrite fld_alter_frame|done]. }
  assert (HrgtA : forall m, _right <$> NA !! m = rgt s m).
  { intros m. unfold NA. destruct child; [by rewrite fld_alter_frame|done]. }
  assert (HelA : _element <$> NA !! n = Some (_element nd)).
  { unfold NA. destruct child; [rewrite fld_alter_frame by done|]; by rewrite Hn. }
  assert (Hnch : child <> Some n).
  { intros H. apply Hchild in H. lia. }
  rewrite HA. rewrite (bind_gettree _ _ _ _ tr) by done.
  destruct (decide (Some n = _root tr)) as [Hr|Hr].
  - (* [node] is the root *)
    destruct (inv_root _ _ HI _ _ _ Ht (eq_sym Hr)) as [_ Hpn].
    assert (Hnone : _parent nd = None) by congruence.
    rewrite (bind_settree _ _ _ _ tr) by done. cbn [nodes trees].
    erewrite (delete_end self n NA _ (with_root child tr));
      [| by apply list_lookup_insert_eq, lookup_lt_Some in Ht
           || (apply list_lookup_insert_eq; by eapply lookup_lt_Some)
       | by rewrite HlenA | done ].
    eexists. split; [reflexivity|]. cbn [nodes trees].
    split; [by rewrite length_alter|].
    split; [|split; [|split]].
    + intros m. unfold par at 1. cbn [nodes]. rewrite fld_alter.
      destruct (decide (n = m)) as [->|Hne].
      * rewrite decide_True by done.
        destruct (lookup_lt_is_Some_2 NA m ltac:(lia)) as [x ->]. done.
      * rewrite (decide_False (P := m = n)) by done. apply HparA.
    + intros m. unfold lft at 1. cbn [nodes]. rewrite fld_alter_frame by done.
      rewrite HlftA. rewrite decide_False; [done|]. rewrite Hnone. by intros [? _].
    + intros m. unfold rgt at 1. cbn [nodes]. rewrite fld_alter_frame by done.
      rewrite HrgtA. rewrite decide_False; [done|]. rewrite Hnone. by intros [? _].
    + rewrite list_insert_insert_eq. rewrite decide_True by done. done.
  - (* [node] has a parent *)
    destruct (_parent nd) as [q|] eqn:Hq.
    2:{ destruct (inv_top _ _ HI n Hparn) as (c & tr' & Hc & Ht' & Hr').
        congruence. }
    assert (Hqn : q <> n) by congruence.
    destruct (inv_up _ _ HI n q Hparn Hqn) as (Hlt & Hliveq & _ & Hside).
    assert (Hqlt : q < length NA) by lia.
    destruct (lookup_lt_is_Some_2 (nodes s) q ltac:(lia)) as [qd Hqd].
    assert (Hlq : lft s q = Some (_left qd)) by (unfold lft; by rewrite Hqd).
    assert (Hrootn : _root tr <> Some n) by congruence.
    assert (HparAn : _parent <$> (nodes (mkStore NA (trees s))) !! n = Some (Some q)).
    { cbn [nodes]. rewrite HparA. by rewrite decide_False. }
    assert (HlftAq : _left <$> (nodes (mkStore NA (trees s))) !! q = Some (_left qd)).
    { cbn [nodes]. by rewrite HlftA. }
    rewrite bind_assoc. rewrite (bind_getnode _ _ _ _ _ HparAn).
    rewrite bind_assoc. cbn [getattr]. rewrite (bind_getnode _ _ _ _ _ HlftAq).
    destruct (decide (Some n = _left qd)) as [Hl|Hl]; cbn [setattr];
      rewrite bind_setnode_lt by done; cbn [nodes trees];
      (erewrite (delete_end self n _ _ tr);
        [| done | by rewrite length_alter, HlenA
         | by rewrite fld_alter_frame ]);
      (eexists; split; [reflexivity|]); cbn [nodes trees];
      (split; [by rewrite !length_alter|]);
      (split; [|split; [|split]]).
    + intros m. unfold par at 1. cbn [nodes]. rewrite fld_alter.
      destruct (decide (n = m)) as [->|Hne].
      * rewrite decide_True by done.
        rewrite list_lookup_alter_ne by done.
        destruct (lookup_lt_is_Some_2 NA m ltac:(lia)) as [x ->]. done.
      * rewrite (decide_False (P := m = n)) by done.
        rewrite fld_alter_frame by done. apply HparA.
    + intros m. unfold lft at 1. cbn [nodes]. rewrite fld_alter_frame by done.
      rewrite fld_alter. destruct (decide (q = m)) as [->|Hne].
      * rewrite decide_True by (split; congruence).
        destruct (lookup_lt_is_Some_2 NA m ltac:(lia)) as [x ->]. done.
      * rewrite decide_False by (intros [? _]; congruence). apply HlftA.
    + intros m. unfold rgt at 1. cbn [nodes]. rewrite fld_alter_frame by done.
      rewrite fld_alter_frame by done. rewrite HrgtA.
      rewrite decide_False; [done|]. intros [[= <-] H]. congruence.
    + rewrite decide_False by done. by destruct tr.
    + intros m. unfold par at 1. cbn [nodes]. rewrite fld_alter.
      destruct (decide (n = m)) as [->|Hne].
      * rewrite decide_True by done.
        rewrite list_lookup_alter_ne by done.
        destruct (lookup_lt_is_Some_2 NA m ltac:(lia)) as [x ->]. done.
      * rewrite (decide_False (P := m = n)) by done.
        rewrite fld_alter_frame by done. apply HparA.
    + intros m. unfold lft at 1. cbn [nodes]. rewrite fld_alter_frame by done.
      rewrite fld_alter_frame by done. rewrite HlftA.
      rewrite decide_False; [done|]. intros [[= <-] H]. congruence.
    + intros m. unfold rgt at 1. cbn [nodes]. rewrite fld_alter_frame by done.
      rewrite fld_alter. destruct (decide (q = m)) as [->|Hne].
      * rewrite decide_True by (split; congruence).
        destruct (lookup_lt_is_Some_2 NA m ltac:(lia)) as [x ->]. done.
      * rewrite decide_False by (intros [? _]; congruence). apply HrgtA.
    + rewrite decide_False by done. by destruct tr.
Qed.

Lemma step_delete self p s cr ps :
  Inv s cr -> issued cr ps -> p ∈ ps ->
  Inv (run_call (call_delete self p) s).1 cr /\
  issued cr (ps ++ (run_call (call_delete self p) s).2).
Proof.
  intros HI Hps Hp.
  destruct (validate_cases self p s) as [[err Hv]|(n & nd & -> & Hn & Hpar & Hv)].
  { eapply step_unchanged; [done|done| |apply issued_nil].
    cbn [run_call]. unfold delete. by rewrite (bind_Raise _ _ _ _ _ Hv). }
  pose proof (Hps _ Hp) as Hcn. simpl in Hcn.
  pose proof (inv_tid _ _ HI _ _ Hcn) as Hlt.
  destruct (lookup_lt_is_Some_2 _ _ Hlt) as [tr Ht].
  assert (Hcases :
    (exists child, _left nd = child /\ _right nd = None \/
                   _left nd = None /\ _right nd = child) \/
    (exists l r, _left nd = Some l /\ _right nd = Some r)).
  { destruct (_left nd), (_right nd); eauto 10. }
  destruct Hcases as [[child Hch]|(l & r & Hl & Hr)].
  - destruct (delete_rest_run self n s cr tr nd child HI Hn Hpar Hcn Ht Hch)
      as (s1 & Hrun & Hlen1 & Hpar1 & Hlft1 & Hrgt1 & Ht1).
    cbn [run_call]. rewrite (delete_head _ _ _ _ _ Hn Hpar Hch), Hrun.
    cbn [handed fst snd].
    split; [|by apply issued_app_nil; [|apply issued_nil]].
    apply (Inv_delete s s1 cr self tr n (_parent nd) child); try done.
    + by eapply live_valid.
    + unfold par. by rewrite Hn.
    + unfold lft, rgt. rewrite Hn. simpl. destruct Hch as [[-> ->]|[-> ->]]; auto.
  - eapply step_unchanged; [done|done| |apply issued_nil].
    cbn [run_call]. unfold delete. rewrite (bind_Ok _ _ _ _ _ Hv).
    rewrite (bind_Ok _ _ _ _ _ (num_children_Ok _ _ _ _ _ Hv Hn)).
    by rewrite Hl, Hr.
Qed.

(** *** Every call keeps the invariant *)

Lemma step (c : method_call E) s cr ps :
  Inv s cr -> issued cr ps -> (forall p, p ∈ args c -> p ∈ ps) ->
  exists cr', Inv (run_call c s).1 (cr ++ cr') /\
              issued (cr ++ cr') (ps ++ (run_call c s).2).
Proof.
  intros HI Hps Hargs.
  destruct c as [cls|self|self p|self p|self p|self e|self p e|self p e|self p e|self p];
    try (assert (Hp : p ∈ ps) by (apply Hargs; apply list_elem_of_here)).
  - apply step_wrap. by apply step_init.
  - apply step_wrap. by apply step_root.
  - apply step_wrap. by apply step_parent.
  - apply step_wrap. by apply step_left.
  - apply step_wrap. by apply step_right.
  - by apply step_add_root.
  - by apply step_add_left.
  - by apply step_add_right.
  - apply step_wrap. by apply step_replace.
  - apply step_wrap. by apply step_delete.
Qed.

Lemma Inv_start : Inv (mkStore (E:=E) [] []) [].
Proof.
  split; try done.
  by intros q m [v [Hv _]].
Qed.

Lemma reach_Inv s ps : reach s ps -> exists cr, Inv s cr /\ issued cr ps.
Proof.
  induction 1 as [|s ps c _ (cr & HI & Hps) Hargs].
  - exists []. split; [apply Inv_start|]. by apply issued_one.
  - destruct (step c s cr ps HI Hps Hargs) as (cr' & HI' & Hps'). eauto.
Qed.

(** *** The nodes of a tree *)

Lemma below_le s cr a x : Inv s cr -> below s a x -> a <= x.
Proof.
  intros HI. induction 1 as [|q x _ IH Hp Hne]; [done|].
  destruct (inv_up _ _ HI x q Hp Hne) as [Hlt _]. lia.
Qed.

Lemma below_trans s a b x : below s a b -> below s b x -> below s a x.
Proof.
  intros Hab. induction 1 as [|q x _ IH Hp Hne]; [done|].
  by eapply below_step.
Qed.

Lemma below_chain s a b x : below s a x -> below s b x -> below s a b \/ below s b a.
Proof.
  induction 1 as [|q x Hq IH Hp Hne]; [by right|].
  intros Hb. inversion Hb as [|q' x' Hq' Hp' Hne']; subst.
  - left. by eapply below_step.
  - apply IH. congruence.
Qed.

Lemma below_live s cr a x :
  Inv s cr -> live s a -> below s a x -> live s x /\ cr !! x = cr !! a.
Proof.
  intros HI Ha. induction 1 as [|q x _ [IH1 IH2] Hp Hne]; [done|].
  destruct (inv_up _ _ HI x q Hp Hne) as (_ & _ & Hc & _).
  split; [|congruence]. exists (Some q). split; [done|congruence].
Qed.

(** The nodes of a tree object are the live nodes made for it. *)
Lemma root_below s cr c tr r x :
  Inv s cr -> trees s !! c = Some tr -> _root tr = Some r ->
  below s r x <-> live s x /\ cr !! x = Some c.
Proof.
  intros HI Ht Hr. destruct (inv_root _ _ HI c tr r Ht Hr) as [Hc Hp].
  assert (Hlr : live s r) by (by exists None).
  split.
  - intros Hb. destruct (below_live s cr r x HI Hlr Hb) as [H1 H2].
    split; [done|congruence].
  - induction x as [x IH] using lt_wf_ind. intros [(v & Hv & Hne) Hcx].
    destruct v as [q|].
    + assert (Hqx : q <> x) by congruence.
      destruct (inv_up _ _ HI x q Hv Hqx) as (Hlt & Hq & Hcq & _).
      apply (below_step _ _ q); [|done|done].
      apply IH; [done|]. split; [done|congruence].
    + destruct (inv_top _ _ HI x Hv) as (c' & tr' & Hc' & Ht' & Hr').
      assert (c' = c) by congruence. subst c'.
      assert (x = r) by congruence. subst x. apply below_refl.
Qed.

(** What hangs below a child reference. *)
Lemma subtree_exists s cr :
  Inv s cr ->
  forall m, live s m ->
    exists t, shape s (Some m) t /\
              (forall x, x ∈ inorder_spec t <-> below s m x) /\
              NoDup (inorder_spec t).
Proof.
  intros HI.
  assert (Hmeasure : forall k m, length (nodes s) - m <= k -> live s m ->
    exists t, shape s (Some m) t /\
              (forall x, x ∈ inorder_spec t <-> below s m x) /\
              NoDup (inorder_spec t)); [|by eauto].
  induction k as [|k IH]; intros m Hk Hm.
  { apply live_lt in Hm. lia. }
  pose proof (live_lt _ _ Hm) as Hmlt.
  destruct (lookup_lt_is_Some_2 _ _ Hmlt) as [nd Hnd].
  assert (Hlm : lft s m = Some (_left nd)) by (unfold lft; by rewrite Hnd).
  assert (Hrm : rgt s m = Some (_right nd)) by (unfold rgt; by rewrite Hnd).
  assert (Hpm : _parent nd <> Some m).
  { destruct Hm as (v & Hv & Hne). unfold par in Hv. rewrite Hnd in Hv.
    simpl in Hv. congruence. }
  (* a child reference and the tree below it *)
  assert (Hsub : forall o,
    (forall c, o = Some c -> lft s m = Some (Some c) \/ rgt s m = Some (Some c)) ->
    exists t, shape s o t /\
              (forall x, x ∈ inorder_spec t <-> exists c, o = Some c /\ below s c x) /\
              NoDup (inorder_spec t)).
  { intros [c|] Ho.
    - destruct (inv_down _ _ HI m c Hm (Ho c eq_refl)) as [Hpc Hne].
      destruct (inv_up _ _ HI c m Hpc Hne) as (Hlt & _).
      assert (Hc : live s c).
      { exists (Some m). split; [done|]. congruence. }
      destruct (IH c ltac:(lia) Hc) as (t & Hsh & Hin & Hnd').
      exists t. split; [done|]. split; [|done].
      intros x. rewrite Hin. split; [by eauto|]. by intros (c' & [= <-] & ?).
    - exists Leaf. split; [done|]. split; [|constructor].
      intros x. split; [by intros ?%elem_of_nil|]. by intros (c & ? & _). }
  destruct (Hsub (_left nd)) as (tl & Hshl & Hinl & Hndl).
  { intros c Hc. left. congruence. }
  destruct (Hsub (_right nd)) as (tr & Hshr & Hinr & Hndr).
  { intros c Hc. right. congruence. }
  assert (Hkid : forall c x, lft s m = Some (Some c) \/ rgt s m = Some (Some c) ->
            below s c x -> m < c /\ c <= x /\ below s m x /\ par s c = Some (Some m)).
  { intros c x Hc Hb.
    destruct (inv_down _ _ HI m c Hm Hc) as [Hpc Hne].
    destruct (inv_up _ _ HI c m Hpc Hne) as (Hlt & _).
    split; [done|]. split; [by eapply below_le|]. split; [|done].
    eapply below_trans; [|done]. eapply below_step; [apply below_refl|done|done]. }
  exists (Nd tl m tr). split; [|split].
  - split; [done|]. exists nd. done.
  - intros x. simpl. rewrite elem_of_app, elem_of_cons, Hinl, Hinr. split.
    + intros [(c & Hc & Hb)|[->|(c & Hc & Hb)]].
      * apply (Hkid c x); [left; congruence|done].
      * apply below_refl.
      * apply (Hkid c x); [right; congruence|done].
    + induction 1 as [|q x Hq IHq Hp Hne]; [by auto|].
      destruct IHq as [(c & Hc & Hb)|[->|(c & Hc & Hb)]].
      * left. exists c. split; [done|]. by eapply below_step.
      * destruct (inv_up _ _ HI x m Hp Hne) as (_ & _ & _ & [Hx|Hx]).
        -- left. exists x. split; [congruence|apply below_refl].
        -- right. right. exists x. split; [congruence|apply below_refl].
      * right. right. exists c. split; [done|]. by eapply below_step.
  - simpl. apply NoDup_app. split; [done|]. split.
    + intros x (c & Hc & Hb)%Hinl Hx.
      assert (Hcl : lft s m = Some (Some c)) by congruence.
      destruct (Hkid c x (or_introl Hcl) Hb) as (Hmc & Hcx & _ & Hpc).
      apply elem_of_cons in Hx as [->|(c' & Hc' & Hb')%Hinr]; [lia|].
      assert (Hcr : rgt s m = Some (Some c')) by congruence.
      destruct (Hkid c' x (or_intror Hcr) Hb') as (Hmc' & _ & _ & Hpc').
      assert (Hcc : c <> c').
      { intros <-. by apply (inv_lr _ _ HI m c Hm Hcl). }
      destruct (below_chain s c c' x Hb Hb') as [H|H];
        inversion H as [|q y Hq Hp Hne]; subst; try done.
      * assert (q = m) by congruence. subst q.
        apply (below_le s cr) in Hq; [lia|done].
      * assert (q = m) by congruence. subst q.
        apply (below_le s cr) in Hq; [lia|done].
    + apply NoDup_cons. split; [|done].
      intros (c & Hc & Hb)%Hinr.
      assert (Hcr : rgt s m = Some (Some c)) by congruence.
      destruct (Hkid c m (or_intror Hcr) Hb) as (? & ? & _). lia.
Qed.

(** The number of nodes of a list without repetition. *)
Lemma length_sum_owns (f : nat -> nat) (l : list nat) n :
  (forall x, f x <= 1) -> NoDup l ->
  (forall x, x ∈ l <-> x < n /\ f x = 1) ->
  length l = sum_list_with f (seq 0 n).
Proof.
  intros Hf. revert l. induction n as [|n IH]; intros l Hnd Hl.
  - destruct l as [|x l]; [done|].
    destruct (proj1 (Hl x) ltac:(left)) as [? _]. lia.
  - rewrite sum_seq_snoc. destruct (decide (f n = 1)) as [H1|H0].
    + assert (Hin : n ∈ l) by (apply Hl; split; [lia|done]).
      apply list_elem_of_split in Hin as (l1 & l2 & ->).
      apply NoDup_app in Hnd as (Hn1 & Hd & Hn2).
      apply NoDup_cons in Hn2 as [Hn2 Hn3].
      rewrite length_app. simpl.
      rewrite <- (IH (l1 ++ l2)), length_app; [lia| |].
      * apply NoDup_app. split; [done|]. split; [|done].
        intros x Hx Hx'. apply (Hd x Hx). by right.
      * intros x. rewrite elem_of_app. split.
        -- intros Hx.
           assert (Hx' : x ∈ l1 ++ n :: l2).
           { rewrite elem_of_app, elem_of_cons. tauto. }
           apply Hl in Hx' as [Hlt Hfx]. split; [|done].
           assert (x <> n); [|lia]. intros ->. destruct Hx as [Hx|Hx]; [|done].
           apply (Hd n Hx). by left.
        -- intros [Hlt Hfx].
           assert (Hx' : x ∈ l1 ++ n :: l2) by (apply Hl; split; [lia|done]).
           rewrite elem_of_app, elem_of_cons in Hx'.
           destruct Hx' as [?|[->|?]]; [by left|lia|by right].
    + pose proof (Hf n). rewrite <- (IH l); [lia|done|].
      intros x. rewrite Hl. split.
      * intros [Hlt Hfx]. split; [|done].
        assert (x <> n); [|lia]. by intros ->.
      * intros [Hlt Hfx]. split; [lia|done].
Qed.

(** Every tree object of a store has a shape, and its count is the number
    of nodes of that shape. *)
Lemma Inv_shape s cr self tr :
  Inv s cr -> trees s !! self = Some tr ->
  exists t, shape s (_root tr) t /\ NoDup (inorder_spec t) /\
            _size tr = Z.of_nat (count t).
Proof.
  intros HI Ht. rewrite (inv_size _ _ HI _ _ Ht).
  destruct (_root tr) as [r|] eqn:Hr.
  - destruct (inv_root _ _ HI _ _ _ Ht Hr) as [Hc Hp].
    assert (Hlr : live s r) by (by exists None).
    destruct (subtree_exists s cr HI r Hlr) as (t & Hsh & Hin & Hnd).
    exists t. split; [done|]. split; [done|]. f_equal.
    rewrite <- length_inorder_spec. symmetry. unfold cnt.
    apply length_sum_owns; [apply owns_le_1|done|].
    intros x. rewrite Hin, (root_below s cr self tr r x HI Ht Hr), owns_1.
    split; [|tauto]. intros [Hl Hx]. split; [|done]. by apply live_lt.
  - exists Leaf. split; [done|]. split; [constructor|].
    by rewrite (no_root_cnt s cr self tr HI Ht Hr).
Qed.

(** X27. A store that a program made from nothing with [LinkedBinaryTree()],
    [root], [parent], [left], [right], [_add_root], [_add_left],
    [_add_right], [replace] and [delete], on the positions these calls gave
    it: every tree object in it is a finite binary tree.  [positions] ends
    and yields every node of the tree once, [len] is the number of these
    positions, and [is_empty] holds exactly when [root] is [None]. *)
Theorem len_counts_positions s ps self tr :
  reach s ps -> trees s !! self = Some tr ->
  exists t,
    shape s (_root tr) t /\ NoDup (inorder_spec t) /\
    __len__ self s = (s, Ok (Z.of_nat (length (inorder_spec t)))) /\
    (is_empty self s = (s, Ok true) <-> root self s = (s, Ok None)) /\
    forall fuel, depth t <= fuel ->
      positions fuel self s = Some (s, pos self <$> inorder_spec t, Ok tt).
Proof.
  intros Hreach Ht. destruct (reach_Inv s ps Hreach) as (cr & HI & _).
  destruct (Inv_shape s cr self tr HI Ht) as (t & Hsh & Hnd & Hsz).
  exists t. split; [done|]. split; [done|].
  assert (Hlen : __len__ self s = (s, Ok (Z.of_nat (length (inorder_spec t))))).
  { rewrite length_inorder_spec, <- Hsz. by apply gettree_Ok. }
  split; [done|]. split.
  - rewrite (is_empty_Ok _ _ _ Ht ltac:(lia)), Hsz.
    rewrite (root_Ok _ _ _ Ht).
    destruct t as [|l n r]; simpl in Hsh.
    + by rewrite Hsh.
    + destruct Hsh as [-> _]. split; intros [=].
  - intros fuel Hfuel. destruct t as [|l n r].
    + unfold positions, inorder.
      rewrite (gbind_call_Ok _ _ _ _ _ (is_empty_Ok _ _ _ Ht ltac:(lia))).
      by rewrite Hsz.
    + unfold positions. apply inorder_shape with (tr := tr); try done.
      rewrite Hsz. simpl. lia.
Qed.

(** *** The positions after [delete] *)

Lemma shape_Nd s o l n r :
  shape s o (Nd l n r) <->
  o = Some n /\ live s n /\
  exists a b, lft s n = Some a /\ rgt s n = Some b /\ shape s a l /\ shape s b r.
Proof.
  simpl. split.
  - intros (-> & nd & Hn & Hp & Hl & Hr). split; [done|].
    split; [by eapply live_valid|].
    exists (_left nd), (_right nd). unfold lft, rgt. by rewrite Hn.
  - intros (-> & (v & Hv & Hne) & a & b & Ha & Hb & Hl & Hr). split; [done|].
    unfold par, lft, rgt in *. destruct (nodes s !! n) as [nd|]; [|done].
    simpl in *. exists nd. split; [done|].
    injection Hv as <-. injection Ha as <-. injection Hb as <-. done.
Qed.

Lemma shape_None s t : shape s None t -> t = Leaf.
Proof. destruct t; [done|]. by intros [? _]. Qed.

Lemma shape_functional s t : forall o t', shape s o t -> shape s o t' -> t = t'.
Proof.
  induction t as [|l IHl n r IHr]; intros o t' H H'.
  - simpl in H. subst o. by apply shape_None in H'.
  - destruct t' as [|l' n' r']; [by destruct H as [-> _]|].
    destruct H as (-> & nd & Hn & _ & Hl & Hr).
    destruct H' as ([= <-] & nd' & Hn' & _ & Hl' & Hr').
    assert (nd' = nd) by congruence. subst. f_equal; eauto.
Qed.

(** The nodes of a subtree are newer than the node above it. *)
Lemma shape_ge s cr t :
  Inv s cr ->
  forall o x, shape s o t -> x ∈ inorder_spec t -> exists c, o = Some c /\ c <= x.
Proof.
  intros HI. induction t as [|l IHl n r IHr]; intros o x Hsh Hx.
  - by apply elem_of_nil in Hx.
  - apply shape_Nd in Hsh as (-> & Hn & a & b & Ha & Hb & Hl & Hr).
    exists n. split; [done|]. simpl in Hx.
    apply elem_of_app in Hx as [Hx|Hx];
      [|apply elem_of_cons in Hx as [->|Hx]; [done|]].
    + destruct (IHl _ _ Hl Hx) as (c & -> & Hc).
      destruct (inv_down _ _ HI n c Hn (or_introl Ha)) as [Hp Hne].
      destruct (inv_up _ _ HI c n Hp Hne) as [Hlt _]. lia.
    + destruct (IHr _ _ Hr Hx) as (c & -> & Hc).
      destruct (inv_down _ _ HI n c Hn (or_intror Hb)) as [Hp Hne].
      destruct (inv_up _ _ HI c n Hp Hne) as [Hlt _]. lia.
Qed.

Lemma filter_newer n (l : list loc) :
  (forall x, x ∈ l -> n < x) -> filter (fun x => x <> n) l = l.
Proof.
  induction l as [|y l IH]; intros Hl; [done|].
  rewrite filter_cons. rewrite decide_True.
  - f_equal. apply IH. intros x Hx. apply Hl. by right.
  - specialize (Hl y ltac:(left)). lia.
Qed.

(** The nodes of a tree object, as its shape has them. *)
Lemma Inv_shape_nodes s cr self tr t x :
  Inv s cr -> trees s !! self = Some tr -> shape s (_root tr) t ->
  x ∈ inorder_spec t <-> live s x /\ cr !! x = Some self.
Proof.
  intros HI Ht Hsh. destruct (_root tr) as [r|] eqn:Hr.
  - destruct (inv_root _ _ HI _ _ _ Ht Hr) as [Hc Hp].
    assert (Hlr : live s r) by (by exists None).
    destruct (subtree_exists s cr HI r Hlr) as (t' & Hsh' & Hin & _).
    rewrite (shape_functional _ _ _ _ Hsh Hsh'), Hin.
    by apply root_below with (tr := tr).
  - apply shape_None in Hsh as ->. split; [by intros ?%elem_of_nil|].
    intros H. by destruct (no_root_no_node s cr self tr HI Ht Hr x).
Qed.

Lemma positions_shape self s tr t fuel :
  trees s !! self = Some tr -> shape s (_root tr) t ->
  _size tr = Z.of_nat (count t) -> depth t <= fuel ->
  positions fuel self s = Some (s, pos self <$> inorder_spec t, Ok tt).
Proof.
  intros Ht Hsh Hsz Hfuel. destruct t as [|l n r].
  - unfold positions, inorder.
    rewrite (gbind_call_Ok _ _ _ _ _ (is_empty_Ok _ _ _ Ht ltac:(lia))).
    by rewrite Hsz.
  - unfold positions. apply inorder_shape with (tr := tr); try done.
    rewrite Hsz. simpl. lia.
Qed.

Section DeleteShape.
Variables (s s1 : Store E) (cr : list tid) (n : loc) (pn child : option loc).
Hypothesis HI : Inv s cr.
Hypothesis Hn : live s n.
Hypothesis Hpn : par s n = Some pn.
Hypothesis Hchild :
  lft s n = Some child /\ rgt s n = Some None \/
  lft s n = Some None /\ rgt s n = Some child.
Hypothesis Hpar1 : forall m,
  par s1 m = if decide (m = n) then Some (Some n)
             else if decide (child = Some m) then Some pn else par s m.
Hypothesis Hlft1 : forall m,
  lft s1 m = if decide (pn = Some m /\ lft s m = Some (Some n)) then Some child
             else lft s m.
Hypothesis Hrgt1 : forall m,
  rgt s1 m = if decide (pn = Some m /\ lft s m <> Some (Some n)) then Some child
             else rgt s m.

Lemma del_above q : pn = Some q -> q < n.
Proof.
  intros Hq. pose proof Hpn as Hp. rewrite Hq in Hp.
  assert (Hne : q <> n).
  { pose proof Hn as (v & Hv & Hne). congruence. }
  by destruct (inv_up _ _ HI n q Hp Hne) as [? _].
Qed.

Lemma del_below c : child = Some c -> n < c.
Proof.
  intros Hc. destruct (inv_down _ _ HI n c Hn) as [Hp Hne].
  { pose proof Hchild as [[H _]|[_ H]]; [left|right]; congruence. }
  by destruct (inv_up _ _ HI c n Hp Hne) as [? _].
Qed.

Lemma del_kid m : live s m ->
  lft s m = Some (Some n) \/ rgt s m = Some (Some n) -> pn = Some m.
Proof.
  intros Hm Hk. destruct (inv_down _ _ HI m n Hm Hk) as [Hp _]. congruence.
Qed.

Lemma del_child_newer t x : shape s child t -> x ∈ inorder_spec t -> n < x.
Proof.
  intros Hsh Hx. destruct (shape_ge s cr t HI _ _ Hsh Hx) as (c & Hc & Hle).
  apply del_below in Hc. lia.
Qed.

(** A subtree of newer nodes stays as it is. *)
Lemma del_frame t : forall o,
  shape s o t -> (forall x, x ∈ inorder_spec t -> n < x) -> shape s1 o t.
Proof.
  induction t as [|l IHl m r IHr]; intros o Hsh Hgt; [done|].
  apply shape_Nd in Hsh as (-> & Hm & a & b & Ha & Hb & Hl & Hr).
  assert (Hin : forall x, x ∈ inorder_spec l \/ x = m \/ x ∈ inorder_spec r -> n < x).
  { intros x Hx. apply Hgt. simpl. rewrite elem_of_app, elem_of_cons. tauto. }
  assert (Hnm : n < m) by (apply Hin; auto).
  assert (Hpm : pn <> Some m).
  { intros Hq. apply del_above in Hq. lia. }
  apply shape_Nd. split; [done|]. split.
  - pose proof Hm as (v & Hv & Hne). unfold live. rewrite Hpar1.
    rewrite decide_False by lia.
    destruct (decide (child = Some m)); [exists pn|exists v]; done.
  - exists a, b. rewrite Hlft1, Hrgt1.
    rewrite !decide_False by (by intros [? _]).
    split; [done|]. split; [done|].
    split; [apply IHl|apply IHr]; try done; intros x Hx; apply Hin; auto.
Qed.

Lemma shape_delete t : forall o,
  shape s o t ->
  shape s1 (if decide (o = Some n) then child else o) (remove_node n t).
Proof.
  induction t as [|l IHl m r IHr]; intros o Hsh.
  - simpl in Hsh. rewrite Hsh. by rewrite decide_False.
  - apply shape_Nd in Hsh as (-> & Hm & a & b & Ha & Hb & Hl & Hr). simpl.
    destruct (decide (m = n)) as [Hmn|Hmn].
    + rewrite decide_True by congruence. rewrite Hmn in Ha, Hb.
      pose proof Hchild as [[H1 H2]|[H1 H2]].
      * assert (Ea : a = child) by congruence. rewrite Ea in Hl.
        assert (Eb : b = None) by congruence. rewrite Eb in Hr.
        apply shape_None in Hr. rewrite Hr.
        destruct l as [|ll lm lr]; [exact Hl|].
        apply del_frame; [done|]. intros x Hx. by eapply del_child_newer.
      * assert (Ea : a = None) by congruence. rewrite Ea in Hl.
        assert (Eb : b = child) by congruence. rewrite Eb in Hr.
        apply shape_None in Hl. rewrite Hl.
        apply del_frame; [done|]. intros x Hx. by eapply del_child_newer.
    + rewrite decide_False by congruence.
      apply shape_Nd. split; [done|]. split.
      * unfold live. rewrite Hpar1, decide_False by done.
        destruct (decide (child = Some m)) as [Hc|Hc].
        -- exists pn. split; [done|]. intros Hq.
           apply del_below in Hc. apply del_above in Hq. lia.
        -- pose proof Hm as (v & Hv & Hne). by exists v.
      * exists (if decide (a = Some n) then child else a),
               (if decide (b = Some n) then child else b).
        split; [|split; [|split; [by apply IHl|by apply IHr]]].
        -- rewrite Hlft1. destruct (decide (a = Some n)) as [Ea|Ea].
           ++ rewrite decide_True; [done|]. split; [|congruence].
              apply del_kid; [done|]. left. congruence.
           ++ rewrite decide_False; [done|]. intros [_ H]. congruence.
        -- rewrite Hrgt1. destruct (decide (b = Some n)) as [Eb|Eb].
           ++ rewrite decide_True; [done|]. split.
              ** apply del_kid; [done|]. right. congruence.
              ** intros Hl'. apply (inv_lr _ _ HI m n Hm Hl'). congruence.
           ++ rewrite decide_False; [done|]. intros [Hq Hl'].
              pose proof Hpn as Hp. rewrite Hq in Hp.
              assert (Hne : m <> n) by done.
              destruct (inv_up _ _ HI n m Hp Hne) as (_ & _ & _ & [H|H]);
                congruence.
Qed.

Lemma inorder_remove_node t : forall o,
  shape s o t ->
  inorder_spec (remove_node n t) = filter (fun x => x <> n) (inorder_spec t).
Proof.
  induction t as [|l IHl m r IHr]; intros o Hsh; [done|].
  apply shape_Nd in Hsh as (-> & Hm & a & b & Ha & Hb & Hl & Hr). simpl.
  rewrite filter_app, filter_cons.
  destruct (decide (m = n)) as [Hmn|Hmn].
  - rewrite decide_False by (intros H; by apply H). rewrite Hmn in Ha, Hb.
    pose proof Hchild as [[H1 H2]|[H1 H2]].
    + assert (Ea : a = child) by congruence. rewrite Ea in Hl.
      assert (Eb : b = None) by congruence. rewrite Eb in Hr.
      apply shape_None in Hr. rewrite Hr. simpl. rewrite app_nil_r.
      rewrite filter_newer by (intros x Hx; by eapply del_child_newer).
      by destruct l.
    + assert (Ea : a = None) by congruence. rewrite Ea in Hl.
      assert (Eb : b = child) by congruence. rewrite Eb in Hr.
      apply shape_None in Hl. rewrite Hl. simpl.
      by rewrite filter_newer by (intros x Hx; by eapply del_child_newer).
  - rewrite decide_True by done. simpl. by rewrite (IHl _ Hl), (IHr _ Hr).
Qed.

End DeleteShape.

(** X28. In a store a program made (as above), [delete(p)] that returns
    takes the position [p], and no other, out of what [positions] yields:
    the other positions come in the order they came in before. *)
Theorem delete_removes_position s ps self p e s1 :
  reach s ps -> p ∈ ps -> delete self p s = (s1, Ok e) ->
  exists n ns,
    p = pos self n /\ n ∈ ns /\ NoDup ns /\
    forall fuel, length ns <= fuel ->
      positions fuel self s = Some (s, pos self <$> ns, Ok tt) /\
      positions fuel self s1
      = Some (s1, pos self <$> filter (fun x => x <> n) ns, Ok tt).
Proof.
  intros Hreach Hp Hdel. destruct (reach_Inv s ps Hreach) as (cr & HI & Hps).
  destruct (validate_cases self p s) as [[err Hv]|(n & nd & -> & Hn & Hpar & Hv)].
  { unfold delete in Hdel. by rewrite (bind_Raise _ _ _ _ _ Hv) in Hdel. }
  pose proof (Hps _ Hp) as Hcn. simpl in Hcn.
  pose proof (inv_tid _ _ HI _ _ Hcn) as Hlt.
  destruct (lookup_lt_is_Some_2 _ _ Hlt) as [tr Ht].
  assert (Hcases :
    (exists child, _left nd = child /\ _right nd = None \/
                   _left nd = None /\ _right nd = child) \/
    (exists l r, _left nd = Some l /\ _right nd = Some r)).
  { destruct (_left nd), (_right nd); eauto 10. }
  destruct Hcases as [[child Hch]|(l & r & Hl & Hr)]; cycle 1.
  { unfold delete in Hdel. rewrite (bind_Ok _ _ _ _ _ Hv) in Hdel.
    rewrite (bind_Ok _ _ _ _ _ (num_children_Ok _ _ _ _ _ Hv Hn)) in Hdel.
    rewrite Hl, Hr in Hdel. simpl in Hdel. discriminate Hdel. }
  destruct (delete_rest_run self n s cr tr nd child HI Hn Hpar Hcn Ht Hch)
    as (s1' & Hrun & Hlen1 & Hpar1 & Hlft1 & Hrgt1 & Ht1).
  rewrite (delete_head _ _ _ _ _ Hn Hpar Hch), Hrun in Hdel.
  injection Hdel as -> _.
  assert (Hlive : live s n) by by eapply live_valid.
  assert (Hpn : par s n = Some (_parent nd)) by (unfold par; by rewrite Hn).
  assert (Hchild : lft s n = Some child /\ rgt s n = Some None \/
                   lft s n = Some None /\ rgt s n = Some child).
  { unfold lft, rgt. rewrite Hn. simpl. destruct Hch as [[-> ->]|[-> ->]]; auto. }
  assert (HI1 : Inv s1 cr).
  { by apply (Inv_delete s s1 cr self tr n (_parent nd) child). }
  destruct (Inv_shape s cr self tr HI Ht) as (t & Hsh & Hnd & Hsz).
  set (tr1 := mkTree (type_ tr)
                (if decide (_root tr = Some n) then child else _root tr)
                (_size tr - 1)).
  assert (Ht1' : trees s1 !! self = Some tr1).
  { rewrite Ht1. apply list_lookup_insert_eq. by eapply lookup_lt_Some. }
  assert (Hsh1 : shape s1 (_root tr1) (remove_node n t)).
  { unfold tr1. cbn [_root].
    exact (shape_delete s s1 cr n (_parent nd) child HI Hlive Hpn Hchild
             Hpar1 Hlft1 Hrgt1 t (_root tr) Hsh). }
  destruct (Inv_shape s1 cr self tr1 HI1 Ht1') as (t1 & Hsh1' & _ & Hsz1).
  rewrite <- (shape_functional _ _ _ _ Hsh1 Hsh1') in Hsz1.
  assert (Hrem : inorder_spec (remove_node n t)
                 = filter (fun x => x <> n) (inorder_spec t)).
  { exact (inorder_remove_node s cr n child HI Hlive Hchild t (_root tr) Hsh). }
  exists n, (inorder_spec t). split; [done|]. split.
  { by apply (Inv_shape_nodes s cr self tr t n HI Ht Hsh). }
  split; [done|]. intros fuel Hfuel. split.
  - apply positions_shape with (tr := tr); try done.
    pose proof (depth_le_count t). rewrite length_inorder_spec in Hfuel. lia.
  - rewrite <- Hrem. apply positions_shape with (tr := tr1); try done.
    pose proof (depth_le_count (remove_node n t)) as Hd.
    rewrite <- length_inorder_spec, Hrem in Hd.
    pose proof (length_filter (fun x => x <> n) (inorder_spec t)). lia.
Qed.

End LinkedBinaryTreeFacts.

(** ** C10: the array queue *)

Section ArrayQueueFacts.
Import ArrayQueue.
Context {E : Type}.
Implicit Types (q : ArrayQueue E) (d : list (option E)).

#[local] Open Scope Z_scope.

Lemma py_index_in_range {A} (l : list A) i :
  0 <= i < Z.of_nat (length l) -> py_index l i = Some (Z.to_nat i).
Proof.
  intros H. unfold py_index.
  destruct (Z.leb_spec 0 i), (Z.ltb_spec i (Z.of_nat (length l))); simpl; (done || lia).
Qed.

Lemma py_index_lt {A} (l : list A) i k :
  py_index l i = Some k -> (k < length l)%nat.
Proof.
  unfold py_index.
  destruct (Z.leb_spec 0 i), (Z.ltb_spec i (Z.of_nat (length l))); simpl;
    try (intros [= <-]; lia);
    destruct (Z.leb_spec (- Z.of_nat (length l)) i), (Z.ltb_spec i 0); simpl;
    try done; intros [= <-]; lia.
Qed.

Lemma py_getitem_Ok {A} (l : list A) i x :
  py_getitem l i = Ok x -> exists k, py_index l i = Some k /\ l !! k = Some x.
Proof.
  unfold py_getitem. destruct (py_index l i) as [k|]; [|done].
  destruct (l !! k) eqn:Hk; [|done]. intros [= <-]. eauto.
Qed.

Lemma py_getitem_in_range {A} (l : list A) i :
  0 <= i < Z.of_nat (length l) -> exists x, py_getitem l i = Ok x.
Proof.
  intros H. unfold py_getitem. rewrite py_index_in_range by done.
  destruct (lookup_lt_is_Some_2 l (Z.to_nat i)) as [x ->]; [lia|eauto].
Qed.

Lemma py_setitem_in_range {A} (l : list A) i x :
  0 <= i < Z.of_nat (length l) ->
  py_setitem l i x = Ok (<[Z.to_nat i := x]> l).
Proof. intros H. unfold py_setitem. by rewrite py_index_in_range. Qed.

Lemma py_mod_Ok a b : 0 < b -> py_mod a b = Ok (a mod b) /\ 0 <= a mod b < b.
Proof.
  intros H. unfold py_mod. destruct (Z.eqb_spec b 0); [lia|].
  split; [done|]. by apply Z.mod_pos_bound.
Qed.

(** The copy loop of [_resize] returns and only writes [_data], keeping its
    length. *)
Lemma _resize_loop_Ok (old : list (option E)) ks :
  forall walk q,
    0 <= walk < Z.of_nat (length old) ->
    Forall (fun k => 0 <= k < Z.of_nat (length (_data q))) ks ->
    exists d, _resize_loop old ks walk q = (mkQueue d (_size q) (_front q), Ok tt) /\
              length d = length (_data q).
Proof.
  induction ks as [|k ks IH]; intros walk q Hw Hks.
  - exists (_data q). by destruct q.
  - apply Forall_cons in Hks as [Hk Hks].
    destruct (py_getitem_in_range old walk Hw) as [x Hx].
    destruct (py_mod_Ok (1 + walk) (Z.of_nat (length old)) ltac:(lia)) as [Hm Hb].
    set (q1 := mkQueue (<[Z.to_nat k := x]> (_data q)) (_size q) (_front q)).
    destruct (IH ((1 + walk) mod Z.of_nat (length old)) q1) as (d & Hd & Hlen).
    { done. }
    { simpl. by rewrite length_insert. }
    exists d. split; [|by rewrite Hlen; simpl; rewrite length_insert].
    simpl. unfold of_result at 1. unfold mbind at 1, M_bind, bind.
    rewrite Hx. unfold get at 1. unfold mbind at 1, bind.
    unfold of_result at 1. rewrite (py_setitem_in_range _ _ _ Hk).
    unfold mbind at 1, bind. unfold set_data at 1.
    unfold mbind at 1, bind, of_result at 1. rewrite Hm.
    exact Hd.
Qed.

Lemma py_range_bound n c :
  n <= c -> Forall (fun k => 0 <= k < Z.of_nat (Z.to_nat c)) (py_range n).
Proof.
  intros H. unfold py_range. apply Forall_fmap, Forall_forall.
  intros k Hk%elem_of_seq. simpl. lia.
Qed.

Lemma _resize_Ok c q :
  0 <= _front q < Z.of_nat (length (_data q)) -> _size q <= c ->
  exists d, _resize c q = (mkQueue d (_size q) 0, Ok tt) /\
            length d = Z.to_nat c.
Proof.
  intros Hf Hc.
  destruct (_resize_loop_Ok (_data q) (py_range (_size q)) (_front q)
              (mkQueue (py_repeat None c) (_size q) (_front q)))
    as (d & Hd & Hlen); [done| |].
  { simpl. unfold py_repeat. rewrite length_replicate. by apply py_range_bound. }
  exists d. split.
  - unfold _resize, mbind, M_bind, bind, get, set_data, set_front. simpl.
    simpl in Hd. by rewrite Hd.
  - rewrite Hlen. simpl. unfold py_repeat. by rewrite length_replicate.
Qed.

(** [first] reads and never writes. *)
Lemma first_pure q q' r : first q = (q', r) -> q' = q.
Proof.
  unfold first, is_empty, mbind, M_bind, bind, get, ret, raise, of_result. simpl.
  destruct (_size q =? 0); by intros [= <-].
Qed.

Lemma first_empty q :
  _size q = 0 -> first q = (q, Raise (Empty "Queue is empty")).
Proof.
  intros H. unfold first, is_empty, mbind, M_bind, bind, get, ret, raise. simpl.
  by rewrite H.
Qed.

Lemma first_nonempty q :
  _size q <> 0 -> first q = (q, py_getitem (_data q) (_front q)).
Proof.
  intros H%Z.eqb_neq.
  unfold first, is_empty, mbind, M_bind, bind, get, ret, raise, of_result. simpl.
  by rewrite H.
Qed.

(** [dequeue] returns what is at the front whenever the queue is not empty
    and the front names a slot. *)
Lemma dequeue_Ok q x :
  _size q <> 0 -> py_getitem (_data q) (_front q) = Ok x ->
  exists q', dequeue q = (q', Ok x) /\ _size q' = _size q - 1 /\
             0 < Z.of_nat (length (_data q')) /\
             0 <= _front q' < Z.of_nat (length (_data q')) /\
             (_size q <= Z.of_nat (length (_data q)) ->
              _size q' <= Z.of_nat (length (_data q'))).
Proof.
  intros Hne Hx. pose proof Hne as Hne'%Z.eqb_neq.
  destruct (py_getitem_Ok _ _ _ Hx) as (k & Hk & Hkx).
  pose proof (py_index_lt _ _ _ Hk) as Hlt.
  destruct (py_mod_Ok (_front q + 1) (Z.of_nat (length (<[k:=None]> (_data q)))))
    as [Hm Hb]; [rewrite length_insert; lia|].
  set (f' := (_front q + 1) mod Z.of_nat (length (<[k:=None]> (_data q)))) in *.
  set (q1 := mkQueue (<[k:=None]> (_data q)) (_size q - 1) f').
  assert (Hrun :
    dequeue q = ((if (0 <? _size q - 1) && (_size q - 1 <? Z.of_nat (length (_data q1)) / 4)
                  then _resize (Z.of_nat (length (_data q1)) / 2)
                  else ret tt) ≫= fun _ => ret x) q1).
  { unfold dequeue, is_empty.
    unfold mbind, M_bind, bind, get, ret, raise, of_result, set_data, set_front,
      set_size. simpl. rewrite Hne', Hx. simpl.
    unfold py_setitem. rewrite Hk. simpl. fold f'. rewrite Hm. simpl.
    by destruct ((0 <? _) && _). }
  rewrite Hrun. clear Hrun.
  rewrite length_insert in Hb.
  destruct ((0 <? _size q - 1) && (_size q - 1 <? Z.of_nat (length (_data q1)) / 4))
    eqn:Hshrink.
  - apply andb_true_iff in Hshrink as [H1%Z.ltb_lt H2%Z.ltb_lt].
    simpl in H2. rewrite length_insert in H2.
    assert (Hdiv : Z.of_nat (length (_data q)) / 4 <= Z.of_nat (length (_data q)) / 2).
    { apply Z.div_le_compat_l; lia. }
    destruct (_resize_Ok (Z.of_nat (length (_data q1)) / 2) q1) as (d & Hd & Hlen).
    { simpl. by rewrite length_insert. }
    { simpl. rewrite length_insert. lia. }
    exists (mkQueue d (_size q - 1) 0). rewrite (bind_Ok _ _ _ _ _ Hd).
    simpl in Hlen. rewrite length_insert in Hlen.
    simpl. rewrite Hlen. repeat split; try done; lia.
  - exists q1. simpl. rewrite length_insert. repeat split; try done; lia.
Qed.

Lemma dequeue_wf q q' r : wf q -> dequeue q = (q', r) -> wf q'.
Proof.
  intros (Hlen & Hf & Hs) Hd.
  destruct (decide (_size q = 0)) as [Hz|Hnz].
  - unfold dequeue, is_empty, mbind, M_bind, bind, get, ret, raise in Hd.
    simpl in Hd. rewrite Hz in Hd. simpl in Hd. injection Hd as <- _. done.
  - destruct (py_getitem_in_range (_data q) (_front q) Hf) as [x Hx].
    destruct (dequeue_Ok q x Hnz Hx) as (q1 & Hq1 & Hsz & Hl1 & Hf1 & Hs1).
    rewrite Hq1 in Hd. injection Hd as <- _.
    repeat split; try lia.
Qed.

Lemma enqueue_wf q e q' r : wf q -> enqueue e q = (q', r) -> wf q' /\ r = Ok tt.
Proof.
  intros (Hlen & Hf & Hs).
  assert (Hpre : exists q1,
    ((if _size q =? Z.of_nat (length (_data q))
      then d ← get _data; _resize (2 * Z.of_nat (length d))
      else ret tt) : M (ArrayQueue E) unit) q = (q1, Ok tt) /\
    _size q1 = _size q /\ _size q < Z.of_nat (length (_data q1)) /\
    0 <= _front q1 < Z.of_nat (length (_data q1))).
  { destruct (Z.eqb_spec (_size q) (Z.of_nat (length (_data q)))) as [Heq|Hne].
    - destruct (_resize_Ok (2 * Z.of_nat (length (_data q))) q) as (d & Hd & Hl);
        [done|lia|].
      exists (mkQueue d (_size q) 0). split.
      { unfold mbind, M_bind, bind, get. simpl. by rewrite Hd. }
      simpl. rewrite Hl. repeat split; lia.
    - exists q. repeat split; try done; lia. }
  destruct Hpre as (q1 & Hq1 & Hs1 & Hl1 & Hf1).
  unfold enqueue.
  rewrite (bind_Ok _ _ _ _ _ (eq_refl : get _size q = (q, Ok (_size q)))).
  rewrite (bind_Ok _ _ _ _ _ (eq_refl : get _data q = (q, Ok (_data q)))).
  rewrite (bind_Ok _ _ _ _ _ Hq1).
  destruct (py_mod_Ok (_front q1 + _size q1) (Z.of_nat (length (_data q1))))
    as [Hm Hb]; [lia|].
  unfold mbind, M_bind, bind, get, of_result, set_data, set_size, ret. simpl.
  rewrite Hm. rewrite (py_setitem_in_range _ _ _ Hb).
  intros [= <- <-]. split; [|done].
  repeat split; simpl; rewrite ?length_insert; lia.
Qed.

Lemma reachable_wf q : reachable q -> wf q.
Proof.
  induction 1 as [|q e q' r _ IH He|q q' r _ IH Hd].
  - repeat split; simpl; try done; unfold DEFAULT_CAPACITY; simpl; lia.
  - by destruct (enqueue_wf _ _ _ _ IH He).
  - by eapply dequeue_wf.
Qed.

(** C10. [first()] never changes the queue; on a queue of size 0 it raises
    [Empty]; whatever it returns, the next [dequeue()] returns the same and
    takes the size down by one; and on a queue that [enqueue] and [dequeue]
    made from a new one and that is not empty, it does return. *)
Theorem first_spec q :
  (forall q' r, first q = (q', r) -> q' = q) /\
  (_size q = 0 -> first q = (q, Raise (Empty "Queue is empty"))) /\
  (forall x, first q = (q, Ok x) ->
     exists q', dequeue q = (q', Ok x) /\ _size q' = _size q - 1) /\
  (reachable q -> _size q <> 0 ->
     exists x q', first q = (q, Ok x) /\ dequeue q = (q', Ok x)).
Proof.
  split; [apply first_pure|]. split; [apply first_empty|]. split.
  - intros x Hx. destruct (decide (_size q = 0)) as [Hz|Hnz].
    { by rewrite (first_empty _ Hz) in Hx. }
    rewrite (first_nonempty _ Hnz) in Hx. injection Hx as Hx.
    destruct (dequeue_Ok q x Hnz Hx) as (q' & Hq' & Hsz & _). eauto.
  - intros (Hlen & Hf & Hs)%reachable_wf Hnz.
    destruct (py_getitem_in_range (_data q) (_front q) Hf) as [x Hx].
    destruct (dequeue_Ok q x Hnz Hx) as (q' & Hq' & _).
    exists x, q'. by rewrite (first_nonempty _ Hnz), Hx.
Qed.

End ArrayQueueFacts.



(** ** C3: the count and the root *)

(** C3 fails on the code.  After [_attach] of two empty trees to the root of
    a one-node tree, the count of the tree is 0 and [root()] is a
    position. *)
Theorem attach_empty_breaks_count_root :
  exists s t,
    run attach_empty_trees = (s, Ok t) /\
    __len__ t s = (s, Ok 0%Z) /\
    is_empty t s = (s, Ok true) /\
    root t s = (s, Ok (Some (mkPosition t 0))).
Proof.
  exists store_attach_empty, 0.
  split; [reflexivity|]. split; [reflexivity|]. split; reflexivity.
Qed.

(** ** C2 and C4 as they are stated *)

(** C2 as stated fails: the node of [q], a position of tree 1, is attached
    into tree 0, and the next use of [q] on tree 1 is not rejected:
    validation accepts it and [replace] returns. *)
Lemma attached_position_still_accepted :
  let s := store_attach_then_use in
  let q := Some (mkPosition 1 1) in
  run attach_then_use = (s, Ok (0, 1, q)) /\
  _validate 1 q s = (s, Ok 1) /\
  (forall e, _validate 1 q s <> (s, Raise e)) /\
  exists s', replace 1 q "y" s = (s', Ok "x").
Proof.
  intros s q. split; [reflexivity|]. split; [reflexivity|].
  split; [intros e; discriminate|].
  exists (mkStore (<[1 := with_element "y" (mkNode "x" (Some 0) None None)]> (nodes s))
                  (trees s)).
  reflexivity.
Qed.

(** C4 as stated fails: a one-node tree attached to its own root.  The call
    returns, and the size of the tree is not [len(t1) + len(t2)]. *)
Lemma attach_self_size :
  let s := store_before_attach_self in
  let p := Some (mkPosition 0 0) in
  exists s1,
    _attach 0 p 0 1 s = (s1, Ok tt) /\
    __len__ 0 s = (s, Ok 1%Z) /\
    __len__ 1 s = (s, Ok 0%Z) /\
    __len__ 0 s1 <> (s1, Ok (1 + 0)%Z).
Proof.
  intros s p.
  exists (mkStore [mkNode "a" (Some 0) (Some 0) None]
                  [mkTree "LinkedBinaryTree" None 0; mkTree "LinkedBinaryTree" None 0]).
  split; [reflexivity|]. split; [reflexivity|]. split; [reflexivity|].
  discriminate.
Qed.

(** ** C8 and C9: the traversals and the count *)

(** C8 fails on the code, by the defect of C3.  A root 'a' gets a left child
    'b'; two new, empty trees are attached to 'b', which sets the count of
    the tree to 0; 'b' is deleted.  The tree then holds one node, its root
    'a', and its count is -1: [inorder()] and [positions()] yield nothing and
    raise the [ValueError] of [len], where the claim has them yield the
    position of 'a'. *)
Theorem inorder_fails_on_negative_count :
  exists s t a,
    run attach_then_delete = (s, Ok (t, Some a)) /\
    root t s = (s, Ok (Some a)) /\
    element a s = (s, Ok "a") /\
    shape s (Some (_node a)) (Nd Leaf (_node a) Leaf) /\
    __len__ t s = (s, Ok (-1)%Z) /\
    forall fuel,
      inorder fuel t s
      = Some (s, [], Raise (ValueError "__len__() should return >= 0")) /\
      positions fuel t s
      = Some (s, [], Raise (ValueError "__len__() should return >= 0")).
Proof.
  exists store_negative_count, 0, (mkPosition 0 0).
  split; [reflexivity|]. split; [reflexivity|]. split; [reflexivity|].
  split.
  { split; [reflexivity|]. eexists. split; [reflexivity|].
    split; [discriminate|]. split; reflexivity. }
  split; [reflexivity|]. intros fuel. split; reflexivity.
Qed.

(** C9 fails on the code, by the defect of C3: on the same tree, whose root
    'a' has no child and whose count is -1, [breadthfirst()] yields nothing
    and raises the [ValueError] of [len], where the claim has it yield the
    position of 'a'. *)
Theorem breadthfirst_fails_on_negative_count :
  exists s t a,
    run attach_then_delete = (s, Ok (t, Some a)) /\
    root t s = (s, Ok (Some a)) /\
    num_children t (Some a) s = (s, Ok 0%Z) /\
    __len__ t s = (s, Ok (-1)%Z) /\
    forall fuel,
      breadthfirst fuel t s
      = Some (s, [], Raise (ValueError "__len__() should return >= 0")).
Proof.
  exists store_negative_count, 0, (mkPosition 0 0).
  split; [reflexivity|]. split; [reflexivity|]. split; [reflexivity|].
  split; [reflexivity|]. intros fuel. reflexivity.
Qed.



(** * The theorems at work on the concrete trees *)


Lemma shape_three_levels : shape store_three_levels (Some 0) tree_three_levels.
Proof.
  simpl. split; [reflexivity|]. eexists. split; [reflexivity|].
  split; [discriminate|]. simpl. split.
  - split; [reflexivity|]. eexists. split; [reflexivity|].
    split; [discriminate|]. simpl. split; [|reflexivity].
    split; [reflexivity|]. eexists. split; [reflexivity|].
    split; [discriminate|]. split; reflexivity.
  - split; [reflexivity|]. eexists. split; [reflexivity|].
    split; [discriminate|]. simpl. split; [reflexivity|].
    split; [reflexivity|]. eexists. split; [reflexivity|].
    split; [discriminate|]. split; reflexivity.
Defined.

Lemma attached_three_levels_b : attached store_three_levels 0 1.
Proof.
  eexists _, _. split; [reflexivity|]. split; [reflexivity|]. split.
  - intros ch [H|H]; simpl in H; [|discriminate].
    injection H as <-. split; [discriminate|].
    eexists. split; reflexivity.
  - right. split; [discriminate|]. eexists _, _.
    split; [reflexivity|]. split; [reflexivity|]. left. reflexivity.
Defined.

Lemma attached_root_one_child : attached store_root_one_child 0 0.
Proof.
  eexists _, _. split; [reflexivity|]. split; [reflexivity|]. split.
  - intros ch [H|H]; simpl in H; [|discriminate].
    injection H as <-. split; [discriminate|].
    eexists. split; reflexivity.
  - left. split; reflexivity.
Defined.

Lemma delete_at_most_one_child_witness :
  (let s := store_three_levels in
   let b := Some (mkPosition 0 1) in
   let d := Some (mkPosition 0 3) in
   attached s 0 1 /\
   left 0 b s = (s, Ok d) /\ right 0 b s = (s, Ok None) /\
   exists s1,
     delete 0 b s = (s1, Ok "b") /\
     __len__ 0 s1 = (s1, Ok 4%Z) /\
     parent 0 d s1 = (s1, Ok (Some (mkPosition 0 0))) /\
     left 0 (Some (mkPosition 0 0)) s1 = (s1, Ok d) /\
     _validate 0 b s1 = (s1, Raise (ValueError "p is no longer valid"))) /\
  (let s := store_root_one_child in
   let a := Some (mkPosition 0 0) in
   let b := Some (mkPosition 0 1) in
   attached s 0 0 /\ root 0 s = (s, Ok a) /\
   exists s1,
     delete 0 a s = (s1, Ok "a") /\
     __len__ 0 s1 = (s1, Ok 1%Z) /\
     root 0 s1 = (s1, Ok b) /\
     parent 0 b s1 = (s1, Ok None)).
Proof.
  split.
  - intros s b d. split; [exact attached_three_levels_b|].
    split; [reflexivity|]. split; [reflexivity|].
    destruct (delete_at_most_one_child 0 b s 1 "b" 5%Z (Some (mkPosition 0 0)) d None)
      as (s1 & H1 & H2 & H3 & _ & H5 & H6 & _);
      [reflexivity|exact attached_three_levels_b|reflexivity|reflexivity
      |reflexivity|reflexivity|reflexivity|right; reflexivity|].
    exists s1. split; [exact H1|]. split; [exact H2|].
    split; [apply H3; left; reflexivity|].
    split; [|exact H6].
    apply H5; [discriminate|reflexivity].
  - intros s a b. split; [exact attached_root_one_child|].
    split; [reflexivity|].
    destruct (delete_at_most_one_child 0 a s 0 "a" 2%Z None b None)
      as (s1 & H1 & H2 & H3 & H4 & _);
      [reflexivity|exact attached_root_one_child|reflexivity|reflexivity
      |reflexivity|reflexivity|reflexivity|right; reflexivity|].
    exists s1. split; [exact H1|]. split; [exact H2|].
    destruct (H4 eq_refl) as [_ H4'].
    split; [exact H4'|]. apply H3. left. reflexivity.
Defined.

Lemma validation_spec_witness :
  let s := store_three_levels in
  let foreign := Some (mkPosition 7 1) in
  _validate 0 foreign s
    = (s, Raise (ValueError "p does not belong to this container")) /\
  replace 0 foreign "y" s
    = (s, Raise (ValueError "p does not belong to this container")) /\
  delete 0 foreign s
    = (s, Raise (ValueError "p does not belong to this container")) /\
  delete 0 (Some (mkPosition 0 3)) s = (store_deleted_d, Ok "d") /\
  _validate 0 (Some (mkPosition 0 3)) store_deleted_d
    = (store_deleted_d, Raise (ValueError "p is no longer valid")) /\
  _validate 1 (Some (mkPosition 1 1)) store_before_attach
    = (store_before_attach, Ok 1) /\
  _validate 1 (Some (mkPosition 1 1)) store_attach_then_use
    = (store_attach_then_use, Ok 1).
Proof.
  intros s foreign.
  destruct (validation_spec 0 foreign s) as (_ & _ & _ & H4 & _).
  destruct (H4 (ValueError "p does not belong to this container") eq_refl)
    as (_ & _ & _ & _ & _ & _ & H7 & H8 & _).
  split; [reflexivity|]. split; [apply H7|]. split; [exact H8|].
  split; [reflexivity|].
  split.
  { destruct (validation_spec 0 (Some (mkPosition 0 3)) s)
      as (_ & _ & _ & _ & H5 & _).
    apply (H5 store_deleted_d "d"). reflexivity. }
  split; [reflexivity|].
  destruct (validation_spec 0 (Some (mkPosition 0 0)) store_before_attach)
    as (_ & _ & _ & _ & _ & H6).
  apply (H6 1 2 store_attach_then_use 0);
    [reflexivity|discriminate|discriminate|discriminate|reflexivity
    |reflexivity|discriminate].
Defined.

Lemma attach_spec_witness :
  let s := store_before_attach in
  let s1 := store_attach_then_use in
  let p := Some (mkPosition 0 0) in
  _attach 0 p 1 2 s = (s1, Ok tt) /\
  __len__ 1 s = (s, Ok 1%Z) /\ __len__ 2 s = (s, Ok 0%Z) /\
  __len__ 0 s1 = (s1, Ok (1 + 0)%Z) /\
  is_empty 1 s1 = (s1, Ok true) /\ is_empty 2 s1 = (s1, Ok true) /\
  _left <$> nodes s1 !! 0 = Some (Some 1) /\
  _right <$> nodes s1 !! 0 = Some None.
Proof.
  intros s s1 p. split; [reflexivity|]. split; [reflexivity|].
  split; [reflexivity|].
  destruct (attach_spec 0 p 1 2 s s1
              (mkTree "LinkedBinaryTree" (Some 0) 1)
              (mkTree "LinkedBinaryTree" (Some 1) 1)
              (mkTree "LinkedBinaryTree" None 0))
    as (node & Hv & _ & _ & _ & Hpost);
    [reflexivity|reflexivity|reflexivity|reflexivity|].
  injection Hv as <-.
  destruct Hpost as (H1 & _ & H3 & H4 & H5 & _ & _ & H8 & _);
    [discriminate|discriminate|discriminate|].
  split; [exact H1|]. split; [exact H3|]. split; [exact H4|].
  split; [apply H5; discriminate|apply H8; reflexivity].
Defined.

Lemma delete_two_children_fails_witness :
  let s := store_MEZ in
  let m := Some (mkPosition 0 0) in
  num_children 0 m s = (s, Ok 2%Z) /\
  delete 0 m s
  = (s, Raise (ValueError "p has 2 children and cannot be deleted.")).
Proof.
  intros s m. split; [reflexivity|].
  apply (delete_two_children_fails 0 m s 0); reflexivity.
Defined.

Lemma add_left_add_right_spec_witness :
  let s := store_three_levels in
  let b := Some (mkPosition 0 1) in
  right 0 b s = (s, Ok None) /\
  left 0 b s = (s, Ok (Some (mkPosition 0 3))) /\
  (exists s1 q,
     _add_right 0 b "f" s = (s1, Ok (Some q)) /\
     right 0 b s1 = (s1, Ok (Some q)) /\
     element q s1 = (s1, Ok "f") /\
     num_children 0 b s1 = (s1, Ok (1 + 1)%Z) /\
     __len__ 0 s1 = (s1, Ok (5 + 1)%Z)) /\
  _add_left 0 b "f" s = (s, Raise (ValueError "Left child already exist")).
Proof.
  intros s b. split; [reflexivity|]. split; [reflexivity|].
  destruct (add_left_add_right_spec 0 b s 1 "f" 5%Z 1%Z)
    as (_ & H2 & H3 & _); [reflexivity|reflexivity|reflexivity|].
  split; [apply H3; reflexivity|].
  apply (H2 (mkPosition 0 3)). reflexivity.
Defined.

Lemma replace_round_trip_witness :
  let s := store_MEZ in
  let e := Some (mkPosition 0 1) in
  _validate 0 e s = (s, Ok 1) /\
  exists s1,
    replace 0 e "X" s = (s1, Ok "E") /\
    replace 0 e "E" s1 = (s, Ok "X").
Proof.
  intros s e. split; [reflexivity|].
  destruct (replace_round_trip 0 e s 1 "X" eq_refl)
    as (old & s1 & H0 & H1 & _ & _ & _ & _ & H2).
  injection H0 as <-. exists s1. split; [exact H1|exact H2].
Defined.



Lemma reachable_queue_12 : ArrayQueue.reachable queue_12.
Proof.
  eapply ArrayQueue.reachable_enqueue with (e := 2);
    [eapply ArrayQueue.reachable_enqueue with (e := 1);
     [apply ArrayQueue.reachable_init|]|];
    reflexivity.
Defined.

Lemma first_spec_witness :
  ArrayQueue.reachable queue_12 /\
  ArrayQueue._size queue_12 <> 0%Z /\
  ArrayQueue.first queue_12 = (queue_12, Ok (Some 1)) /\
  (exists q', ArrayQueue.dequeue queue_12 = (q', Ok (Some 1)) /\
              ArrayQueue._size q' = (2 - 1)%Z) /\
  (exists x q', ArrayQueue.first queue_12 = (queue_12, Ok x) /\
                ArrayQueue.dequeue queue_12 = (q', Ok x)).
Proof.
  split; [exact reachable_queue_12|]. split; [discriminate|].
  split; [reflexivity|].
  destruct (first_spec queue_12) as (_ & _ & H3 & H4).
  split; [apply (H3 (Some 1)); reflexivity|].
  apply H4; [exact reachable_queue_12|discriminate].
Defined.

(** * More of [queue/queue.py]: the queue as a first-in first-out list *)

Section ArrayQueueFifo.
Import ArrayQueue.
Context {E : Type}.
Implicit Types (q : ArrayQueue E) (d : list (option E)).

#[local] Open Scope Z_scope.

Lemma mod_add_inj f i j L :
  0 < L -> 0 <= i < L -> 0 <= j < L ->
  (f + i) mod L = (f + j) mod L -> i = j.
Proof.
  intros HL Hi Hj Heq.
  pose proof (Z.div_mod (f + i) L ltac:(lia)) as H1.
  pose proof (Z.div_mod (f + j) L ltac:(lia)) as H2.
  rewrite Heq in H1.
  assert (i - j = L * ((f + i) / L - (f + j) / L)) as H3 by lia.
  assert ((f + i) / L - (f + j) / L = 0) by nia. lia.
Qed.

Lemma _resize_loop_spec (old : list (option E)) w :
  let L := Z.of_nat (length old) in
  0 <= w < L ->
  forall m a q,
    (a + m <= length (_data q))%nat ->
    exists d,
      _resize_loop old (Z.of_nat <$> seq a m) ((w + Z.of_nat a) mod L) q
      = (mkQueue d (_size q) (_front q), Ok tt) /\
      length d = length (_data q) /\
      forall j, d !! j
                = if decide (a <= j < a + m)%nat
                  then old !! Z.to_nat ((w + Z.of_nat j) mod L)
                  else _data q !! j.
Proof.
  intros L Hw m. induction m as [|m IH]; intros a q Hlen.
  - exists (_data q). split; [by destruct q|]. split; [done|].
    intros j. case_decide; [lia|done].
  - assert (HL : 0 < L) by lia.
    pose proof (Z.mod_pos_bound (w + Z.of_nat a) L HL) as Hb.
    destruct (py_getitem_in_range old _ Hb) as [x Hx].
    assert (Hx' : old !! Z.to_nat ((w + Z.of_nat a) mod L) = Some x).
    { apply py_getitem_Ok in Hx as (k & Hk & Hkx).
      rewrite py_index_in_range in Hk by done. congruence. }
    set (q1 := mkQueue (<[a := x]> (_data q)) (_size q) (_front q)).
    destruct (IH (S a) q1) as (d & Hd & Hdl & Hdj).
    { simpl. rewrite length_insert. lia. }
    exists d. split; [|split].
    + cbn [seq fmap list_fmap _resize_loop].
      unfold of_result at 1. unfold mbind at 1, M_bind, bind.
      rewrite Hx. unfold get at 1. unfold mbind at 1, bind.
      unfold of_result at 1. rewrite (py_setitem_in_range _ (Z.of_nat a)) by lia.
      rewrite Nat2Z.id.
      unfold mbind at 1, bind. unfold set_data at 1.
      unfold mbind at 1, bind, of_result at 1. fold L.
      destruct (py_mod_Ok (1 + (w + Z.of_nat a) mod L) L HL) as [-> _].
      replace ((1 + (w + Z.of_nat a) mod L) mod L) with ((w + Z.of_nat (S a)) mod L).
      2:{ rewrite Zplus_mod_idemp_r. f_equal. lia. }
      exact Hd.
    + rewrite Hdl. simpl. by rewrite length_insert.
    + intros j. rewrite Hdj. simpl.
      destruct (decide (j = a)) as [->|Hne].
      * rewrite decide_False by lia. rewrite decide_True by lia.
        rewrite list_lookup_insert_eq by lia. done.
      * rewrite list_lookup_insert_ne by done.
        repeat case_decide; try done; lia.
Qed.

Lemma length_contents q : length (contents q) = Z.to_nat (_size q).
Proof. unfold contents. by rewrite length_fmap, length_seq. Qed.

Lemma contents_lookup q i :
  (i < Z.to_nat (_size q))%nat ->
  contents q !! i
  = Some (_data q !!! Z.to_nat ((_front q + Z.of_nat i) mod capacity q)).
Proof.
  intros Hi. unfold contents. rewrite list_lookup_fmap, lookup_seq_lt by done.
  reflexivity.
Qed.

Lemma contents_eq q1 q2 :
  _size q1 = _size q2 ->
  (forall i, (i < Z.to_nat (_size q1))%nat ->
     _data q1 !!! Z.to_nat ((_front q1 + Z.of_nat i) mod capacity q1)
     = _data q2 !!! Z.to_nat ((_front q2 + Z.of_nat i) mod capacity q2)) ->
  contents q1 = contents q2.
Proof.
  intros Hs H. apply (list_eq_same_length _ _ (Z.to_nat (_size q1))).
  - by rewrite length_contents, Hs.
  - by rewrite length_contents.
  - intros i x y Hi. rewrite !contents_lookup by (rewrite <- ?Hs; done).
    intros [= <-] [= <-]. by apply H.
Qed.

Lemma _resize_contents c q :
  0 <= _front q < capacity q -> _size q <= c ->
  exists d, _resize c q = (mkQueue d (_size q) 0, Ok tt) /\
            length d = Z.to_nat c /\
            contents (mkQueue d (_size q) 0) = contents q.
Proof.
  unfold capacity. intros Hf Hc.
  destruct (_resize_loop_spec (_data q) (_front q) Hf (Z.to_nat (_size q)) 0%nat
              (mkQueue (py_repeat None c) (_size q) (_front q)))
    as (d & Hd & Hlen & Hj).
  { simpl. unfold py_repeat. rewrite length_replicate. lia. }
  simpl in Hd, Hlen, Hj. unfold py_repeat in Hlen. rewrite length_replicate in Hlen.
  rewrite Z.add_0_r, Z.mod_small in Hd by done.
  exists d. split; [|split; [done|]].
  - unfold _resize, mbind, M_bind, bind, get, set_data, set_front. simpl.
    unfold py_range. by rewrite Hd.
  - apply contents_eq; [done|]. simpl. unfold capacity. simpl. intros i Hi.
    rewrite Hlen. rewrite Z.add_0_l, Z.mod_small by lia. rewrite Nat2Z.id.
    rewrite !list_lookup_total_alt, Hj. rewrite decide_True by lia. done.
Qed.

Lemma enqueue_contents q e :
  wf q ->
  exists q', enqueue e q = (q', Ok tt) /\ wf q' /\
             contents q' = contents q ++ [Some e] /\
             _size q' = _size q + 1 /\
             capacity q' = (if _size q =? capacity q then 2 * capacity q
                            else capacity q).
Proof.
  unfold capacity. intros (Hlen & Hf & Hs).
  assert (Hpre : exists q1,
    ((if _size q =? Z.of_nat (length (_data q))
      then d ← get _data; _resize (2 * Z.of_nat (length d))
      else ret tt) : M (ArrayQueue E) unit) q = (q1, Ok tt) /\
    _size q1 = _size q /\ _size q < capacity q1 /\
    0 <= _front q1 < capacity q1 /\ contents q1 = contents q /\
    capacity q1 = (if _size q =? Z.of_nat (length (_data q))
                   then 2 * Z.of_nat (length (_data q))
                   else Z.of_nat (length (_data q)))).
  { unfold capacity.
    destruct (Z.eqb_spec (_size q) (Z.of_nat (length (_data q)))) as [Heq|Hne].
    - destruct (_resize_contents (2 * Z.of_nat (length (_data q))) q)
        as (d & Hd & Hl & Hc); [done|lia|].
      exists (mkQueue d (_size q) 0). split.
      { unfold mbind, M_bind, bind, get. simpl. by rewrite Hd. }
      simpl. rewrite Hl.
      split; [done|]. split; [lia|]. split; [lia|]. split; [done|lia].
    - exists q. split; [done|]. split; [done|]. split; [lia|].
      split; [lia|]. split; done. }
  destruct Hpre as (q1 & Hq1 & Hs1 & Hl1 & Hf1 & Hc1 & Hcap).
  unfold capacity in *.
  destruct (py_mod_Ok (_front q1 + _size q1) (Z.of_nat (length (_data q1))))
    as [Hm Hb]; [lia|].
  set (avail := (_front q1 + _size q1) mod Z.of_nat (length (_data q1))) in *.
  exists (mkQueue (<[Z.to_nat avail := Some e]> (_data q1)) (_size q1 + 1) (_front q1)).
  split; [|split; [|split; [|split]]].
  - unfold enqueue.
    rewrite (bind_Ok _ _ _ _ _ (eq_refl : get _size q = (q, Ok (_size q)))).
    rewrite (bind_Ok _ _ _ _ _ (eq_refl : get _data q = (q, Ok (_data q)))).
    rewrite (bind_Ok _ _ _ _ _ Hq1).
    unfold mbind, M_bind, bind, get, of_result, set_data, set_size, ret. simpl.
    fold avail. rewrite Hm. by rewrite (py_setitem_in_range _ _ _ Hb).
  - repeat split; simpl; rewrite ?length_insert; lia.
  - rewrite <- Hc1.
    apply (list_eq_same_length _ _ (Z.to_nat (_size q1 + 1))).
    + rewrite length_app, length_contents. simpl. lia.
    + by rewrite length_contents.
    + intros i x y Hi. rewrite contents_lookup by done. simpl.
      unfold capacity. simpl. rewrite length_insert. intros [= <-].
      destruct (decide (i < Z.to_nat (_size q1))%nat) as [Hlt|Hge].
      * rewrite lookup_app_l by (rewrite length_contents; lia).
        rewrite contents_lookup by done. intros [= <-]. unfold capacity.
        apply list_lookup_total_insert_ne. intros Heq.
        pose proof (Z.mod_pos_bound (_front q1 + Z.of_nat i)
                      (Z.of_nat (length (_data q1))) ltac:(lia)).
        apply Z2Nat.inj in Heq; [|lia|lia].
        apply mod_add_inj in Heq; lia.
      * rewrite lookup_app_r by (rewrite length_contents; lia).
        rewrite length_contents.
        replace (i - Z.to_nat (_size q1))%nat with 0%nat by lia.
        intros [= <-].
        replace (Z.of_nat i) with (_size q1) by lia. fold avail.
        apply list_lookup_total_insert_eq. lia.
  - simpl. lia.
  - simpl. rewrite length_insert. exact Hcap.
Qed.

Lemma dequeue_contents q :
  wf q -> _size q <> 0 ->
  exists x q', dequeue q = (q', Ok x) /\ wf q' /\
               contents q = x :: contents q' /\
               _size q' = _size q - 1 /\
               capacity q' = (if (0 <? _size q - 1)
                                 && (_size q - 1 <? capacity q / 4)
                              then capacity q / 2 else capacity q).
Proof.
  intros (Hlen & Hf & Hs) Hne. pose proof Hne as Hne'%Z.eqb_neq.
  destruct (py_getitem_in_range (_data q) (_front q) Hf) as [x Hx].
  destruct (py_getitem_Ok _ _ _ Hx) as (k & Hk & Hkx).
  rewrite py_index_in_range in Hk by done. injection Hk as <-.
  set (k := Z.to_nat (_front q)) in *.
  pose proof (lookup_lt_Some _ _ _ Hkx) as Hlt.
  set (L := Z.of_nat (length (_data q))) in *.
  destruct (py_mod_Ok (_front q + 1) (Z.of_nat (length (<[k:=None]> (_data q)))))
    as [Hm Hb]; [rewrite length_insert; lia|].
  rewrite length_insert in Hm, Hb. fold L in Hm, Hb.
  set (f' := (_front q + 1) mod L) in *.
  set (q1 := mkQueue (<[k:=None]> (_data q)) (_size q - 1) f').
  assert (Hrun :
    dequeue q = ((if (0 <? _size q - 1) && (_size q - 1 <? Z.of_nat (length (_data q1)) / 4)
                  then _resize (Z.of_nat (length (_data q1)) / 2)
                  else ret tt) ≫= fun _ => ret x) q1).
  { unfold dequeue, is_empty.
    unfold mbind, M_bind, bind, get, ret, raise, of_result, set_data, set_front,
      set_size. simpl. rewrite Hne', Hx. simpl.
    rewrite (py_setitem_in_range _ _ _ Hf). fold k. simpl.
    rewrite length_insert. fold L. rewrite Hm. simpl.
    destruct ((0 <? _) && _); simpl; rewrite ?length_insert; reflexivity. }
  assert (Hc1 : contents q = x :: contents q1).
  { apply (list_eq_same_length _ _ (Z.to_nat (_size q))).
    - simpl. rewrite length_contents. simpl. lia.
    - by rewrite length_contents.
    - intros i a b Hi. rewrite contents_lookup by done. intros [= <-].
      unfold capacity. fold L.
      destruct i as [|i]; simpl.
      + intros [= <-]. rewrite Z.add_0_r, Z.mod_small by done. fold k.
        by apply list_lookup_total_correct.
      + rewrite contents_lookup by (simpl; lia). intros [= <-].
        simpl. unfold capacity. simpl. rewrite length_insert. fold L.
        unfold f'. rewrite Zplus_mod_idemp_l.
        replace (_front q + 1 + Z.of_nat i) with (_front q + Z.pos (Pos.of_succ_nat i)) by lia.
        symmetry. apply list_lookup_total_insert_ne. unfold k. intros Heq.
        apply Z2Nat.inj in Heq; [|lia|apply Z.mod_pos_bound; lia].
        rewrite <- (Z.mod_small (_front q) L) in Heq at 1 by done.
        rewrite <- (Z.add_0_r (_front q)) in Heq at 1.
        apply mod_add_inj in Heq; lia. }
  rewrite Hrun. clear Hrun.
  destruct ((0 <? _size q - 1) && (_size q - 1 <? Z.of_nat (length (_data q1)) / 4))
    eqn:Hshrink.
  - apply andb_true_iff in Hshrink as [H1%Z.ltb_lt H2%Z.ltb_lt].
    simpl in H2. rewrite length_insert in H2. fold L in H2.
    assert (Hdiv : L / 4 <= L / 2) by (apply Z.div_le_compat_l; lia).
    destruct (_resize_contents (Z.of_nat (length (_data q1)) / 2) q1)
      as (d & Hd & Hdl & Hc).
    { unfold capacity. simpl. rewrite length_insert. fold L. lia. }
    { simpl. rewrite length_insert. fold L. lia. }
    exists x, (mkQueue d (_size q - 1) 0). rewrite (bind_Ok _ _ _ _ _ Hd).
    simpl in Hdl, Hc. rewrite length_insert in Hdl. fold L in Hdl.
    split; [done|]. split.
    { repeat split; simpl; rewrite ?Hdl; lia. }
    split; [by rewrite Hc|]. split; [done|].
    unfold capacity. fold L. simpl. rewrite Hdl.
    rewrite (proj2 (Z.ltb_lt _ _) H1), (proj2 (Z.ltb_lt _ _) H2). simpl. lia.
  - exists x, q1. split; [done|]. split.
    { repeat split; simpl; rewrite ?length_insert; fold L; lia. }
    split; [done|]. split; [done|].
    unfold capacity. fold L. simpl in Hshrink. rewrite length_insert in Hshrink.
    fold L in Hshrink. rewrite Hshrink. simpl. by rewrite length_insert.
Qed.

Lemma dequeue_empty q :
  _size q = 0 -> dequeue q = (q, Raise (Empty "Queue is empty")).
Proof.
  intros H. unfold dequeue, is_empty, mbind, M_bind, bind, get, ret, raise.
  simpl. by rewrite H.
Qed.

Lemma contents_nil q : _size q = 0 -> contents q = [].
Proof. intros H. unfold contents. by rewrite H. Qed.

Lemma enqueue_all_contents es :
  forall q, wf q ->
    exists q', enqueue_all es q = (q', Ok tt) /\ wf q' /\
               contents q' = contents q ++ (Some <$> es).
Proof.
  induction es as [|e es IH]; intros q Hq.
  - exists q. by rewrite app_nil_r.
  - destruct (enqueue_contents q e Hq) as (q1 & H1 & Hw1 & Hc1 & _).
    destruct (IH q1 Hw1) as (q2 & H2 & Hw2 & Hc2).
    exists q2. split; [|split; [done|]].
    + simpl. by rewrite (bind_Ok _ _ _ _ _ H1).
    + rewrite Hc2, Hc1, <- app_assoc. reflexivity.
Qed.

Lemma dequeue_n_contents n :
  forall q, wf q -> (n <= length (contents q))%nat ->
    exists q', dequeue_n n q = (q', Ok (take n (contents q))) /\ wf q' /\
               contents q' = drop n (contents q).
Proof.
  induction n as [|n IH]; intros q Hq Hn.
  - exists q. by rewrite take_0, drop_0.
  - rewrite length_contents in Hn.
    destruct (dequeue_contents q Hq ltac:(lia)) as (x & q1 & H1 & Hw1 & Hc1 & Hs1 & _).
    destruct (IH q1 Hw1) as (q2 & H2 & Hw2 & Hc2).
    { rewrite length_contents. lia. }
    exists q2. split; [|split; [done|]].
    + simpl. rewrite (bind_Ok _ _ _ _ _ H1), (bind_Ok _ _ _ _ _ H2).
      by rewrite Hc1.
    + by rewrite Hc1.
Qed.

(** X1. On a queue that satisfies the representation invariant, [enqueue(e)]
    returns; the queue then holds what it held followed by [e], its length
    is one more and it is not empty; the invariant holds again; the capacity
    has doubled if the queue was full and is unchanged otherwise. *)
Theorem enqueue_appends q e :
  wf q ->
  exists q',
    enqueue e q = (q', Ok tt) /\ wf q' /\
    contents q' = contents q ++ [Some e] /\
    __len__ q' = (q', Ok (_size q + 1)) /\
    is_empty q' = (q', Ok false) /\
    capacity q' = (if _size q =? capacity q then 2 * capacity q
                   else capacity q).
Proof.
  intros Hq. pose proof Hq as (_ & _ & Hs).
  destruct (enqueue_contents q e Hq) as (q' & H1 & Hw & Hc & Hsz & Hcap).
  exists q'. split; [done|]. split; [done|]. split; [done|].
  split; [|split; [|done]].
  - unfold __len__, get. by rewrite Hsz.
  - unfold is_empty, mbind, M_bind, bind, get, ret. rewrite Hsz.
    destruct (Z.eqb_spec (_size q + 1) 0); [lia|done].
Qed.

(** X2. [dequeue()] on a queue of size 0 raises [Empty] and leaves the queue
    as it was.  On a queue that satisfies the representation invariant and is
    not empty it returns the oldest element; the queue then holds the rest, in
    order, its length is one less, the invariant holds again, and the
    capacity is halved exactly when the new size is positive and below a
    quarter of the capacity. *)
Theorem dequeue_removes_front q :
  (_size q = 0 -> dequeue q = (q, Raise (Empty "Queue is empty"))) /\
  (wf q -> _size q <> 0 ->
   exists x q',
     dequeue q = (q', Ok x) /\ wf q' /\
     contents q = x :: contents q' /\
     __len__ q' = (q', Ok (_size q - 1)) /\
     capacity q' = (if (0 <? _size q - 1) && (_size q - 1 <? capacity q / 4)
                    then capacity q / 2 else capacity q)).
Proof.
  split; [apply dequeue_empty|]. intros Hq Hne.
  destruct (dequeue_contents q Hq Hne) as (x & q' & H1 & Hw & Hc & Hsz & Hcap).
  exists x, q'. split; [done|]. split; [done|]. split; [done|].
  split; [|done]. unfold __len__, get. by rewrite Hsz.
Qed.

(** X3. [_resize(c)], on a queue whose front names a slot and whose size is
    at most [c], returns; the queue holds the same elements in the same
    order, in a list of [c] slots, with the front at slot 0. *)
Theorem _resize_keeps_contents c q :
  0 <= _front q < capacity q -> _size q <= c ->
  exists q',
    _resize c q = (q', Ok tt) /\
    contents q' = contents q /\
    length (_data q') = Z.to_nat c /\
    _front q' = 0 /\ _size q' = _size q.
Proof.
  intros Hf Hc.
  destruct (_resize_contents c q Hf Hc) as (d & Hd & Hl & Hcont).
  exists (mkQueue d (_size q) 0). by repeat split.
Qed.

(** X4. First in, first out.  Enqueueing the elements [es] on a queue and
    then dequeueing [n] times (no more than it then holds) returns the first
    [n] of what the queue held followed by [es], and leaves the rest; from a
    new queue, dequeueing as many times as was enqueued returns the elements
    in the order they were enqueued and leaves the queue empty. *)
Theorem fifo_order :
  (forall q es n,
     wf q -> (n <= length (contents q) + length es)%nat ->
     exists q',
       (enqueue_all es ;; dequeue_n n) q
       = (q', Ok (take n (contents q ++ (Some <$> es)))) /\
       contents q' = drop n (contents q ++ (Some <$> es)) /\ wf q') /\
  (forall es,
     exists q',
       (enqueue_all es ;; dequeue_n (length es)) __init__
       = (q', Ok (Some <$> es)) /\
       contents q' = [] /\ is_empty q' = (q', Ok true)).
Proof.
  assert (Hgen : forall q es n,
     wf q -> (n <= length (contents q) + length es)%nat ->
     exists q',
       (enqueue_all es ;; dequeue_n n) q
       = (q', Ok (take n (contents q ++ (Some <$> es)))) /\
       contents q' = drop n (contents q ++ (Some <$> es)) /\ wf q').
  { intros q es n Hq Hn.
    destruct (enqueue_all_contents es q Hq) as (q1 & H1 & Hw1 & Hc1).
    destruct (dequeue_n_contents n q1 Hw1) as (q2 & H2 & Hw2 & Hc2).
    { rewrite Hc1, length_app, length_fmap. lia. }
    exists q2. rewrite (bind_Ok _ _ _ _ _ H1), H2, Hc2, Hc1. done. }
  split; [exact Hgen|]. intros es.
  assert (Hinit : wf (@__init__ E)).
  { unfold wf, __init__, DEFAULT_CAPACITY. simpl. lia. }
  destruct (Hgen __init__ es (length es) Hinit) as (q' & H1 & Hc & Hw).
  { simpl. lia. }
  rewrite (contents_nil __init__ eq_refl) in H1, Hc. simpl in H1, Hc.
  rewrite take_ge in H1 by (by rewrite length_fmap).
  rewrite drop_ge in Hc by (by rewrite length_fmap).
  exists q'. split; [done|]. split; [done|].
  pose proof (length_contents q') as Hl. rewrite Hc in Hl. simpl in Hl.
  destruct Hw as (_ & _ & Hs).
  unfold is_empty, mbind, M_bind, bind, get, ret.
  replace (_size q') with 0 by lia. done.
Qed.

(** X5. Every queue made from a new one by [enqueue] and [dequeue] satisfies
    the representation invariant (the list is not empty, the front names a
    slot, the size is between 0 and the capacity), and its capacity is 5
    times a power of 2: it never shrinks below 5. *)
Theorem reachable_invariant q :
  reachable q ->
  wf q /\ exists k : nat, capacity q = 5 * 2 ^ Z.of_nat k.
Proof.
  induction 1 as [|q e q' r _ [Hw [k Hk]] He|q q' r _ [Hw [k Hk]] Hd].
  - split.
    + unfold wf, __init__, DEFAULT_CAPACITY. simpl. lia.
    + exists 1%nat. reflexivity.
  - destruct (enqueue_contents q e Hw) as (q1 & H1 & Hw1 & _ & _ & Hcap).
    rewrite H1 in He. injection He as <- _. split; [done|].
    rewrite Hcap. destruct (_size q =? capacity q).
    + exists (S k). rewrite Hk, Nat2Z.inj_succ, Z.pow_succ_r by lia. lia.
    + by exists k.
  - destruct (decide (_size q = 0)) as [Hz|Hnz].
    { rewrite (dequeue_empty q Hz) in Hd. injection Hd as <- _. eauto. }
    destruct (dequeue_contents q Hw Hnz) as (x & q1 & H1 & Hw1 & _ & _ & Hcap).
    rewrite H1 in Hd. injection Hd as <- _. split; [done|].
    rewrite Hcap.
    destruct ((0 <? _size q - 1) && (_size q - 1 <? capacity q / 4)) eqn:Hc;
      [|by exists k].
    apply andb_true_iff in Hc as [H0%Z.ltb_lt H4%Z.ltb_lt].
    destruct k as [|k].
    { rewrite Hk in H4. change (5 * 2 ^ Z.of_nat 0 / 4) with 1 in H4. lia. }
    exists k. rewrite Hk, Nat2Z.inj_succ, Z.pow_succ_r by lia.
    replace (5 * (2 * 2 ^ Z.of_nat k)) with ((5 * 2 ^ Z.of_nat k) * 2) by lia.
    by rewrite Z.div_mul.
Qed.

End ArrayQueueFifo.

Lemma wf_queue_12 : ArrayQueue.wf queue_12.
Proof. unfold ArrayQueue.wf. simpl. lia. Defined.

Lemma enqueue_appends_witness :
  ArrayQueue.wf queue_12 /\
  ArrayQueue.contents queue_12 = [Some 1; Some 2] /\
  exists q',
    ArrayQueue.enqueue 3 queue_12 = (q', Ok tt) /\
    ArrayQueue.contents q' = [Some 1; Some 2; Some 3].
Proof.
  split; [exact wf_queue_12|]. split; [reflexivity|].
  destruct (enqueue_appends queue_12 3 wf_queue_12) as (q' & H1 & _ & H3 & _).
  exists q'. split; [exact H1|exact H3].
Defined.

Lemma dequeue_removes_front_witness :
  ArrayQueue.wf queue_12 /\ ArrayQueue._size queue_12 <> 0%Z /\
  exists x q',
    ArrayQueue.dequeue queue_12 = (q', Ok x) /\
    [Some 1; Some 2] = x :: ArrayQueue.contents q'.
Proof.
  split; [exact wf_queue_12|]. split; [discriminate|].
  destruct (dequeue_removes_front queue_12) as [_ H].
  destruct (H wf_queue_12 ltac:(discriminate)) as (x & q' & H1 & _ & H3 & _).
  exists x, q'. split; [exact H1|exact H3].
Defined.

Lemma _resize_keeps_contents_witness :
  exists q',
    ArrayQueue._resize 4 queue_12 = (q', Ok tt) /\
    ArrayQueue.contents q' = [Some 1; Some 2] /\
    length (ArrayQueue._data q') = 4.
Proof.
  destruct (_resize_keeps_contents 4 queue_12) as (q' & H1 & H2 & H3 & _).
  { unfold ArrayQueue.capacity. simpl. lia. }
  { simpl. lia. }
  exists q'. split; [exact H1|]. split; [exact H2|exact H3].
Defined.

Lemma fifo_order_witness :
  exists q',
    (ArrayQueue.enqueue_all [3; 4] ;; ArrayQueue.dequeue_n 3) queue_12
    = (q', Ok [Some 1; Some 2; Some 3]) /\
    ArrayQueue.contents q' = [Some 4].
Proof.
  destruct (@fifo_order nat) as [H _].
  destruct (H queue_12 [3; 4] 3%nat wf_queue_12) as (q' & H1 & H2 & _).
  { simpl. lia. }
  exists q'. split; [exact H1|exact H2].
Defined.

Lemma reachable_invariant_witness :
  ArrayQueue.reachable queue_12 /\
  ArrayQueue.wf queue_12 /\
  exists k : nat, ArrayQueue.capacity queue_12 = (5 * 2 ^ Z.of_nat k)%Z.
Proof.
  split; [exact reachable_queue_12|].
  exact (reachable_invariant queue_12 reachable_queue_12).
Defined.

(** * The other methods of the tree at work *)

Lemma shape_up_three_levels :
  shape_up store_three_levels None (Some 0) tree_three_levels.
Proof.
  simpl. split; [reflexivity|]. eexists. split; [reflexivity|].
  split; [reflexivity|]. split; [discriminate|]. simpl. split.
  - split; [reflexivity|]. eexists. split; [reflexivity|].
    split; [reflexivity|]. split; [discriminate|]. simpl. split; [|reflexivity].
    split; [reflexivity|]. eexists. split; [reflexivity|].
    split; [reflexivity|]. split; [discriminate|]. split; reflexivity.
  - split; [reflexivity|]. eexists. split; [reflexivity|].
    split; [reflexivity|]. split; [discriminate|]. simpl. split; [reflexivity|].
    split; [reflexivity|]. eexists. split; [reflexivity|].
    split; [reflexivity|]. split; [discriminate|]. split; reflexivity.
Defined.

Lemma add_root_spec_witness :
  _add_root 0 "M" store_MEZ = (store_MEZ, Raise (ValueError "Root exists!")) /\
  exists s1,
    _add_root 0 "a" store_new_tree = (s1, Ok (Some (mkPosition 0 0))) /\
    root 0 s1 = (s1, Ok (Some (mkPosition 0 0))) /\
    __len__ 0 s1 = (s1, Ok 1%Z).
Proof.
  split.
  - destruct (add_root_spec 0 "M" store_MEZ (mkTree "LinkedBinaryTree" (Some 0) 3)
                eq_refl) as [H _].
    exact (H 0 eq_refl).
  - destruct (add_root_spec 0 "a" store_new_tree (mkTree "LinkedBinaryTree" None 0)
                eq_refl) as [_ H].
    destruct (H eq_refl) as (H1 & H2 & H3 & _).
    eexists. split; [exact H1|]. split; [exact H2|exact H3].
Defined.

Lemma depth_counts_levels_witness :
  Tree_depth 3 0 (Some (mkPosition 0 4)) store_three_levels
  = Some (store_three_levels, [], Ok 2%Z).
Proof.
  destruct (depth_counts_levels 0 store_three_levels
              (mkTree "LinkedBinaryTree" (Some 0) 5) eq_refl) as (_ & H & _).
  apply (H tree_three_levels 2 4 3).
  - exact shape_up_three_levels.
  - simpl. repeat constructor.
  - lia.
Defined.

Lemma height_spec_witness :
  height 1 0 None store_new_tree
  = Some (store_new_tree, [], Raise (TypeError "p must be of proper Position type")) /\
  height 3 0 None store_three_levels = Some (store_three_levels, [], Ok 2%Z) /\
  height 3 0 (Some (mkPosition 0 0)) store_three_levels
  = Some (store_three_levels, [], Ok 2%Z).
Proof.
  split.
  - destruct (height_spec 0 store_new_tree (mkTree "LinkedBinaryTree" None 0)
                eq_refl) as [H _].
    exact (H eq_refl 0).
  - destruct (height_spec 0 store_three_levels
                (mkTree "LinkedBinaryTree" (Some 0) 5) eq_refl) as [_ H].
    destruct (H tree_three_levels 0 3 shape_three_levels) as [H1 H2].
    { simpl. lia. }
    split; [exact (H2 eq_refl)|exact H1].
Defined.





Lemma attach_empty_hides_tree_witness :
  _attach 0 (Some (mkPosition 0 0)) 1 2 store_before_attach_empty
  = (store_attach_empty, Ok tt) /\
  root 0 store_attach_empty = (store_attach_empty, Ok (Some (mkPosition 0 0))) /\
  inorder 1 0 store_attach_empty = Some (store_attach_empty, [], Ok tt).
Proof.
  destruct (attach_empty_hides_tree 0 (Some (mkPosition 0 0)) 1 2
              store_before_attach_empty 0
              (mkTree "LinkedBinaryTree" (Some 0) 1)
              (mkTree "LinkedBinaryTree" None 0)
              (mkTree "LinkedBinaryTree" None 0))
    as (H1 & H2 & _ & H4);
    [reflexivity|reflexivity|reflexivity|reflexivity|reflexivity
    |reflexivity|reflexivity|reflexivity|reflexivity|].
  split; [exact H1|]. split; [exact H2|].
  destruct (H4 1) as [H5 _]. exact H5.
Defined.

(** * [array_types_goodrich/caesar_cipher.py] *)

Section CaesarCipherFacts.
Import CaesarCipher.
#[local] Open Scope Z_scope.
#[local] Existing Instances result_ret result_bind.

Lemma result_bind_Ok {A B} (m : result A) (k : A -> result B) a :
  m = Ok a -> (m ≫= k) = k a.
Proof. by intros ->. Qed.


Lemma chr_letter m : 0 <= m < 26 -> chr (m + ord_A) = Ok (m + 65).
Proof.
  intros Hm. unfold chr, ord_A.
  replace ((0 <=? m + 65) && (m + 65 <? 1114112))%Z with true; [done|].
  symmetry. apply andb_true_intro. split; [apply Z.leb_le|apply Z.ltb_lt]; lia.
Qed.

Lemma __init___loop_spec shift ks :
  forall encoder decoder,
    Forall (fun k => 0 <= k < Z.of_nat (length encoder)) ks ->
    length encoder = length decoder ->
    __init___loop shift ks encoder decoder
    = Ok (foldl (fun e k => <[Z.to_nat k := Some (forward_char shift k)]> e) encoder ks,
          foldl (fun d k => <[Z.to_nat k := Some (backward_char shift k)]> d) decoder ks).
Proof.
  induction ks as [|k ks IH]; intros encoder decoder Hks Hlen; [done|].
  apply Forall_cons in Hks as [Hk Hks].
  cbn [__init___loop foldl].
  unfold py_mod. cbn [Z.eqb].
  pose proof (Z.mod_pos_bound (k + shift) 26 ltac:(lia)).
  pose proof (Z.mod_pos_bound (k - shift) 26 ltac:(lia)).
  cbn [mbind result_bind].
  rewrite !chr_letter by done.
  cbn [mbind result_bind].
  rewrite (py_setitem_in_range encoder) by lia. cbn [mbind result_bind].
  rewrite (py_setitem_in_range decoder) by lia. cbn [mbind result_bind].
  apply IH.
  - rewrite length_insert. done.
  - by rewrite !length_insert.
Qed.

Lemma __init___tables shift :
  __init__ shift
  = Ok (mkCipher (forward_char shift <$> py_range 26) (backward_char shift <$> py_range 26)).
Proof.
  unfold __init__. rewrite __init___loop_spec; cycle 1.
  - unfold py_range, py_repeat. rewrite length_replicate.
    apply Forall_fmap, Forall_forall. intros k Hk%elem_of_seq. simpl. lia.
  - done.
  - reflexivity.
Qed.

Section WithIsupper.
Variable isupper : Z -> bool.

Lemma insert_take_drop_step {A} (l : list A) a m x (f : A -> A) c :
  l !! a = Some c -> x = f c ->
  take (S a) (<[a := x]> l) ++ (f <$> take m (drop (S a) (<[a := x]> l)))
    ++ drop (S a + m) (<[a := x]> l)
  = take a l ++ (f <$> take (S m) (drop a l)) ++ drop (a + S m) l.
Proof.
  intros Hc ->.
  pose proof (lookup_lt_Some _ _ _ Hc) as Hlt.
  rewrite (take_S_r _ _ (f c)) by (by apply list_lookup_insert_eq).
  rewrite take_insert_ge by lia.
  rewrite !drop_insert_lt by lia.
  rewrite (drop_S _ _ _ Hc). cbn [take fmap list_fmap].
  rewrite <- app_assoc. simpl. do 3 f_equal. f_equal. lia.
Qed.

Lemma _transform_loop_Ok code (f : Z -> Z) m :
  forall a msg,
    (a + m <= length msg)%nat ->
    Forall (fun c => if isupper c then str_getitem code (ord c - ord_A) = Ok (f c)
                     else f c = c) (take m (drop a msg)) ->
    _transform_loop isupper code (Z.of_nat <$> seq a m) msg
    = Ok (take a msg ++ (f <$> take m (drop a msg)) ++ drop (a + m) msg).
Proof.
  induction m as [|m IH]; intros a msg Hlen Hgood.
  - simpl. rewrite Nat.add_0_r. by rewrite take_drop.
  - destruct (lookup_lt_is_Some_2 msg a ltac:(lia)) as [c Hc].
    rewrite (drop_S _ _ _ Hc) in Hgood. cbn [take] in Hgood.
    apply Forall_cons in Hgood as [Hgc Hgood].
    cbn [seq fmap list_fmap _transform_loop].
    change (list_fmap _ _ Z.of_nat (seq (S a) m)) with (Z.of_nat <$> seq (S a) m).
    assert (Hget : py_getitem msg (Z.of_nat a) = Ok c).
    { unfold py_getitem. rewrite py_index_in_range by lia.
      by rewrite Nat2Z.id, Hc. }
    rewrite Hget. cbn [mbind result_bind]. cbv zeta.
    assert (Hstep : (if isupper c
                     then str_getitem code (ord c - ord_A) ≫= (fun x =>
                            py_setitem msg (Z.of_nat a) x)
                     else Ok msg) = Ok (<[a := f c]> msg)).
    { destruct (isupper c).
      - rewrite Hgc. cbn [mbind result_bind].
        rewrite py_setitem_in_range by lia. by rewrite Nat2Z.id.
      - rewrite Hgc. by rewrite list_insert_id. }
    rewrite Hstep. cbn [mbind result_bind].
    rewrite IH.
    + f_equal. exact (insert_take_drop_step msg a m _ f c Hc eq_refl).
    + rewrite length_insert. lia.
    + by rewrite drop_insert_lt by lia.
Qed.

Lemma _transform_Ok code (f : Z -> Z) msg :
  Forall (fun c => if isupper c then str_getitem code (ord c - ord_A) = Ok (f c)
                   else f c = c) msg ->
  _transform isupper msg code = Ok (f <$> msg).
Proof.
  intros Hgood. unfold _transform, py_range. rewrite Nat2Z.id.
  rewrite (_transform_loop_Ok code f (length msg) 0 msg).
  - simpl. rewrite drop_0, take_ge by lia. rewrite drop_all. by rewrite app_nil_r.
  - lia.
  - rewrite drop_0. by rewrite take_ge by lia.
Qed.

Lemma table_getitem (g : Z -> Z) j :
  0 <= j < 26 -> str_getitem (g <$> py_range 26) j = Ok (g j).
Proof.
  intros Hj. unfold str_getitem.
  rewrite py_index_in_range by (rewrite length_fmap; unfold py_range;
    rewrite length_fmap, length_seq; simpl; lia).
  unfold py_range. rewrite !list_lookup_fmap.
  rewrite lookup_seq_lt by (simpl; lia). simpl. by rewrite Z2Nat.id by lia.
Qed.

Lemma rotate_letter shift c :
  65 <= c <= 90 -> 65 <= (c - 65 + shift) mod 26 + 65 <= 90.
Proof. intros Hc. pose proof (Z.mod_pos_bound (c - 65 + shift) 26). lia. Qed.

Lemma encrypt_Ok shift msg :
  Forall (fun c => isupper c = true -> 65 <= c <= 90) msg ->
  encrypt isupper (mkCipher (forward_char shift <$> py_range 26)
                            (backward_char shift <$> py_range 26)) msg
  = Ok (rotate isupper shift <$> msg).
Proof.
  intros Hmsg. unfold encrypt. cbn [_forward]. apply _transform_Ok.
  eapply Forall_impl; [exact Hmsg|]. intros c Hc. simpl in Hc. unfold rotate.
  destruct (isupper c); [|done].
  unfold ord, ord_A. rewrite table_getitem by (specialize (Hc eq_refl); lia).
  unfold forward_char. done.
Qed.

Lemma decrypt_Ok shift msg :
  Forall (fun c => isupper c = true -> 65 <= c <= 90) msg ->
  decrypt isupper (mkCipher (forward_char shift <$> py_range 26)
                            (backward_char shift <$> py_range 26)) msg
  = Ok (rotate isupper (- shift) <$> msg).
Proof.
  intros Hmsg. unfold decrypt. cbn [_backward]. apply _transform_Ok.
  eapply Forall_impl; [exact Hmsg|]. intros c Hc. simpl in Hc. unfold rotate.
  destruct (isupper c); [|done].
  unfold ord, ord_A. rewrite table_getitem by (specialize (Hc eq_refl); lia).
  unfold backward_char. by rewrite Z.add_opp_r.
Qed.

(** X14. A cipher can be made for every shift; its two tables have 26
    letters.  On a message whose upper-case characters are all among A..Z,
    [encrypt] returns the message with each upper-case character moved
    [shift] letters forward around the alphabet and every other character
    unchanged, and [decrypt] moves them [shift] letters backward. *)
Theorem encrypt_rotates_capitals shift msg :
  Forall (fun c => isupper c = true -> 65 <= c <= 90) msg ->
  exists cipher,
    __init__ shift = Ok cipher /\
    length (_forward cipher) = 26%nat /\ length (_backward cipher) = 26%nat /\
    encrypt isupper cipher msg = Ok (rotate isupper shift <$> msg) /\
    decrypt isupper cipher msg = Ok (rotate isupper (- shift) <$> msg).
Proof.
  intros Hmsg. eexists. split; [apply __init___tables|].
  split; [done|]. split; [done|].
  split; [by apply encrypt_Ok|by apply decrypt_Ok].
Qed.

Lemma str_getitem_cases (code : list Z) j :
  (exists x, str_getitem code j = Ok x) \/
  str_getitem code j = Raise (IndexError "string index out of range").
Proof.
  unfold str_getitem. destruct (py_index code j) as [k|]; [|by right].
  destruct (code !! k); [left; eauto|by right].
Qed.

Lemma str_getitem_high (code : list Z) j :
  Z.of_nat (length code) <= j ->
  str_getitem code j = Raise (IndexError "string index out of range").
Proof.
  intros Hj. unfold str_getitem, py_index.
  destruct (Z.leb_spec 0 j), (Z.ltb_spec j (Z.of_nat (length code))); simpl; try lia.
  destruct (Z.leb_spec (- Z.of_nat (length code)) j), (Z.ltb_spec j 0); simpl;
    try lia; done.
Qed.

Lemma _transform_loop_high code m :
  forall a msg,
    (a + m <= length msg)%nat ->
    Exists (fun c => isupper c = true /\ Z.of_nat (length code) <= c - 65)
           (take m (drop a msg)) ->
    _transform_loop isupper code (Z.of_nat <$> seq a m) msg
    = Raise (IndexError "string index out of range").
Proof.
  induction m as [|m IH]; intros a msg Hlen Hbad.
  - simpl in Hbad. by apply Exists_nil in Hbad.
  - destruct (lookup_lt_is_Some_2 msg a ltac:(lia)) as [c Hc].
    rewrite (drop_S _ _ _ Hc) in Hbad. cbn [take] in Hbad.
    cbn [seq fmap list_fmap _transform_loop].
    change (list_fmap _ _ Z.of_nat (seq (S a) m)) with (Z.of_nat <$> seq (S a) m).
    assert (Hget : py_getitem msg (Z.of_nat a) = Ok c).
    { unfold py_getitem. rewrite py_index_in_range by lia.
      by rewrite Nat2Z.id, Hc. }
    rewrite Hget. cbn [mbind result_bind]. cbv zeta.
    apply Exists_cons in Hbad as [[Hup Hhigh]|Hbad].
    + rewrite Hup. unfold ord, ord_A. by rewrite str_getitem_high.
    + destruct (isupper c).
      * destruct (str_getitem_cases code (ord c - ord_A)) as [[x ->]| ->]; [|done].
        cbn [mbind result_bind]. rewrite py_setitem_in_range by lia.
        cbn [mbind result_bind]. rewrite Nat2Z.id. apply IH.
        -- rewrite length_insert. lia.
        -- by rewrite drop_insert_lt by lia.
      * cbn [mbind result_bind]. apply IH; [lia|done].
Qed.

(** X16. A message that holds an upper-case character beyond Z (one that
    [isupper] accepts and whose code point is above 90) makes [encrypt] and
    [decrypt] raise [IndexError]: the character indexes the table of 26
    letters out of range. *)
Theorem capital_beyond_Z_fails shift msg c :
  c ∈ msg -> isupper c = true -> 90 < c ->
  exists cipher,
    __init__ shift = Ok cipher /\
    encrypt isupper cipher msg = Raise (IndexError "string index out of range") /\
    decrypt isupper cipher msg = Raise (IndexError "string index out of range").
Proof.
  intros Hin Hup Hc. eexists. split; [apply __init___tables|].
  assert (Hbad : Exists (fun c => isupper c = true /\ 26 <= c - 65)
                        (take (length msg) (drop 0 msg))).
  { rewrite drop_0, take_ge by lia. apply Exists_exists. exists c.
    split; [done|]. split; [done|lia]. }
  unfold encrypt, decrypt, _transform, py_range. rewrite Nat2Z.id.
  split; apply _transform_loop_high; try done; simpl; lia.
Qed.

Hypothesis isupper_AZ : forall c, 65 <= c <= 90 -> isupper c = true.

Lemma rotate_rotate a b c :
  (isupper c = true -> 65 <= c <= 90) ->
  rotate isupper b (rotate isupper a c) = rotate isupper (a + b) c.
Proof.
  intros Hc. unfold rotate. destruct (isupper c) eqn:Hup.
  - specialize (Hc eq_refl).
    rewrite isupper_AZ by (by apply rotate_letter).
    f_equal. replace ((c - 65 + a) mod 26 + 65 - 65 + b)
      with ((c - 65 + a) mod 26 + b) by lia.
    rewrite Zplus_mod_idemp_l. f_equal. lia.
  - by rewrite Hup.
Qed.

Lemma rotate_0 c : (isupper c = true -> 65 <= c <= 90) -> rotate isupper 0 c = c.
Proof.
  intros Hc. unfold rotate. destruct (isupper c); [|done].
  specialize (Hc eq_refl). rewrite Z.add_0_r, Z.mod_small by lia. lia.
Qed.

Lemma rotate_good shift msg :
  Forall (fun c => isupper c = true -> 65 <= c <= 90) msg ->
  Forall (fun c => isupper c = true -> 65 <= c <= 90) (rotate isupper shift <$> msg).
Proof.
  intros Hmsg. apply Forall_fmap. eapply Forall_impl; [exact Hmsg|].
  intros c Hc. simpl in *. unfold rotate. destruct (isupper c) eqn:Hup.
  - intros _. by apply rotate_letter, Hc.
  - by rewrite Hup.
Qed.

Lemma rotate_rotate_list a b msg :
  Forall (fun c => isupper c = true -> 65 <= c <= 90) msg ->
  rotate isupper b <$> (rotate isupper a <$> msg) = rotate isupper (a + b) <$> msg.
Proof.
  intros Hmsg. rewrite <- list_fmap_compose. apply Forall_fmap_ext.
  eapply Forall_impl; [exact Hmsg|]. intros c Hc. simpl. by apply rotate_rotate.
Qed.

Lemma rotate_0_list msg :
  Forall (fun c => isupper c = true -> 65 <= c <= 90) msg ->
  rotate isupper 0 <$> msg = msg.
Proof.
  intros Hmsg. rewrite <- (list_fmap_id msg) at 2. apply Forall_fmap_ext.
  eapply Forall_impl; [exact Hmsg|]. intros c Hc. simpl. by apply rotate_0.
Qed.

(** X15. Round trip.  On a message whose upper-case characters are all
    among A..Z, [decrypt(encrypt(m))] and [encrypt(decrypt(m))] both return
    [m], for every shift; the secret has the length of the message. *)
Theorem decrypt_encrypt_round_trip shift msg :
  Forall (fun c => isupper c = true -> 65 <= c <= 90) msg ->
  exists cipher secret plain,
    __init__ shift = Ok cipher /\
    encrypt isupper cipher msg = Ok secret /\
    decrypt isupper cipher secret = Ok msg /\
    decrypt isupper cipher msg = Ok plain /\
    encrypt isupper cipher plain = Ok msg /\
    length secret = length msg /\ length plain = length msg.
Proof.
  intros Hmsg.
  exists (mkCipher (forward_char shift <$> py_range 26)
                   (backward_char shift <$> py_range 26)),
    (rotate isupper shift <$> msg), (rotate isupper (- shift) <$> msg).
  split; [apply __init___tables|].
  split; [by apply encrypt_Ok|].
  split.
  { rewrite decrypt_Ok by (by apply rotate_good).
    rewrite rotate_rotate_list by done. rewrite Z.add_opp_diag_r.
    by rewrite rotate_0_list. }
  split; [by apply decrypt_Ok|].
  split.
  { rewrite encrypt_Ok by (by apply rotate_good).
    rewrite rotate_rotate_list by done. rewrite Z.add_opp_diag_l.
    by rewrite rotate_0_list. }
  by rewrite !length_fmap.
Qed.

(** X17. Shifts count modulo 26 and add up: the cipher for [a + 26 n] is the
    cipher for [a]; encrypting with [a] and then with [b] is encrypting with
    [a + b]; a shift that is a multiple of 26 leaves the message as it
    is. *)
Theorem shifts_add_modulo_26 a b n msg :
  Forall (fun c => isupper c = true -> 65 <= c <= 90) msg ->
  __init__ (a + 26 * n) = __init__ a /\
  exists ca cb cab once,
    __init__ a = Ok ca /\ __init__ b = Ok cb /\ __init__ (a + b) = Ok cab /\
    encrypt isupper ca msg = Ok once /\
    encrypt isupper cb once = encrypt isupper cab msg /\
    (a mod 26 = 0 -> once = msg).
Proof.
  intros Hmsg. split.
  - rewrite !__init___tables. do 2 f_equal.
    + apply list_fmap_ext. intros _ k _. unfold forward_char.
      replace (k + (a + 26 * n)) with (k + a + n * 26) by lia.
      by rewrite Z_mod_plus_full.
    + apply list_fmap_ext. intros _ k _. unfold backward_char.
      replace (k - (a + 26 * n)) with (k - a + (- n) * 26) by lia.
      by rewrite Z_mod_plus_full.
  - eexists _, _, _, (rotate isupper a <$> msg).
    split; [apply __init___tables|]. split; [apply __init___tables|].
    split; [apply __init___tables|].
    split; [by apply encrypt_Ok|]. split.
    + rewrite !encrypt_Ok by (try apply rotate_good; done).
      by rewrite rotate_rotate_list.
    + intros Ha. rewrite <- (rotate_0_list msg) at 2 by done.
      apply Forall_fmap_ext. eapply Forall_impl; [exact Hmsg|].
      intros c Hc. simpl in *. unfold rotate. destruct (isupper c); [|done].
      rewrite <- Zplus_mod_idemp_r, Ha. done.
Qed.

End WithIsupper.

End CaesarCipherFacts.

Lemma isupper_latin1_AZ c : (65 <= c <= 90)%Z -> isupper_latin1 c = true.
Proof.
  intros Hc. unfold isupper_latin1.
  apply orb_true_intro. left. apply andb_true_intro.
  split; apply Z.leb_le; lia.
Defined.

Lemma message_hi_joe_capitals :
  Forall (fun c => isupper_latin1 c = true -> (65 <= c <= 90)%Z) message_hi_joe.
Proof.
  unfold message_hi_joe.
  repeat (constructor; [intros H; first [lia | discriminate H]|]).
  constructor.
Defined.

Lemma encrypt_rotates_capitals_witness :
  exists cipher,
    CaesarCipher.__init__ 4 = Ok cipher /\
    CaesarCipher.encrypt isupper_latin1 cipher message_hi_joe
    = Ok [76; 105; 44; 32; 78; 83; 73; 33]%Z.
Proof.
  destruct (encrypt_rotates_capitals isupper_latin1 4 message_hi_joe
              message_hi_joe_capitals) as (cipher & H1 & _ & _ & H2 & _).
  exists cipher. split; [exact H1|exact H2].
Defined.

Lemma decrypt_encrypt_round_trip_witness :
  exists cipher secret,
    CaesarCipher.__init__ 4 = Ok cipher /\
    CaesarCipher.encrypt isupper_latin1 cipher message_hi_joe = Ok secret /\
    CaesarCipher.decrypt isupper_latin1 cipher secret = Ok message_hi_joe.
Proof.
  destruct (decrypt_encrypt_round_trip isupper_latin1 isupper_latin1_AZ 4
              message_hi_joe message_hi_joe_capitals)
    as (cipher & secret & _ & H1 & H2 & H3 & _).
  exists cipher, secret. split; [exact H1|]. split; [exact H2|exact H3].
Defined.

Lemma capital_beyond_Z_fails_witness :
  exists cipher,
    CaesarCipher.__init__ 4 = Ok cipher /\
    CaesarCipher.encrypt isupper_latin1 cipher message_agrave_b
    = Raise (IndexError "string index out of range").
Proof.
  destruct (capital_beyond_Z_fails isupper_latin1 4 message_agrave_b 192)
    as (cipher & H1 & H2 & _).
  - left.
  - reflexivity.
  - lia.
  - exists cipher. split; [exact H1|exact H2].
Defined.

Lemma shifts_add_modulo_26_witness :
  CaesarCipher.__init__ (4 + 26 * 3) = CaesarCipher.__init__ 4 /\
  exists ca cb cab once,
    CaesarCipher.__init__ 4 = Ok ca /\ CaesarCipher.__init__ 22 = Ok cb /\
    CaesarCipher.__init__ (4 + 22) = Ok cab /\
    CaesarCipher.encrypt isupper_latin1 ca message_hi_joe = Ok once /\
    CaesarCipher.encrypt isupper_latin1 cb once
    = CaesarCipher.encrypt isupper_latin1 cab message_hi_joe.
Proof.
  destruct (shifts_add_modulo_26 isupper_latin1 isupper_latin1_AZ 4 22 3
              message_hi_joe message_hi_joe_capitals)
    as (H0 & ca & cb & cab & once & H1 & H2 & H3 & H4 & H5 & _).
  split; [exact H0|].
  exists ca, cb, cab, once.
  split; [exact H1|]. split; [exact H2|]. split; [exact H3|].
  split; [exact H4|exact H5].
Defined.

(** * [maps/unsorted_table_map.py] *)

Section UnsortedTableMapFacts.
Import UnsortedTableMap.
Context {K V : Type} `{EqDecision K}.
Variable repr : K -> string.
Implicit Types (self : UnsortedTableMap K V) (items : list (_Item K V)) (k : K) (v : V).

Lemma __getitem___loop_None k items :
  __getitem___loop k items = None <-> k ∉ _key <$> items.
Proof.
  induction items as [|item items IH]; simpl.
  - split; [intros _; apply not_elem_of_nil|done].
  - rewrite not_elem_of_cons. destruct (decide (k = _key item)) as [->|Hne].
    + split; [done|]. by intros [? _].
    + rewrite IH. tauto.
Qed.

Lemma __setitem___loop_None k v items :
  __setitem___loop k v items = None <-> k ∉ _key <$> items.
Proof.
  induction items as [|item items IH]; simpl.
  - split; [intros _; apply not_elem_of_nil|done].
  - rewrite not_elem_of_cons. destruct (decide (k = _key item)) as [->|Hne].
    + split; [done|]. by intros [? _].
    + rewrite <- IH. destruct (__setitem___loop k v items); simpl.
      * split; [done|]. by intros [_ ?].
      * split; done.
Qed.

Lemma __setitem___loop_keys k v items table :
  __setitem___loop k v items = Some table ->
  _key <$> table = _key <$> items /\ k ∈ _key <$> items.
Proof.
  revert table. induction items as [|item items IH]; intros table; simpl; [done|].
  destruct (decide (k = _key item)) as [->|Hne].
  - intros [= <-]. split; [done|]. left.
  - destruct (__setitem___loop k v items) as [t|]; [|done]. simpl.
    intros [= <-]. destruct (IH t eq_refl) as [IH1 IH2].
    split; [by rewrite fmap_cons, IH1|by right].
Qed.

Lemma __getitem___loop_app k items items' :
  __getitem___loop k (items ++ items')
  = match __getitem___loop k items with
    | Some v => Some v
    | None => __getitem___loop k items'
    end.
Proof.
  induction items as [|item items IH]; simpl; [done|].
  by destruct (decide (k = _key item)).
Qed.

Lemma __getitem___setitem_loop k v k' items table :
  __setitem___loop k v items = Some table ->
  __getitem___loop k' table
  = if decide (k' = k) then Some v else __getitem___loop k' items.
Proof.
  revert table. induction items as [|item items IH]; intros table; simpl; [done|].
  destruct (decide (k = _key item)) as [->|Hne].
  - intros [= <-]. simpl. by destruct (decide (k' = _key item)).
  - destruct (__setitem___loop k v items) as [t|]; [|done]. simpl.
    intros [= <-]. simpl. rewrite (IH t eq_refl).
    destruct (decide (k' = _key item)) as [->|]; [|done].
    by rewrite decide_False by done.
Qed.

Lemma __setitem___spec self k v :
  (forall k', __getitem__ repr k' (__setitem__ k v self)
              = if decide (k' = k) then Returns v else __getitem__ repr k' self) /\
  __iter__ (__setitem__ k v self)
  = (if decide (k ∈ __iter__ self) then __iter__ self else __iter__ self ++ [k]) /\
  __len__ (__setitem__ k v self)
  = (if decide (k ∈ __iter__ self) then __len__ self else __len__ self + 1)%Z.
Proof.
  unfold __getitem__, __setitem__, __len__, __iter__.
  destruct (__setitem___loop k v (_table self)) as [table|] eqn:Hset.
  - destruct (__setitem___loop_keys _ _ _ _ Hset) as [Hkeys Hin].
    rewrite !decide_True by done. cbn [_table]. split; [|split].
    + intros k'. rewrite (__getitem___setitem_loop _ _ k' _ _ Hset).
      by destruct (decide (k' = k)).
    + done.
    + apply (f_equal length) in Hkeys.
      rewrite !length_fmap in Hkeys. by rewrite Hkeys.
  - apply __setitem___loop_None in Hset.
    rewrite !decide_False by done. cbn [_table]. split; [|split].
    + intros k'. rewrite __getitem___loop_app. simpl.
      destruct (decide (k' = k)) as [->|Hne].
      * apply __getitem___loop_None in Hset. by rewrite Hset.
      * by destruct (__getitem___loop k' (_table self)).
    + by rewrite fmap_app.
    + rewrite length_app. simpl. lia.
Qed.

(** *** __delitem__ *)

Lemma __delitem___loop_miss k self m :
  forall a,
    (a + m <= length (_table self))%nat ->
    (forall i item, (a <= i < a + m)%nat -> _table self !! i = Some item ->
                    _key item <> k) ->
    __delitem___loop k (Z.of_nat <$> seq a m) self = None.
Proof.
  induction m as [|m IH]; intros a Hlen Hmiss; [done|].
  destruct (lookup_lt_is_Some_2 (_table self) a ltac:(lia)) as [item Hitem].
  cbn [seq fmap list_fmap __delitem___loop].
  unfold py_getitem. rewrite py_index_in_range by lia. rewrite Nat2Z.id, Hitem.
  assert (Hne : _key item <> k) by (apply (Hmiss a item); [lia|done]).
  rewrite decide_False by congruence.
  apply IH; [lia|]. intros i item' Hi. apply Hmiss. lia.
Qed.

Lemma __delitem___loop_hit k self m :
  forall a i item,
    (a + m <= length (_table self))%nat -> (a <= i < a + m)%nat ->
    _table self !! i = Some item -> _key item = k ->
    (forall i' item', (a <= i' < i)%nat -> _table self !! i' = Some item' ->
                      _key item' <> k) ->
    __delitem___loop k (Z.of_nat <$> seq a m) self
    = Some (mkMap (base.delete i (_table self)), Returns tt).
Proof.
  induction m as [|m IH]; intros a i item Hlen Hi Hitem Hkey Hfirst; [lia|].
  destruct (lookup_lt_is_Some_2 (_table self) a ltac:(lia)) as [item0 Hitem0].
  cbn [seq fmap list_fmap __delitem___loop].
  unfold py_getitem. rewrite py_index_in_range by lia. rewrite Nat2Z.id, Hitem0.
  destruct (decide (a = i)) as [Heq|Hne].
  - subst i. assert (item0 = item) as -> by congruence.
    rewrite decide_True by done.
    unfold py_pop. rewrite py_index_in_range by lia. by rewrite Nat2Z.id, Hitem.
  - assert (Hne0 : _key item0 <> k) by (apply (Hfirst a item0); [lia|done]).
    rewrite decide_False by congruence.
    apply (IH (S a) i item); [lia|lia|done|done|].
    intros i' item' Hi'. apply Hfirst. lia.
Qed.

Lemma first_key k items :
  k ∈ _key <$> items ->
  exists i item,
    items !! i = Some item /\ _key item = k /\
    forall i' item', (i' < i)%nat -> items !! i' = Some item' -> _key item' <> k.
Proof.
  induction items as [|item items IH]; intros Hin.
  - by apply elem_of_nil in Hin.
  - destruct (decide (_key item = k)) as [Heq|Hne].
    + exists 0%nat, item. split; [done|]. split; [done|]. intros; lia.
    + rewrite fmap_cons in Hin. apply elem_of_cons in Hin as [Hin|Hin]; [done|].
      destruct (IH Hin) as (i & item' & Hi & Hk & Hfirst).
      exists (S i), item'. split; [done|]. split; [done|].
      intros [|i'] item'' Hlt Hi'; simpl in Hi'.
      * by injection Hi' as <-.
      * eapply Hfirst; [|done]. lia.
Qed.

Lemma __getitem___loop_delete k' items i item :
  items !! i = Some item -> _key item <> k' ->
  __getitem___loop k' (base.delete i items) = __getitem___loop k' items.
Proof.
  revert i. induction items as [|item0 items IH]; intros i Hi Hne; [done|].
  destruct i as [|i]; simpl in *.
  - injection Hi as ->. by rewrite decide_False by done.
  - destruct (decide (k' = _key item0)); [done|]. by apply IH.
Qed.

Lemma __delitem___spec self k :
  (k ∉ __iter__ self ->
   __delitem__ repr k self = (self, Raises (KeyError ("Key Error " +:+ repr k)))) /\
  (k ∈ __iter__ self ->
   exists i self',
     __iter__ self !! i = Some k /\
     (forall i', (i' < i)%nat -> __iter__ self !! i' <> Some k) /\
     __delitem__ repr k self = (self', Returns tt) /\
     _table self' = base.delete i (_table self) /\
     __len__ self' = (__len__ self - 1)%Z /\
     (forall k', k' <> k -> __getitem__ repr k' self' = __getitem__ repr k' self) /\
     (NoDup (__iter__ self) ->
      __getitem__ repr k self' = Raises (KeyError ("Key Error: " +:+ repr k)))).
Proof.
  unfold __iter__. split.
  - intros Hnot. unfold __delitem__, py_range. rewrite Nat2Z.id.
    rewrite __delitem___loop_miss; [done|simpl; lia|].
    intros i item _ Hi Hk. apply Hnot.
    apply list_elem_of_fmap. exists item. split; [done|].
    by eapply list_elem_of_lookup_2.
  - intros Hin. destruct (first_key _ _ Hin) as (i & item & Hi & Hk & Hfirst).
    pose proof (lookup_lt_Some _ _ _ Hi) as Hlt.
    exists i, (mkMap (base.delete i (_table self))).
    split; [|split; [|split; [|split; [|split; [|split]]]]].
    + by rewrite list_lookup_fmap, Hi, <- Hk.
    + intros i' Hi'. rewrite list_lookup_fmap.
      destruct (_table self !! i') as [item'|] eqn:Hitem'; [|done]. simpl.
      intros [= Heq]. by eapply Hfirst.
    + unfold __delitem__, py_range. rewrite Nat2Z.id.
      rewrite (__delitem___loop_hit k self (length (_table self)) 0 i item);
        try done; try lia.
      intros i' item' Hi'. apply Hfirst. lia.
    + done.
    + unfold __len__. cbn [_table]. rewrite length_delete by (by eexists). lia.
    + intros k' Hne. unfold __getitem__. cbn [_table].
      rewrite (__getitem___loop_delete k' _ i item); [done|done|congruence].
    + intros Hnd. unfold __getitem__. cbn [_table].
      assert (Hnone : __getitem___loop k (base.delete i (_table self)) = None).
      { apply __getitem___loop_None.
        rewrite list_fmap_delete. rewrite delete_take_drop.
        rewrite <- (take_drop_middle (_key <$> _table self) i k) in Hnd
          by (by rewrite list_lookup_fmap, Hi, <- Hk).
        apply NoDup_app in Hnd as (_ & Hnd1 & Hnd2).
        apply NoDup_cons in Hnd2 as [Hnd2 _].
        intros [Hl|Hr]%elem_of_app; [|done].
        apply (Hnd1 k Hl). left. }
      by rewrite Hnone.
Qed.

(** X18. After [m[k] = v], [m[k]] is [v] and [m[k']] for another key is what
    it was (the value, or [KeyError]); iterating yields the keys it yielded,
    followed by [k] if [k] was not among them; the length is one more if [k]
    was new and unchanged if not. *)
Theorem setitem_then_getitem self k v :
  (forall k', __getitem__ repr k' (__setitem__ k v self)
              = if decide (k' = k) then Returns v else __getitem__ repr k' self) /\
  __iter__ (__setitem__ k v self)
  = (if decide (k ∈ __iter__ self) then __iter__ self else __iter__ self ++ [k]) /\
  __len__ (__setitem__ k v self)
  = (if decide (k ∈ __iter__ self) then __len__ self else __len__ self + 1)%Z.
Proof. apply __setitem___spec. Qed.

(** X19. [del m[k]] on a map without the key [k] raises [KeyError] (with the
    text "Key Error " and the key) and changes nothing.  On a map with the
    key it removes the first item with that key and nothing else: the length
    is one less and every other key has the value it had; when the keys of
    the map are distinct, [m[k]] then raises [KeyError]. *)
Theorem delitem_removes_first self k :
  (k ∉ __iter__ self ->
   __delitem__ repr k self = (self, Raises (KeyError ("Key Error " +:+ repr k)))) /\
  (k ∈ __iter__ self ->
   exists i self',
     __iter__ self !! i = Some k /\
     (forall i', (i' < i)%nat -> __iter__ self !! i' <> Some k) /\
     __delitem__ repr k self = (self', Returns tt) /\
     _table self' = base.delete i (_table self) /\
     __len__ self' = (__len__ self - 1)%Z /\
     (forall k', k' <> k -> __getitem__ repr k' self' = __getitem__ repr k' self) /\
     (NoDup (__iter__ self) ->
      __getitem__ repr k self' = Raises (KeyError ("Key Error: " +:+ repr k)))).
Proof. apply __delitem___spec. Qed.

(** X20. In every map made from a new one by [m[k] = v] and [del m[k]], the
    keys that iteration yields are distinct, and they are exactly the keys
    for which [m[k]] returns a value. *)
Theorem keys_stay_distinct self :
  reachable repr self ->
  NoDup (__iter__ self) /\
  forall k, k ∈ __iter__ self <-> exists v, __getitem__ repr k self = Returns v.
Proof.
  intros Hreach. split.
  - induction Hreach as [|self k v _ IH|self k _ IH].
    + constructor.
    + destruct (__setitem___spec self k v) as (_ & -> & _).
      destruct (decide (k ∈ __iter__ self)); [done|].
      apply NoDup_app. split; [done|]. split; [|apply NoDup_singleton].
      intros x Hx ->%list_elem_of_singleton. done.
    + destruct (decide (k ∈ __iter__ self)) as [Hin|Hnot].
      * destruct (__delitem___spec self k) as [_ Hdel].
        destruct (Hdel Hin) as (i & self' & _ & _ & -> & Htab & _). simpl.
        unfold __iter__ in *. rewrite Htab, list_fmap_delete.
        eapply sublist_NoDup; [done|apply sublist_delete].
      * destruct (__delitem___spec self k) as [Hdel _].
        by rewrite (Hdel Hnot).
  - intros k. unfold __getitem__, __iter__. split.
    + intros Hin. destruct (__getitem___loop k (_table self)) as [v|] eqn:Hget; [eauto|].
      by apply __getitem___loop_None in Hget.
    + intros [v Hv].
      destruct (decide (k ∈ _key <$> _table self)) as [|Hn]; [done|].
      apply __getitem___loop_None in Hn. by rewrite Hn in Hv.
Qed.

End UnsortedTableMapFacts.

(** * [maps/probe_hash_map.py] *)

Section ProbeHashMapFacts.
Import ProbeHashMap.
Context {K V : Type} `{EqDecision K}.
Variable repr : K -> string.
Implicit Types (self : ProbeHashMap K V) (k : K) (v : V) (x : slot K V).
#[local] Open Scope Z_scope.

Lemma getslot_in self j :
  in_table self j ->
  exists x, slot_at self j = Some x /\ getslot self j = Returns x.
Proof.
  intros Hj. unfold getslot, slot_at, py_getitem.
  rewrite py_index_in_range by done.
  destruct (lookup_lt_is_Some_2 (_table self) (Z.to_nat j)) as [x Hx]; [unfold in_table in Hj; lia|].
  exists x. by rewrite Hx.
Qed.

Lemma getslot_at self j x :
  in_table self j -> slot_at self j = Some x -> getslot self j = Returns x.
Proof.
  intros Hj Hx. destruct (getslot_in self j Hj) as (y & Hy & ->). congruence.
Qed.

Lemma _is_available_at self j x :
  in_table self j -> slot_at self j = Some x ->
  _is_available self j = Returns (is_None x || is_AVAIL x).
Proof.
  intros Hj Hx. unfold _is_available. rewrite (getslot_at _ _ _ Hj Hx).
  by destruct x.
Qed.

Lemma probe_in self j i : in_table self j -> in_table self (probe self j i).
Proof. intros Hj. unfold in_table, probe in *. apply Z.mod_pos_bound. lia. Qed.

Lemma probe_0 self j : in_table self j -> probe self j 0 = j.
Proof. intros Hj. unfold probe, in_table in *. rewrite Z.add_0_r. apply Z.mod_small. lia. Qed.

Lemma probe_S self j i : probe self (probe self j 1) i = probe self j (S i).
Proof.
  unfold probe. rewrite Zplus_mod_idemp_l. f_equal. lia.
Qed.

Lemma next_in self j :
  in_table self j -> next self j = Returns (probe self j 1).
Proof.
  intros Hj. unfold next, py_mod, probe, in_table in *.
  destruct (Z.eqb_spec (Z.of_nat (length (_table self))) 0); [lia|done].
Qed.

(** One step of the loop past a slot that is not the one searched for. *)
Lemma _find_slot_loop_pass self k j x fuel first_avail :
  in_table self j -> slot_at self j = Some x -> passed k (Some x) ->
  _find_slot_loop (S fuel) self j k first_avail
  = _find_slot_loop fuel self (probe self j 1) k
      (if is_AVAIL x
       then Some (match first_avail with Some a => a | None => j end)
       else first_avail).
Proof.
  intros Hj Hx Hpass. cbn [_find_slot_loop].
  rewrite (_is_available_at _ _ _ Hj Hx), (getslot_at _ _ _ Hj Hx), (next_in _ _ Hj).
  destruct Hpass as [[= ->]|(item & [= ->] & Hne)]; simpl; [done|].
  by rewrite decide_False by done.
Qed.

Lemma _find_slot_loop_found self k i :
  forall j item first_avail fuel,
    in_table self j ->
    (forall i', (i' < i)%nat -> passed k (slot_at self (probe self j i'))) ->
    slot_at self (probe self j i) = Some (slot_Item item) -> _key item = k ->
    (i < fuel)%nat ->
    _find_slot_loop fuel self j k first_avail = Some (Returns (true, probe self j i)).
Proof.
  induction i as [|i IH]; intros j item fa fuel Hj Hpass Hstop Hkey Hfuel.
  - rewrite probe_0 in * by done.
    destruct fuel as [|fuel]; [lia|]. cbn [_find_slot_loop].
    rewrite (_is_available_at _ _ _ Hj Hstop), (getslot_at _ _ _ Hj Hstop). simpl.
    by rewrite decide_True by done.
  - destruct fuel as [|fuel]; [lia|].
    pose proof (Hpass 0%nat ltac:(lia)) as Hp0. rewrite probe_0 in Hp0 by done.
    destruct (getslot_in self j Hj) as (x & Hx & _). rewrite Hx in Hp0.
    rewrite (_find_slot_loop_pass _ _ _ _ _ _ Hj Hx Hp0).
    rewrite <- (probe_S self j i).
    apply (IH _ item); [by apply probe_in| |by rewrite probe_S|done|lia].
    intros i' Hi'. rewrite probe_S. apply Hpass. lia.
Qed.

Lemma _find_slot_loop_not_found self k i :
  forall j,
    in_table self j ->
    (forall i', (i' < i)%nat -> passed k (slot_at self (probe self j i'))) ->
    slot_at self (probe self j i) = Some slot_None ->
    exists a, (a <= i)%nat /\
      (a = i \/ slot_at self (probe self j a) = Some _AVAIL) /\
      (forall i', (i' < a)%nat -> occupied (slot_at self (probe self j i'))) /\
      forall first_avail fuel, (i < fuel)%nat ->
        _find_slot_loop fuel self j k first_avail
        = Some (Returns (false, match first_avail with
                                | Some b => b
                                | None => probe self j a
                                end)).
Proof.
  induction i as [|i IH]; intros j Hj Hpass Hstop.
  - exists 0%nat. split; [lia|]. split; [by left|]. split; [intros; lia|].
    intros fa fuel Hfuel. rewrite probe_0 in * by done.
    destruct fuel as [|fuel]; [lia|]. cbn [_find_slot_loop].
    rewrite (_is_available_at _ _ _ Hj Hstop), (getslot_at _ _ _ Hj Hstop). simpl.
    by destruct fa.
  - pose proof (Hpass 0%nat ltac:(lia)) as Hp0. rewrite probe_0 in Hp0 by done.
    destruct (getslot_in self j Hj) as (x & Hx & _). rewrite Hx in Hp0.
    destruct (IH (probe self j 1)) as (a & Ha & Hav & Hocc & Hloop).
    { by apply probe_in. }
    { intros i' Hi'. rewrite probe_S. apply Hpass. lia. }
    { by rewrite probe_S. }
    destruct (is_AVAIL x) eqn:Hx'.
    + exists 0%nat. split; [lia|]. split.
      { right. rewrite probe_0 by done. by destruct x. }
      split; [intros; lia|].
      intros fa fuel Hfuel. destruct fuel as [|fuel]; [lia|].
      rewrite (_find_slot_loop_pass _ _ _ _ _ _ Hj Hx Hp0), Hx'.
      rewrite Hloop by lia. rewrite probe_0 by done. by destruct fa.
    + exists (S a). split; [lia|]. split.
      { rewrite <- (probe_S self j a). destruct Hav as [->|Hav]; [by left|by right]. }
      split.
      { intros [|i'] Hi'.
        - rewrite probe_0 by done. rewrite Hx.
          destruct Hp0 as [[= ->]|(item & [= ->] & _)]; [done|by eexists].
        - rewrite <- (probe_S self j i'). apply Hocc. lia. }
      intros fa fuel Hfuel. destruct fuel as [|fuel]; [lia|].
      rewrite (_find_slot_loop_pass _ _ _ _ _ _ Hj Hx Hp0), Hx'.
      rewrite Hloop by lia. by rewrite probe_S.
Qed.

Lemma _find_slot_loop_forever self k fuel :
  (forall x, x ∈ _table self -> passed k (Some x)) ->
  forall j first_avail,
    in_table self j -> _find_slot_loop fuel self j k first_avail = None.
Proof.
  intros Hall. induction fuel as [|fuel IH]; intros j fa Hj; [done|].
  destruct (getslot_in self j Hj) as (x & Hx & _).
  rewrite (_find_slot_loop_pass _ _ _ _ _ _ Hj Hx).
  - apply IH. by apply probe_in.
  - apply Hall. by eapply list_elem_of_lookup_2.
Qed.

(** X21. [_find_slot(j, k)] probes the slots from [j] on, cyclically, past
    every sentinel and every item with another key.  If it comes to an item
    with key [k] it returns [(True, index)] of that slot; if it comes to a
    slot that is [None] it returns [(False, index)] of the first slot on its
    way that was a sentinel or [None]; if the table has no slot that is
    [None] and no item with key [k], it never returns. *)
Theorem find_slot_probes_cyclically self j k :
  in_table self j ->
  (forall i item fuel,
     (forall i', (i' < i)%nat -> passed k (slot_at self (probe self j i'))) ->
     slot_at self (probe self j i) = Some (slot_Item item) -> _key item = k ->
     (i < fuel)%nat ->
     _find_slot fuel self j k = Some (Returns (true, probe self j i))) /\
  (forall i fuel,
     (forall i', (i' < i)%nat -> passed k (slot_at self (probe self j i'))) ->
     slot_at self (probe self j i) = Some slot_None ->
     (i < fuel)%nat ->
     exists a, (a <= i)%nat /\
       _find_slot fuel self j k = Some (Returns (false, probe self j a)) /\
       (a = i \/ slot_at self (probe self j a) = Some _AVAIL) /\
       (forall i', (i' < a)%nat -> occupied (slot_at self (probe self j i')))) /\
  ((forall x, x ∈ _table self -> passed k (Some x)) ->
   forall fuel, _find_slot fuel self j k = None).
Proof.
  intros Hj. split; [|split].
  - intros i item fuel Hpass Hstop Hkey Hfuel.
    by apply (_find_slot_loop_found self k i j item).
  - intros i fuel Hpass Hstop Hfuel.
    destruct (_find_slot_loop_not_found self k i j Hj Hpass Hstop)
      as (a & Ha & Hav & Hocc & Hloop).
    exists a. split; [done|]. split; [|done].
    unfold _find_slot. by rewrite Hloop.
  - intros Hall fuel. by apply _find_slot_loop_forever.
Qed.

(** *** Writing a slot *)

Lemma probe_inj self j i1 i2 :
  (i1 < length (_table self))%nat -> (i2 < length (_table self))%nat ->
  probe self j i1 = probe self j i2 -> i1 = i2.
Proof.
  intros H1 H2 Heq. unfold probe in Heq.
  apply mod_add_inj in Heq; lia.
Qed.

Lemma probe_wrap self j i :
  (length (_table self) <= i)%nat ->
  probe self j (i - length (_table self)) = probe self j i.
Proof.
  intros Hi. unfold probe.
  rewrite <- (Z_mod_plus_full (j + Z.of_nat (i - length (_table self))) 1).
  f_equal. lia.
Qed.

Lemma stop_lt_length self j k i :
  in_table self j ->
  (forall i', (i' < i)%nat -> passed k (slot_at self (probe self j i'))) ->
  ~ passed k (slot_at self (probe self j i)) ->
  (i < length (_table self))%nat.
Proof.
  intros Hj Hpass Hstop. unfold in_table in Hj.
  destruct (decide (i < length (_table self))%nat) as [|Hge]; [done|].
  exfalso. apply Hstop. rewrite <- probe_wrap by lia. apply Hpass. lia.
Qed.

Lemma slot_at_insert self s x n j :
  in_table self s -> in_table self j ->
  slot_at (mkMap (<[Z.to_nat s := x]> (_table self)) n) j
  = if decide (j = s) then Some x else slot_at self j.
Proof.
  intros Hs Hj. unfold slot_at, in_table in *. cbn [_table].
  destruct (decide (j = s)) as [->|Hne].
  - apply list_lookup_insert_eq. lia.
  - apply list_lookup_insert_ne. lia.
Qed.

Lemma probe_insert self s x n j i :
  probe (mkMap (<[Z.to_nat s := x]> (_table self)) n) j i = probe self j i.
Proof. unfold probe. cbn [_table]. by rewrite length_insert. Qed.

Lemma in_table_insert self s x n j :
  in_table (mkMap (<[Z.to_nat s := x]> (_table self)) n) j <-> in_table self j.
Proof. unfold in_table. cbn [_table]. by rewrite length_insert. Qed.

Lemma setslot_in self s x :
  in_table self s ->
  setslot self s x = (mkMap (<[Z.to_nat s := x]> (_table self)) (_n self), Returns tt).
Proof.
  intros Hs. unfold setslot. by rewrite py_setitem_in_range.
Qed.

Lemma not_passed_None k : ~ @passed K V k (Some slot_None).
Proof. intros [[=]|(item & [=] & _)]. Qed.

Lemma not_passed_key k (item : _Item K V) : _key item = k -> ~ passed k (Some (slot_Item item)).
Proof. intros Hk [[=]|(item' & [= <-] & Hne)]. done. Qed.

(** After [self._table[probe a] = Item(k, v)], where the search for [k]
    passes the slots before step [a], it stops there. *)
Lemma _find_slot_after_write self j k v a n fuel :
  in_table self j -> (a < length (_table self))%nat ->
  (forall i', (i' < a)%nat -> passed k (slot_at self (probe self j i'))) ->
  (a < fuel)%nat ->
  let self' := mkMap (<[Z.to_nat (probe self j a) := slot_Item (mkItem k v)]>
                        (_table self)) n in
  _find_slot fuel self' j k = Some (Returns (true, probe self j a)) /\
  getslot self' (probe self j a) = Returns (slot_Item (mkItem k v)).
Proof.
  intros Hj Ha Hbefore Hfuel self'.
  pose proof (probe_in self j a Hj) as Hs.
  assert (Hat : slot_at self' (probe self j a) = Some (slot_Item (mkItem k v))).
  { unfold self'. rewrite slot_at_insert by done. by rewrite decide_True. }
  split.
  - unfold _find_slot. rewrite <- (probe_insert self (probe self j a)
      (slot_Item (mkItem k v)) n j a). fold self'.
    apply (_find_slot_loop_found self' k a j (mkItem k v)).
    + by apply in_table_insert.
    + intros i' Hi'. unfold self'. rewrite probe_insert.
      rewrite slot_at_insert by (try apply probe_in; done).
      rewrite decide_False; [by apply Hbefore|].
      intros Heq. apply probe_inj in Heq; lia.
    + unfold self' at 2. by rewrite probe_insert.
    + done.
    + done.
  - apply getslot_at; [by apply in_table_insert|done].
Qed.

(** X22. [_bucket_setitem(j, k, v)] followed by [_bucket_getitem(j, k)]
    returns [v], whenever the search from [j] comes to an item with key [k]
    or to a slot that is [None].  One slot of the table is written; [_n] is
    one more if the key was new and unchanged if not. *)
Theorem bucket_setitem_then_getitem self j k v i fuel :
  in_table self j ->
  (forall i', (i' < i)%nat -> passed k (slot_at self (probe self j i'))) ->
  (slot_at self (probe self j i) = Some slot_None \/
   exists item, slot_at self (probe self j i) = Some (slot_Item item) /\ _key item = k) ->
  (i < fuel)%nat ->
  exists self' s,
    _bucket_setitem fuel self j k v = Some (self', Returns tt) /\
    in_table self s /\
    _table self' = <[Z.to_nat s := slot_Item (mkItem k v)]> (_table self) /\
    _n self' = (match slot_at self (probe self j i) with
                | Some slot_None => _n self + 1
                | _ => _n self
                end) /\
    _bucket_getitem repr fuel self' j k = Some (Returns v).
Proof.
  intros Hj Hpass Hstop Hfuel.
  assert (Hi : (i < length (_table self))%nat).
  { apply (stop_lt_length self j k i Hj Hpass).
    destruct Hstop as [->|(item & -> & Hk)];
      [apply not_passed_None|by apply not_passed_key]. }
  destruct Hstop as [Hnone|(item & Hitem & Hk)].
  - destruct (_find_slot_loop_not_found self k i j Hj Hpass Hnone)
      as (a & Ha & Hav & Hocc & Hloop).
    pose proof (probe_in self j a Hj) as Hs.
    destruct (_find_slot_after_write self j k v a (_n self + 1) fuel Hj) as [Hfind Hget];
      [lia| |lia|].
    { intros i' Hi'. apply Hpass. lia. }
    exists (mkMap (<[Z.to_nat (probe self j a) := slot_Item (mkItem k v)]> (_table self))
                  (_n self + 1)), (probe self j a).
    split; [|split; [done|split; [|split]]].
    + unfold _bucket_setitem, _find_slot. rewrite Hloop by done. cbn [negb].
      rewrite setslot_in by done. reflexivity.
    + done.
    + cbn [_n]. by rewrite Hnone.
    + unfold _bucket_getitem. rewrite Hfind. cbn [negb]. by rewrite Hget.
  - pose proof (probe_in self j i Hj) as Hs.
    destruct (_find_slot_after_write self j k v i (_n self) fuel Hj) as [Hfind Hget];
      [lia| |lia|].
    { done. }
    exists (mkMap (<[Z.to_nat (probe self j i) := slot_Item (mkItem k v)]> (_table self))
                  (_n self)), (probe self j i).
    split; [|split; [done|split; [|split]]].
    + unfold _bucket_setitem, _find_slot.
      rewrite (_find_slot_loop_found self k i j item) by done. cbn [negb].
      rewrite (getslot_at _ _ _ Hs Hitem). rewrite setslot_in by done.
      by rewrite Hk.
    + done.
    + cbn [_n]. by rewrite Hitem.
    + unfold _bucket_getitem. rewrite Hfind. cbn [negb]. by rewrite Hget.
Qed.


(** *** Deleting *)

Lemma least_true_below (b : nat -> bool) n :
  (forall m, (m < n)%nat -> b m = false) \/
  exists m, (m < n)%nat /\ b m = true /\ forall m', (m' < m)%nat -> b m' = false.
Proof.
  induction n as [|n [IH|(m & Hlt & Hm & Hleast)]].
  - left. intros; lia.
  - destruct (b n) eqn:Hn.
    + right. exists n. split; [lia|]. split; [done|]. intros; apply IH; lia.
    + left. intros m Hm. destruct (decide (m = n)) as [->|]; [done|]. apply IH. lia.
  - right. exists m. split; [lia|done].
Qed.

Lemma least_true (b : nat -> bool) n :
  b n = true ->
  exists m, (m <= n)%nat /\ b m = true /\ forall m', (m' < m)%nat -> b m' = false.
Proof.
  intros Hn. destruct (least_true_below b (S n)) as [Hno|(m & Hlt & Hm & Hleast)].
  - rewrite Hno in Hn by lia. done.
  - exists m. split; [lia|done].
Qed.

Lemma probe_reaches self j z :
  in_table self j -> (z < length (_table self))%nat ->
  exists i, (i < length (_table self))%nat /\ probe self j i = Z.of_nat z.
Proof.
  intros Hj Hz. unfold in_table in Hj.
  pose proof (Z.mod_pos_bound (Z.of_nat z - j) (Z.of_nat (length (_table self)))
                ltac:(lia)) as Hb.
  exists (Z.to_nat ((Z.of_nat z - j) mod Z.of_nat (length (_table self)))).
  split; [lia|]. unfold probe. rewrite Z2Nat.id by lia.
  rewrite Zplus_mod_idemp_r.
  replace (j + (Z.of_nat z - j)) with (Z.of_nat z) by lia.
  apply Z.mod_small. lia.
Qed.

Lemma first_None self j k :
  in_table self j -> slot_None ∈ _table self ->
  (forall x, x ∈ _table self -> x = slot_None \/ passed k (Some x)) ->
  exists i, (i < length (_table self))%nat /\
    slot_at self (probe self j i) = Some slot_None /\
    forall i', (i' < i)%nat -> passed k (slot_at self (probe self j i')).
Proof.
  intros Hj Hin Hall.
  apply list_elem_of_lookup_1 in Hin as [z Hz].
  pose proof (lookup_lt_Some _ _ _ Hz) as Hlt.
  destruct (probe_reaches self j z Hj Hlt) as (iz & Hiz & Hprobe).
  pose (b := fun i => match slot_at self (probe self j i) with
                      | Some slot_None => true
                      | _ => false
                      end).
  destruct (least_true b iz) as (i & Hle & Hi & Hleast).
  { unfold b, slot_at. by rewrite Hprobe, Nat2Z.id, Hz. }
  exists i. split; [lia|]. split.
  - unfold b in Hi. by destruct (slot_at self (probe self j i)) as [[]|].
  - intros i' Hi'. specialize (Hleast i' Hi'). unfold b in Hleast.
    destruct (getslot_in self (probe self j i') (probe_in _ _ _ Hj)) as (x & Hx & _).
    rewrite Hx in *.
    destruct (Hall x) as [->|Hp]; [by eapply list_elem_of_lookup_2|done|done].
Qed.

(** X23. [_bucket_delitem(j, k)] raises [KeyError] (with the text "Ket Error "
    and the key) and changes nothing when the search finds no item with key
    [k]; when it finds one it puts the sentinel in its slot and leaves [_n]
    as it is.  If no other slot held the key, looking it up afterwards raises
    [KeyError] when the table has a slot that is [None], and never returns
    when it has none. *)
Theorem bucket_delitem_leaves_sentinel self j k :
  in_table self j ->
  (forall i fuel,
     (forall i', (i' < i)%nat -> passed k (slot_at self (probe self j i'))) ->
     slot_at self (probe self j i) = Some slot_None ->
     (i < fuel)%nat ->
     _bucket_delitem repr fuel self j k
     = Some (self, Raises (KeyError ("Ket Error " +:+ repr k)))) /\
  (forall i item fuel,
     (forall i', (i' < i)%nat -> passed k (slot_at self (probe self j i'))) ->
     slot_at self (probe self j i) = Some (slot_Item item) -> _key item = k ->
     (i < fuel)%nat ->
     let s := probe self j i in
     let self' := mkMap (<[Z.to_nat s := _AVAIL]> (_table self)) (_n self) in
     _bucket_delitem repr fuel self j k = Some (self', Returns tt) /\
     ((forall j' item', in_table self j' ->
         slot_at self j' = Some (slot_Item item') -> _key item' = k -> j' = s) ->
      (slot_None ∈ _table self ->
       forall j0 fuel', in_table self j0 -> (length (_table self) <= fuel')%nat ->
         _bucket_getitem repr fuel' self' j0 k
         = Some (Raises (KeyError ("Key Error: " +:+ repr k)))) /\
      (slot_None ∉ _table self ->
       forall j0 fuel', in_table self j0 ->
         _bucket_getitem repr fuel' self' j0 k = None))).
Proof.
  intros Hj. split.
  - intros i fuel Hpass Hstop Hfuel.
    destruct (_find_slot_loop_not_found self k i j Hj Hpass Hstop)
      as (a & _ & _ & _ & Hloop).
    unfold _bucket_delitem, _find_slot. by rewrite Hloop.
  - intros i item fuel Hpass Hstop Hkey Hfuel s self'.
    pose proof (probe_in self j i Hj) as Hs. fold s in Hs.
    split.
    { unfold _bucket_delitem, _find_slot.
      rewrite (_find_slot_loop_found self k i j item) by done. cbn [negb].
      by rewrite setslot_in. }
    intros Hunique.
    assert (Hall : forall x, x ∈ _table self' -> x = slot_None \/ passed k (Some x)).
    { intros x [z Hz]%list_elem_of_lookup_1.
      pose proof (lookup_lt_Some _ _ _ Hz) as Hlt.
      unfold self' in Hz, Hlt. cbn [_table] in Hz, Hlt. rewrite length_insert in Hlt.
      destruct (decide (z = Z.to_nat s)) as [->|Hne].
      - rewrite list_lookup_insert_eq in Hz by lia. injection Hz as <-.
        right. by left.
      - rewrite list_lookup_insert_ne in Hz by done.
        destruct x as [| |item']; [by left|right; by left|].
        right. right. exists item'. split; [done|]. intros Hk.
        apply Hne. rewrite <- (Hunique (Z.of_nat z) item'); [by rewrite Nat2Z.id| | |done].
        + unfold in_table. lia.
        + unfold slot_at. by rewrite Nat2Z.id. }
    assert (Hlen : length (_table self') = length (_table self)).
    { unfold self'. cbn [_table]. by rewrite length_insert. }
    split.
    + intros Hnone j0 fuel' Hj0 Hfuel'.
      assert (Hnone' : slot_None ∈ _table self').
      { apply list_elem_of_lookup_1 in Hnone as [z Hz].
        apply list_elem_of_lookup. exists z. unfold self'. cbn [_table].
        rewrite list_lookup_insert_ne; [done|].
        intros <-. unfold slot_at in Hstop. fold s in Hstop. congruence. }
      assert (Hj0' : in_table self' j0) by (by apply in_table_insert).
      destruct (first_None self' j0 k Hj0' Hnone' Hall) as (i0 & Hi0 & Hstop0 & Hpass0).
      destruct (_find_slot_loop_not_found self' k i0 j0 Hj0' Hpass0 Hstop0)
        as (a & _ & _ & _ & Hloop).
      unfold _bucket_getitem, _find_slot. rewrite Hloop by lia. done.
    + intros Hnone j0 fuel' Hj0.
      unfold _bucket_getitem, _find_slot.
      rewrite _find_slot_loop_forever; [done| |by apply in_table_insert].
      intros x Hx. destruct (Hall x Hx) as [->|Hp]; [|done].
      exfalso. apply Hnone.
      apply list_elem_of_lookup_1 in Hx as [z Hz].
      unfold self' in Hz. cbn [_table] in Hz.
      destruct (decide (z = Z.to_nat s)) as [->|Hne].
      * pose proof (lookup_lt_Some _ _ _ Hz) as Hlt. rewrite length_insert in Hlt.
        by rewrite list_lookup_insert_eq in Hz by lia.
      * rewrite list_lookup_insert_ne in Hz by done.
        by eapply list_elem_of_lookup_2.
Qed.

(** *** Iterating *)


Lemma __iter___loop_keys self m :
  forall a,
    (a + m <= length (_table self))%nat ->
    __iter___loop self (Z.of_nat <$> seq a m)
    = (omap slot_key (take m (drop a (_table self))), Returns tt).
Proof.
  induction m as [|m IH]; intros a Hlen; [done|].
  assert (Ha : in_table self (Z.of_nat a)) by (unfold in_table; lia).
  destruct (getslot_in self _ Ha) as (x & Hx & Hget).
  cbn [seq fmap list_fmap __iter___loop].
  change (list_fmap _ _ Z.of_nat (seq (S a) m)) with (Z.of_nat <$> seq (S a) m).
  rewrite (_is_available_at _ _ _ Ha Hx), Hget, IH by lia.
  unfold slot_at in Hx. rewrite Nat2Z.id in Hx.
  rewrite (drop_S _ _ _ Hx). cbn [take omap list_omap].
  by destruct x.
Qed.

(** X24. Iterating yields the keys of the slots that hold an item, in the
    order of the table; slots that are [None] or the sentinel are skipped,
    and nothing is raised. *)
Theorem iter_yields_keys_in_table_order self :
  __iter__ self = (omap slot_key (_table self), Returns tt).
Proof.
  unfold __iter__, py_range. rewrite Nat2Z.id.
  rewrite __iter___loop_keys by (simpl; lia).
  by rewrite drop_0, take_ge by lia.
Qed.

End ProbeHashMapFacts.

(** * The maps at work *)

Lemma delitem_removes_first_witness :
  UnsortedTableMap.__delitem__ pretty 3%Z map_ab
  = (map_ab, Raises (KeyError "Key Error 3")) /\
  exists self',
    UnsortedTableMap.__delitem__ pretty 1%Z map_ab = (self', Returns tt) /\
    UnsortedTableMap.__len__ self' = 1%Z /\
    UnsortedTableMap.__getitem__ pretty 2%Z self' = Returns "b" /\
    UnsortedTableMap.__getitem__ pretty 1%Z self' = Raises (KeyError "Key Error: 1").
Proof.
  split.
  - destruct (delitem_removes_first pretty map_ab 3%Z) as [H _].
    apply H. refine (bool_decide_eq_true_1 _ _); reflexivity.
  - destruct (delitem_removes_first pretty map_ab 1%Z) as [_ H].
    destruct H as (i & self' & _ & _ & H1 & _ & H2 & H3 & H4).
    { refine (bool_decide_eq_true_1 _ _); reflexivity. }
    exists self'. split; [exact H1|]. split; [exact H2|].
    split; [rewrite H3; [reflexivity|discriminate]|].
    apply H4. refine (bool_decide_eq_true_1 _ _); reflexivity.
Defined.

Lemma reachable_map_ab : UnsortedTableMap.reachable pretty map_ab.
Proof.
  unfold map_ab.
  apply UnsortedTableMap.reachable_setitem, UnsortedTableMap.reachable_setitem,
    UnsortedTableMap.reachable_init.
Defined.

Lemma keys_stay_distinct_witness :
  UnsortedTableMap.reachable pretty map_ab /\
  NoDup (UnsortedTableMap.__iter__ map_ab) /\
  (2%Z ∈ UnsortedTableMap.__iter__ map_ab <->
   exists v, UnsortedTableMap.__getitem__ pretty 2%Z map_ab = Returns v).
Proof.
  split; [exact reachable_map_ab|].
  destruct (keys_stay_distinct pretty map_ab reachable_map_ab) as [H1 H2].
  split; [exact H1|exact (H2 2%Z)].
Defined.

Lemma in_table_probe_map_5 : ProbeHashMap.in_table probe_map_5 1.
Proof. unfold ProbeHashMap.in_table. simpl. lia. Defined.

Lemma find_slot_probes_cyclically_witness :
  ProbeHashMap._find_slot 3 probe_map_5 1 11%Z = Some (Returns (true, 3%Z)) /\
  (exists a, ProbeHashMap._find_slot 4 probe_map_5 1 16%Z
             = Some (Returns (false, ProbeHashMap.probe probe_map_5 1 a)) /\
             ProbeHashMap.slot_at probe_map_5 (ProbeHashMap.probe probe_map_5 1 a)
             = Some ProbeHashMap._AVAIL) /\
  ProbeHashMap._find_slot 100 probe_map_full 0 8%Z = None.
Proof.
  split; [|split].
  - destruct (find_slot_probes_cyclically probe_map_5 1 11%Z in_table_probe_map_5)
      as (H & _ & _).
    apply (H 2%nat (ProbeHashMap.mkItem 11%Z "eleven") 3%nat).
    + intros [|[|i']] Hi'.
      * right. eexists. split; [reflexivity|discriminate].
      * left. reflexivity.
      * lia.
    + reflexivity.
    + reflexivity.
    + lia.
  - destruct (find_slot_probes_cyclically probe_map_5 1 16%Z in_table_probe_map_5)
      as (_ & H & _).
    destruct (H 3%nat 4%nat) as (a & Ha & H1 & [H2|H2] & H3).
    + intros [|[|[|i']]] Hi'.
      * right. eexists. split; [reflexivity|discriminate].
      * left. reflexivity.
      * right. eexists. split; [reflexivity|discriminate].
      * lia.
    + reflexivity.
    + lia.
    + subst a. destruct (H3 1%nat ltac:(lia)) as [item Hitem]. discriminate Hitem.
    + exists a. split; [exact H1|exact H2].
  - destruct (find_slot_probes_cyclically probe_map_full 0 8%Z) as (_ & _ & H).
    + unfold ProbeHashMap.in_table. simpl. lia.
    + apply H. intros x Hx.
      apply elem_of_cons in Hx as [->|Hx];
        [right; eexists; split; [reflexivity|discriminate]|].
      apply elem_of_cons in Hx as [->|Hx]; [left; reflexivity|].
      apply elem_of_cons in Hx as [->|Hx];
        [right; eexists; split; [reflexivity|discriminate]|].
      by apply elem_of_nil in Hx.
Defined.

Lemma bucket_setitem_then_getitem_witness :
  exists self',
    ProbeHashMap._bucket_setitem 4 probe_map_5 1 16%Z "sixteen"
    = Some (self', Returns tt) /\
    ProbeHashMap._n self' = 3%Z /\
    ProbeHashMap._bucket_getitem pretty 4 self' 1 16%Z = Some (Returns "sixteen").
Proof.
  destruct (bucket_setitem_then_getitem pretty probe_map_5 1 16%Z "sixteen" 3%nat 4%nat
              in_table_probe_map_5)
    as (self' & s & H1 & _ & _ & H2 & H3).
  - intros [|[|[|i']]] Hi'.
    + right. eexists. split; [reflexivity|discriminate].
    + left. reflexivity.
    + right. eexists. split; [reflexivity|discriminate].
    + lia.
  - left. reflexivity.
  - lia.
  - exists self'. split; [exact H1|]. split; [exact H2|exact H3].
Defined.

Lemma bucket_delitem_leaves_sentinel_witness :
  ProbeHashMap._bucket_delitem pretty 4 probe_map_5 1 16%Z
  = Some (probe_map_5, Raises (KeyError "Ket Error 16")) /\
  (exists self',
     ProbeHashMap._bucket_delitem pretty 3 probe_map_5 1 11%Z = Some (self', Returns tt) /\
     ProbeHashMap._n self' = 2%Z /\
     ProbeHashMap._bucket_getitem pretty 5 self' 1 11%Z
     = Some (Raises (KeyError "Key Error: 11"))) /\
  (exists self',
     ProbeHashMap._bucket_delitem pretty 1 probe_map_full 2 5%Z = Some (self', Returns tt) /\
     ProbeHashMap._bucket_getitem pretty 100 self' 2 5%Z = None).
Proof.
  split; [|split].
  - destruct (bucket_delitem_leaves_sentinel pretty probe_map_5 1 16%Z
                in_table_probe_map_5) as [H _].
    apply (H 3%nat 4%nat).
    + intros [|[|[|i']]] Hi'.
      * right. eexists. split; [reflexivity|discriminate].
      * left. reflexivity.
      * right. eexists. split; [reflexivity|discriminate].
      * lia.
    + reflexivity.
    + lia.
  - destruct (bucket_delitem_leaves_sentinel pretty probe_map_5 1 11%Z
                in_table_probe_map_5) as [_ H].
    destruct (H 2%nat (ProbeHashMap.mkItem 11%Z "eleven") 3%nat) as [H1 H2].
    + intros [|[|i']] Hi'.
      * right. eexists. split; [reflexivity|discriminate].
      * left. reflexivity.
      * lia.
    + reflexivity.
    + reflexivity.
    + lia.
    + eexists. split; [exact H1|]. split; [reflexivity|].
      destruct H2 as [H2 _].
      * intros j' item' [Hj1 Hj2] Hslot Hkey.
        unfold ProbeHashMap.slot_at in Hslot. simpl in Hj2, Hslot.
        destruct (Z.to_nat j') as [|[|[|[|[|n]]]]] eqn:Hn; simpl in Hslot;
          try discriminate Hslot.
        -- injection Hslot as <-. discriminate Hkey.
        -- change (ProbeHashMap.probe probe_map_5 1 2) with 3%Z. lia.
      * apply H2.
        -- left.
        -- exact in_table_probe_map_5.
        -- simpl. lia.
  - destruct (bucket_delitem_leaves_sentinel pretty probe_map_full 2 5%Z) as [_ H].
    { unfold ProbeHashMap.in_table. simpl. lia. }
    destruct (H 0%nat (ProbeHashMap.mkItem 5%Z "five") 1%nat) as [H1 H2].
    + intros i' Hi'. lia.
    + reflexivity.
    + reflexivity.
    + lia.
    + eexists. split; [exact H1|].
      destruct H2 as [_ H2].
      * intros j' item' [Hj1 Hj2] Hslot Hkey.
        unfold ProbeHashMap.slot_at in Hslot. simpl in Hj2, Hslot.
        destruct (Z.to_nat j') as [|[|[|n]]] eqn:Hn; simpl in Hslot;
          try discriminate Hslot.
        -- injection Hslot as <-. discriminate Hkey.
        -- change (ProbeHashMap.probe probe_map_full 2 0) with 2%Z. lia.
      * apply H2.
        -- intros Hx.
           apply elem_of_cons in Hx as [Hx|Hx]; [discriminate Hx|].
           apply elem_of_cons in Hx as [Hx|Hx]; [discriminate Hx|].
           apply elem_of_cons in Hx as [Hx|Hx]; [discriminate Hx|].
           by apply elem_of_nil in Hx.
        -- unfold ProbeHashMap.in_table. simpl. lia.
Defined.

(** * The tree after [_add_left], [_add_right] and [replace] *)




(** * The stores a program reaches *)

(** The calls of [build_three_levels]. *)
Lemma reach_store_three_levels :
  reach store_three_levels
    [None; pos 0 0; pos 0 1; pos 0 2; pos 0 3; pos 0 4].
Proof.
  pose proof (reach_start (E := string)) as H0.
  pose proof (reach_call _ _ (call_init "LinkedBinaryTree") H0) as H1.
  pose proof (reach_call _ _ (call_add_root 0 "a")
                (H1 ltac:(by intros p ?%elem_of_nil))) as H2.
  pose proof (reach_call _ _ (call_add_left 0 (pos 0 0) "b")
                (H2 ltac:(by intros p ?%elem_of_nil))) as H3.
  pose proof (reach_call _ _ (call_add_right 0 (pos 0 0) "c")
                (H3 ltac:(intros p ->%list_elem_of_singleton; repeat constructor))) as H4.
  pose proof (reach_call _ _ (call_add_left 0 (pos 0 1) "d")
                (H4 ltac:(intros p ->%list_elem_of_singleton; repeat constructor))) as H5.
  pose proof (reach_call _ _ (call_add_right 0 (pos 0 2) "e")
                (H5 ltac:(intros p ->%list_elem_of_singleton; repeat constructor))) as H6.
  exact (H6 ltac:(intros p ->%list_elem_of_singleton; repeat constructor)).
Qed.

(** And then [delete] of the leaf 'd'. *)
Lemma reach_store_deleted_d :
  reach store_deleted_d
    [None; pos 0 0; pos 0 1; pos 0 2; pos 0 3; pos 0 4].
Proof.
  pose proof (reach_call _ _ (call_delete 0 (pos 0 3)) reach_store_three_levels) as H.
  exact (H ltac:(intros p ->%list_elem_of_singleton; repeat constructor)).
Qed.

Lemma len_counts_positions_witness :
  exists t,
    shape store_deleted_d (Some 0) t /\ NoDup (inorder_spec t) /\
    __len__ 0 store_deleted_d
    = (store_deleted_d, Ok (Z.of_nat (length (inorder_spec t)))) /\
    (is_empty 0 store_deleted_d = (store_deleted_d, Ok true) <->
     root 0 store_deleted_d = (store_deleted_d, Ok None)) /\
    forall fuel, depth t <= fuel ->
      positions fuel 0 store_deleted_d
      = Some (store_deleted_d, pos 0 <$> inorder_spec t, Ok tt).
Proof.
  exact (len_counts_positions store_deleted_d _ 0
           (mkTree "LinkedBinaryTree" (Some 0) 4)
           reach_store_deleted_d eq_refl).
Defined.

Lemma delete_removes_position_witness :
  exists n ns,
    pos 0 3 = pos 0 n /\ n ∈ ns /\ NoDup ns /\
    forall fuel, length ns <= fuel ->
      positions fuel 0 store_three_levels
      = Some (store_three_levels, pos 0 <$> ns, Ok tt) /\
      positions fuel 0 store_deleted_d
      = Some (store_deleted_d, pos 0 <$> filter (fun x => x <> n) ns, Ok tt).
Proof.
  refine (delete_removes_position store_three_levels _ 0 (pos 0 3) "d"
            store_deleted_d reach_store_three_levels _ eq_refl).
  repeat constructor.
Defined.
